(** * The PLONK verifier of gnark's bn254 backend

    A shallow embedding of [internal/backend/bn254/plonk/verify.go] and the
    properties of [Verify] that its specification states, followed by the
    gadget [Fp2Elmt] of package [fields], the arithmetic of a quadratic
    extension inside a circuit.

    [Verify] is one Go function that works on mutable cells: every
    [fr.Element], [big.Int] and [kzg.Digest] is updated in place through a
    pointer receiver.  The embedding keeps that shape.  Each Go variable is a
    cell of a store, each method call is a state transformer that loads its
    operands and stores into its receiver, early [return]s and run-time
    panics are outcomes of the monad, and the calls into the [kzg] package
    are logged.

    The scalar field is the one of bn254: integers modulo [fr.Modulus], as
    [Zmod fr.Modulus] of the standard library.  The curve group, the hash
    function and the KZG opening checks belong to gnark-crypto; they are the
    fields of the classes [Curve] and [KZG].

    The methods of [Fp2Elmt] build constraints through [*frontend.CS] and
    write the two pointers of their receiver.  The circuit is the class
    [frontend.CS]; the elements live at addresses, so that a receiver may
    be one of its own arguments. *)

From Stdlib Require Import ZArith Zmod Lia List Bool String Ascii Znumtheory.
From Stdlib Require Strings.Byte.
Import ListNotations.
Local Open Scope Z_scope.

(* ================================================================= *)
(** ** Primality certificates *)

(** The field laws of [fr.Element] rest on [fr.Modulus] being prime.  The
    prime has 254 bits, so it is certified: trial division for the small
    primes, Pocklington's criterion for the large ones. *)

Module Primality.

Fixpoint no_divisor_upto (fuel : nat) (d n : Z) : bool :=
  match fuel with
  | O => true
  | S k => negb (n mod d =? 0) && no_divisor_upto k (d + 1) n
  end.

(** [n] has no divisor in [2 .. sqrt n]. *)
Definition trial_prime (n : Z) : bool :=
  (1 <? n) && no_divisor_upto (Z.to_nat (Z.sqrt n - 1)) 2 n.

(** A certificate for [N] is a base [a] and, for each prime [p] of the
    factored part of [N - 1], the exponent [e] of [p] in it. *)
Definition certificate : Type := Z * list (Z * Z).

Fixpoint factored_part (ps : list (Z * Z)) : Z :=
  match ps with
  | [] => 1
  | (p, e) :: rest => p ^ e * factored_part rest
  end.

(** [a ^ ((N-1)/p) - 1] is a unit modulo [N]. *)
Definition witnesses (N a p : Z) : bool :=
  Z.gcd (Zmod.to_Z (Zmod.pow (Zmod.of_Z N a) ((N - 1) / p)) - 1) N =? 1.

Fixpoint check_items (N a : Z) (ps : list (Z * Z)) : bool :=
  match ps with
  | [] => true
  | (p, e) :: rest =>
      (0 <=? e) && ((N - 1) mod p ^ e =? 0) && witnesses N a p
      && (Z.gcd (p ^ e) (factored_part rest) =? 1) && check_items N a rest
  end.

Definition pocklington (N : Z) (c : certificate) : bool :=
  let (a, ps) := c in
  let F := factored_part ps in
  (1 <? N) && (0 <? F) && (N <? (F + 1) * (F + 1))
  && Zmod.eqb (Zmod.pow (Zmod.of_Z N a) (N - 1)) Zmod.one
  && check_items N a ps.

Definition certified_primes (c : certificate) : Prop :=
  Forall (fun pe => Z.prime (fst pe)) (snd c).

End Primality.

(* ================================================================= *)
(** ** The scalar field: package [fr] of gnark-crypto's bn254 *)

Module fr.

(** The order of the bn254 scalar field,
    0x30644e72e131a029b85045b68181585d2833e84879b9709143e1f593f0000001. *)
Definition Modulus : Z :=
  21888242871839275222246405745257275088548364400416034343698204186575808495617.

(** An [fr.Element] is a residue modulo [Modulus].  gnark-crypto keeps four
    64-bit limbs in Montgomery form; every method used by [Verify] is a
    function of the residue alone. *)
Definition Element : Type := Zmod Modulus.

Definition Zero : Element := Zmod.zero.
Definition One : Element := Zmod.one.
Definition Add (x y : Element) : Element := Zmod.add x y.
Definition Sub (x y : Element) : Element := Zmod.sub x y.
Definition Mul (x y : Element) : Element := Zmod.mul x y.
Definition Neg (x : Element) : Element := Zmod.opp x.

(** [Inverse] returns 0 on 0 and the modular inverse otherwise. *)
Definition Inverse (x : Element) : Element := Zmod.inv x.

(** [Div] is [Inverse] followed by [Mul]: it never fails, and [x / 0 = 0]. *)
Definition Div (x y : Element) : Element := Mul x (Inverse y).

(** [z.Exp(x, e)] for a [big.Int] exponent. *)
Definition Exp (x : Element) (e : Z) : Element := Zmod.pow x e.

Definition Equal (x y : Element) : bool := Zmod.eqb x y.

(** [ToBigIntRegular]: the canonical representative in [0, Modulus). *)
Definition ToBigIntRegular (x : Element) : Z := Zmod.to_Z x.

(** A byte string read as a big-endian unsigned integer. *)
Definition be_to_Z (bs : list Byte.byte) : Z :=
  fold_left (fun acc b => acc * 256 + Z.of_N (Byte.to_N b)) bs 0.

(** [SetBytes] reduces the big-endian integer modulo [Modulus]. *)
Definition SetBytes (bs : list Byte.byte) : Element :=
  Zmod.of_Z Modulus (be_to_Z bs).

Definition of_Z (z : Z) : Element := Zmod.of_Z Modulus z.

End fr.

(** Go's conversion to [int64] and [int64] addition wrap around. *)
Definition wrap_int64 (z : Z) : Z := (z + 2 ^ 63) mod 2 ^ 64 - 2 ^ 63.

(* ================================================================= *)
(** ** The Fiat-Shamir transcript: package [fiatshamir] of gnark-crypto *)

Module fiatshamir.

Inductive error :=
| errChallengeNotFound
| errChallengeAlreadyComputed
| errPreviousChallengeNotComputed.

(** Modelled from the spec: the [challenge] slot of the transcript, which
    gnark-crypto declares.  A slot is an append-only list of bindings, open
    until its value is computed. *)
Record challenge := {
  position : nat;
  bindings : list (list Byte.byte);
  value : list Byte.byte;
  isComputed : bool
}.

(** Modelled from the spec: the [Transcript] of gnark-crypto.  [challenges]
    is the map from slot names to slots, [previous] the last finalized
    slot, [h] the hash function the transcript was built with. *)
Record Transcript := {
  h : list Byte.byte -> list Byte.byte;
  challenges : string -> option challenge;
  previous : option challenge
}.

Fixpoint index_of (id : string) (ids : list string) (i : nat) : option nat :=
  match ids with
  | [] => None
  | x :: rest => if String.eqb id x then Some i else index_of id rest (S i)
  end.

(** Modelled from the spec: [NewTranscript(h, ids...)] declares the slots in
    the order of [ids]. *)
Definition NewTranscript (hash : list Byte.byte -> list Byte.byte)
    (ids : list string) : Transcript :=
  {| h := hash;
     challenges := fun id =>
       match index_of id ids 0 with
       | Some i => Some {| position := i; bindings := []; value := [];
                           isComputed := false |}
       | None => None
       end;
     previous := None |}.

Definition set_challenge (m : string -> option challenge) (id : string)
    (c : challenge) : string -> option challenge :=
  fun id' => if String.eqb id' id then Some c else m id'.

(** Modelled from the spec: [Bind] appends to an open slot; binding to an
    unknown or finalized slot is a misuse error. *)
Definition Bind (t : Transcript) (id : string) (bValue : list Byte.byte)
    : Transcript * option error :=
  let 'Build_Transcript hash slots prev := t in
  match slots id with
  | None => (t, Some errChallengeNotFound)
  | Some (Build_challenge pos bs v computed) =>
      if computed then (t, Some errChallengeAlreadyComputed)
      else
        let c' := {| position := pos; bindings := bs ++ [bValue];
                     value := v; isComputed := false |} in
        ({| h := hash; challenges := set_challenge slots id c';
            previous := prev |}, None)
  end.

(** Modelled from the spec: [ComputeChallenge] hashes the slot's name, the
    value of the previous slot (for every slot but the first) and the
    bindings in the order they were added; the slot is then finalized. *)
Definition ComputeChallenge (t : Transcript) (id : string)
    : Transcript * (list Byte.byte * option error) :=
  let 'Build_Transcript hash slots prev := t in
  match slots id with
  | None => (t, ([], Some errChallengeNotFound))
  | Some (Build_challenge pos bs v computed) =>
      if computed then (t, (v, None))
      else
        let finish (before : list Byte.byte) :=
          let res := hash (list_byte_of_string id ++ before
                           ++ List.concat bs) in
          let c' := {| position := pos; bindings := bs;
                       value := res; isComputed := true |} in
          ({| h := hash; challenges := set_challenge slots id c';
              previous := Some c' |}, (res, None)) in
        match pos with
        | O => finish []
        | S k =>
            match prev with
            | None => (t, ([], Some errPreviousChallengeNotComputed))
            | Some p =>
                if Nat.eqb (position p) k then finish (value p)
                else (t, ([], Some errPreviousChallengeNotComputed))
            end
        end
  end.

End fiatshamir.

(* ================================================================= *)
(** ** The local variables of [Verify] *)

Module Var.

(** The variables of type [fr.Element]. *)
Inductive fr :=
| gamma | alpha | zeta
| zetaPowerM | zzeta | one
| pi | den | acc | lagrange | lagrangeOne | xiLi
| _s1 | _s2 | _o | alphaSquareLagrange
| zu | claimedQuotient | linearizedPolynomialZeta | l | r | o | s1 | s2
| zetaPowerMMinusOne | zetaMPlusTwo | rl | t.

(** The variables of type [big.Int]. *)
Inductive big :=
| bExpo | mPlusTwo | zetaMPlusTwoBigInt
| lb | rb | ob | rlb | _s1b | _s2b | alphaSquareLagrangeB.

(** The variables of type [kzg.Digest]. *)
Inductive g1 :=
| foldedH | linearizedPolynomialDigest | tmp
| s3Commit | secondPart | thirdPart.

Definition fr_eqb (x y : fr) : bool :=
  match x, y with
  | gamma, gamma | alpha, alpha | zeta, zeta
  | zetaPowerM, zetaPowerM | zzeta, zzeta | one, one
  | pi, pi | den, den | acc, acc | lagrange, lagrange
  | lagrangeOne, lagrangeOne | xiLi, xiLi
  | _s1, _s1 | _s2, _s2 | _o, _o
  | alphaSquareLagrange, alphaSquareLagrange
  | zu, zu | claimedQuotient, claimedQuotient
  | linearizedPolynomialZeta, linearizedPolynomialZeta
  | l, l | r, r | o, o | s1, s1 | s2, s2
  | zetaPowerMMinusOne, zetaPowerMMinusOne | zetaMPlusTwo, zetaMPlusTwo
  | rl, rl | t, t => true
  | _, _ => false
  end.

Definition big_eqb (x y : big) : bool :=
  match x, y with
  | bExpo, bExpo | mPlusTwo, mPlusTwo
  | zetaMPlusTwoBigInt, zetaMPlusTwoBigInt
  | lb, lb | rb, rb | ob, ob | rlb, rlb | _s1b, _s1b | _s2b, _s2b
  | alphaSquareLagrangeB, alphaSquareLagrangeB => true
  | _, _ => false
  end.

Definition g1_eqb (x y : g1) : bool :=
  match x, y with
  | foldedH, foldedH
  | linearizedPolynomialDigest, linearizedPolynomialDigest
  | tmp, tmp | s3Commit, s3Commit | secondPart, secondPart
  | thirdPart, thirdPart => true
  | _, _ => false
  end.

End Var.

(** [l[i] = v] on a slice; [None] when [i] is out of range. *)
Fixpoint list_set {A : Type} (xs : list A) (i : nat) (v : A)
    : option (list A) :=
  match xs, i with
  | [], _ => None
  | _ :: rest, O => Some (v :: rest)
  | x :: rest, S k =>
      match list_set rest k v with
      | Some rest' => Some (x :: rest')
      | None => None
      end
  end.

(* ================================================================= *)
(** ** What [Verify] takes from gnark-crypto *)

(** The curve group: [kzg.Digest] is [bn254.G1Affine].  [Digest_zero] is
    the zero value of the struct, [SHA256] the hash behind
    [fiatshamir.SHA256]. *)
Class Curve := {
  Digest : Type;
  Digest_zero : Digest;
  Digest_Add : Digest -> Digest -> Digest;
  Digest_Sub : Digest -> Digest -> Digest;
  Digest_ScalarMultiplication : Digest -> Z -> Digest;
  Digest_Marshal : Digest -> list Byte.byte;
  SHA256 : list Byte.byte -> list Byte.byte
}.

(** [kzg.BatchOpeningProof]: [Verify] reads [ClaimedValues]; the other
    fields stay inside the [kzg] package. *)
Record BatchOpeningProof (rest : Type) := {
  ClaimedValues : list fr.Element;
  BatchOpeningProof_rest : rest
}.

(** [kzg.OpeningProof]: [Verify] reads [ClaimedValue]. *)
Record OpeningProof (rest : Type) := {
  ClaimedValue : fr.Element;
  OpeningProof_rest : rest
}.

Arguments ClaimedValues {rest} _.
Arguments BatchOpeningProof_rest {rest} _.
Arguments ClaimedValue {rest} _.
Arguments OpeningProof_rest {rest} _.

(** The two opening checks of package [kzg], with the types they work on.
    A check returns [None] for Go's [nil]. *)
Class KZG {curve : Curve} := {
  SRS : Type;
  batch_rest : Type;
  opening_rest : Type;
  kzg_error : Type;
  kzg_BatchVerifySinglePoint :
    list Digest -> BatchOpeningProof batch_rest -> SRS -> option kzg_error;
  kzg_Verify :
    Digest -> OpeningProof opening_rest -> SRS -> option kzg_error
}.

Section Verifier.

Context {curve : Curve} {kzg : KZG}.

(** The proof.  Its declaration is outside [verify.go]; [LRO] and [H] are
    kept as sequences, so that every index [Verify] uses is checked. *)
Record PlonkProof := {
  proof_LRO : list Digest;
  proof_Z : Digest;
  proof_H : list Digest;
  proof_BatchedProof : BatchOpeningProof batch_rest;
  proof_ZShiftedOpening : OpeningProof opening_rest
}.

(** The verifying key.  [vk_Size] is a [uint64]; [Shifter] and [S] are
    arrays of two and three entries. *)
Record VerifyingKey := {
  vk_Size : Z;
  vk_SizeInv : fr.Element;
  vk_Generator : fr.Element;
  vk_Shifter : fr.Element * fr.Element;
  vk_S : Digest * Digest * Digest;
  vk_Ql : Digest;
  vk_Qr : Digest;
  vk_Qm : Digest;
  vk_Qo : Digest;
  vk_Qk : Digest;
  vk_KZGSRS : SRS
}.

(** The values a Go [error] returned by [Verify] can be. *)
Inductive error :=
| errWrongClaimedQuotient
| fiatshamir_error (e : fiatshamir.error)
| kzg_failure (e : kzg_error).

(** A call into package [kzg], with the values of its arguments. *)
Inductive kzg_call :=
| call_BatchVerifySinglePoint (digests : list Digest)
    (p : BatchOpeningProof batch_rest) (srs : SRS)
| call_Verify (commitment : Digest) (p : OpeningProof opening_rest)
    (srs : SRS).

(** *** Memory *)

(** What a pointer to an [fr.Element] can point to. *)
Inductive fr_place :=
| fr_local (x : Var.fr)
| at_vk_SizeInv
| at_vk_Generator
| at_vk_Shifter_0
| at_vk_Shifter_1
| at_proof_ZShiftedOpening_ClaimedValue
| at_proof_BatchedProof_ClaimedValues (i : nat)
| at_publicWitness (i : nat).

(** What a pointer to a [kzg.Digest] can point to. *)
Inductive g1_place :=
| g1_local (x : Var.g1)
| at_proof_LRO (i : nat)
| at_proof_Z
| at_proof_H (i : nat)
| at_vk_S_0
| at_vk_S_1
| at_vk_S_2
| at_vk_Ql
| at_vk_Qr
| at_vk_Qm
| at_vk_Qo
| at_vk_Qk.

Coercion fr_local : Var.fr >-> fr_place.
Coercion g1_local : Var.g1 >-> g1_place.

(** The state of a call: the objects behind the pointers [proof] and [vk],
    the backing array of [publicWitness], the local variables, and the log
    of the calls made into [kzg]. *)
Record state := {
  st_proof : PlonkProof;
  st_vk : VerifyingKey;
  st_publicWitness : list fr.Element;
  st_fs : fiatshamir.Transcript;
  st_fr : Var.fr -> fr.Element;
  st_big : Var.big -> Z;
  st_g1 : Var.g1 -> Digest;
  st_calls : list kzg_call
}.

Definition with_proof (p : PlonkProof) (s : state) : state :=
  let 'Build_state _ k w t f b g c := s in Build_state p k w t f b g c.

Definition with_vk (k : VerifyingKey) (s : state) : state :=
  let 'Build_state p _ w t f b g c := s in Build_state p k w t f b g c.

Definition with_publicWitness (w : list fr.Element) (s : state) : state :=
  let 'Build_state p k _ t f b g c := s in Build_state p k w t f b g c.

Definition with_fs (t : fiatshamir.Transcript) (s : state) : state :=
  let 'Build_state p k w _ f b g c := s in Build_state p k w t f b g c.

Definition with_fr (f : Var.fr -> fr.Element) (s : state) : state :=
  let 'Build_state p k w t _ b g c := s in Build_state p k w t f b g c.

Definition with_big (b : Var.big -> Z) (s : state) : state :=
  let 'Build_state p k w t f _ g c := s in Build_state p k w t f b g c.

Definition with_g1 (g : Var.g1 -> Digest) (s : state) : state :=
  let 'Build_state p k w t f b _ c := s in Build_state p k w t f b g c.

Definition with_calls (c : list kzg_call) (s : state) : state :=
  let 'Build_state p k w t f b g _ := s in Build_state p k w t f b g c.

(** *** The monad of Go statements *)

(** A statement goes on to the next one, returns from [Verify], or panics. *)
Inductive result (A : Type) :=
| Next (a : A) (s : state)
| Return (e : option error) (s : state)
| Panic.

Arguments Next {A} a s.
Arguments Return {A} e s.
Arguments Panic {A}.

Definition M (A : Type) : Type := state -> result A.

Definition ret {A : Type} (a : A) : M A := fun s => Next a s.

Definition bind {A B : Type} (m : M A) (k : A -> M B) : M B :=
  fun s =>
    match m s with
    | Next a s' => k a s'
    | Return e s' => Return e s'
    | Panic => Panic
    end.

Definition return_ {A : Type} (e : option error) : M A :=
  fun s => Return e s.

Definition panic {A : Type} : M A := fun _ => Panic.

Definition get_state : M state := fun s => Next s s.

Definition put_state (s : state) : M unit := fun _ => Next tt s.

End Verifier.

Arguments Next {curve kzg A} a s.
Arguments Return {curve kzg A} e s.
Arguments Panic {curve kzg A}.

Declare Scope go_scope.
Delimit Scope go_scope with go.
Notation "x <- c1 ;; c2" := (bind c1 (fun x => c2))
  (at level 61, c1 at next level, right associativity) : go_scope.
Notation "c1 ;; c2" := (bind c1 (fun _ => c2))
  (at level 61, right associativity) : go_scope.

Local Open Scope go_scope.

Section Statements.

Context {curve : Curve} {kzg : KZG}.

(** *** Loads and stores *)

Definition upd_fr (x : Var.fr) (v : fr.Element) (f : Var.fr -> fr.Element)
    : Var.fr -> fr.Element :=
  fun y => if Var.fr_eqb x y then v else f y.

Definition upd_big (x : Var.big) (v : Z) (f : Var.big -> Z) : Var.big -> Z :=
  fun y => if Var.big_eqb x y then v else f y.

Definition upd_g1 (x : Var.g1) (v : Digest) (f : Var.g1 -> Digest)
    : Var.g1 -> Digest :=
  fun y => if Var.g1_eqb x y then v else f y.

(** Reading through a pointer; indexing a slice out of range panics. *)
Definition load_fr (p : fr_place) : M fr.Element :=
  fun s =>
    match p with
    | fr_local x => Next (st_fr s x) s
    | at_vk_SizeInv => Next (vk_SizeInv (st_vk s)) s
    | at_vk_Generator => Next (vk_Generator (st_vk s)) s
    | at_vk_Shifter_0 => Next (fst (vk_Shifter (st_vk s))) s
    | at_vk_Shifter_1 => Next (snd (vk_Shifter (st_vk s))) s
    | at_proof_ZShiftedOpening_ClaimedValue =>
        Next (ClaimedValue (proof_ZShiftedOpening (st_proof s))) s
    | at_proof_BatchedProof_ClaimedValues i =>
        match nth_error (ClaimedValues (proof_BatchedProof (st_proof s))) i with
        | Some v => Next v s
        | None => Panic
        end
    | at_publicWitness i =>
        match nth_error (st_publicWitness s) i with
        | Some v => Next v s
        | None => Panic
        end
    end.

Definition set_vk_SizeInv (v : fr.Element) (k : VerifyingKey) :=
  let 'Build_VerifyingKey n _ g sh s ql qr qm qo qk srs := k in
  Build_VerifyingKey n v g sh s ql qr qm qo qk srs.

Definition set_vk_Generator (v : fr.Element) (k : VerifyingKey) :=
  let 'Build_VerifyingKey n ni _ sh s ql qr qm qo qk srs := k in
  Build_VerifyingKey n ni v sh s ql qr qm qo qk srs.

Definition set_vk_Shifter_0 (v : fr.Element) (k : VerifyingKey) :=
  let 'Build_VerifyingKey n ni g (_, sh1) s ql qr qm qo qk srs := k in
  Build_VerifyingKey n ni g (v, sh1) s ql qr qm qo qk srs.

Definition set_vk_Shifter_1 (v : fr.Element) (k : VerifyingKey) :=
  let 'Build_VerifyingKey n ni g (sh0, _) s ql qr qm qo qk srs := k in
  Build_VerifyingKey n ni g (sh0, v) s ql qr qm qo qk srs.

Definition set_vk_S_0 (v : Digest) (k : VerifyingKey) :=
  let 'Build_VerifyingKey n ni g sh (_, s1, s2) ql qr qm qo qk srs := k in
  Build_VerifyingKey n ni g sh (v, s1, s2) ql qr qm qo qk srs.

Definition set_vk_S_1 (v : Digest) (k : VerifyingKey) :=
  let 'Build_VerifyingKey n ni g sh (s0, _, s2) ql qr qm qo qk srs := k in
  Build_VerifyingKey n ni g sh (s0, v, s2) ql qr qm qo qk srs.

Definition set_vk_S_2 (v : Digest) (k : VerifyingKey) :=
  let 'Build_VerifyingKey n ni g sh (s0, s1, _) ql qr qm qo qk srs := k in
  Build_VerifyingKey n ni g sh (s0, s1, v) ql qr qm qo qk srs.

Definition set_vk_Ql (v : Digest) (k : VerifyingKey) :=
  let 'Build_VerifyingKey n ni g sh s _ qr qm qo qk srs := k in
  Build_VerifyingKey n ni g sh s v qr qm qo qk srs.

Definition set_vk_Qr (v : Digest) (k : VerifyingKey) :=
  let 'Build_VerifyingKey n ni g sh s ql _ qm qo qk srs := k in
  Build_VerifyingKey n ni g sh s ql v qm qo qk srs.

Definition set_vk_Qm (v : Digest) (k : VerifyingKey) :=
  let 'Build_VerifyingKey n ni g sh s ql qr _ qo qk srs := k in
  Build_VerifyingKey n ni g sh s ql qr v qo qk srs.

Definition set_vk_Qo (v : Digest) (k : VerifyingKey) :=
  let 'Build_VerifyingKey n ni g sh s ql qr qm _ qk srs := k in
  Build_VerifyingKey n ni g sh s ql qr qm v qk srs.

Definition set_vk_Qk (v : Digest) (k : VerifyingKey) :=
  let 'Build_VerifyingKey n ni g sh s ql qr qm qo _ srs := k in
  Build_VerifyingKey n ni g sh s ql qr qm qo v srs.

Definition set_proof_ClaimedValue (v : fr.Element) (p : PlonkProof) :=
  let 'Build_PlonkProof lro z hs bp (Build_OpeningProof _ _ rest) := p in
  Build_PlonkProof lro z hs bp
    {| ClaimedValue := v; OpeningProof_rest := rest |}.

Definition set_proof_ClaimedValues (vs : list fr.Element) (p : PlonkProof) :=
  let 'Build_PlonkProof lro z hs (Build_BatchOpeningProof _ _ rest) zs := p in
  Build_PlonkProof lro z hs
    {| ClaimedValues := vs; BatchOpeningProof_rest := rest |} zs.

Definition set_proof_LRO (ds : list Digest) (p : PlonkProof) :=
  let 'Build_PlonkProof _ z hs bp zs := p in Build_PlonkProof ds z hs bp zs.

Definition set_proof_Z (d : Digest) (p : PlonkProof) :=
  let 'Build_PlonkProof lro _ hs bp zs := p in
  Build_PlonkProof lro d hs bp zs.

Definition set_proof_H (ds : list Digest) (p : PlonkProof) :=
  let 'Build_PlonkProof lro z _ bp zs := p in Build_PlonkProof lro z ds bp zs.

(** Writing through a pointer.  A write to a field of [proof] or [vk]
    changes the caller's object. *)
Definition store_fr (p : fr_place) (v : fr.Element) : M unit :=
  fun s =>
    match p with
    | fr_local x => Next tt (with_fr (upd_fr x v (st_fr s)) s)
    | at_vk_SizeInv => Next tt (with_vk (set_vk_SizeInv v (st_vk s)) s)
    | at_vk_Generator => Next tt (with_vk (set_vk_Generator v (st_vk s)) s)
    | at_vk_Shifter_0 => Next tt (with_vk (set_vk_Shifter_0 v (st_vk s)) s)
    | at_vk_Shifter_1 => Next tt (with_vk (set_vk_Shifter_1 v (st_vk s)) s)
    | at_proof_ZShiftedOpening_ClaimedValue =>
        Next tt (with_proof (set_proof_ClaimedValue v (st_proof s)) s)
    | at_proof_BatchedProof_ClaimedValues i =>
        match list_set (ClaimedValues (proof_BatchedProof (st_proof s))) i v
        with
        | Some vs =>
            Next tt (with_proof (set_proof_ClaimedValues vs (st_proof s)) s)
        | None => Panic
        end
    | at_publicWitness i =>
        match list_set (st_publicWitness s) i v with
        | Some w => Next tt (with_publicWitness w s)
        | None => Panic
        end
    end.

Definition load_g1 (p : g1_place) : M Digest :=
  fun s =>
    match p with
    | g1_local x => Next (st_g1 s x) s
    | at_proof_LRO i =>
        match nth_error (proof_LRO (st_proof s)) i with
        | Some d => Next d s
        | None => Panic
        end
    | at_proof_Z => Next (proof_Z (st_proof s)) s
    | at_proof_H i =>
        match nth_error (proof_H (st_proof s)) i with
        | Some d => Next d s
        | None => Panic
        end
    | at_vk_S_0 => Next (fst (fst (vk_S (st_vk s)))) s
    | at_vk_S_1 => Next (snd (fst (vk_S (st_vk s)))) s
    | at_vk_S_2 => Next (snd (vk_S (st_vk s))) s
    | at_vk_Ql => Next (vk_Ql (st_vk s)) s
    | at_vk_Qr => Next (vk_Qr (st_vk s)) s
    | at_vk_Qm => Next (vk_Qm (st_vk s)) s
    | at_vk_Qo => Next (vk_Qo (st_vk s)) s
    | at_vk_Qk => Next (vk_Qk (st_vk s)) s
    end.

Definition store_g1 (p : g1_place) (v : Digest) : M unit :=
  fun s =>
    match p with
    | g1_local x => Next tt (with_g1 (upd_g1 x v (st_g1 s)) s)
    | at_proof_LRO i =>
        match list_set (proof_LRO (st_proof s)) i v with
        | Some ds => Next tt (with_proof (set_proof_LRO ds (st_proof s)) s)
        | None => Panic
        end
    | at_proof_Z => Next tt (with_proof (set_proof_Z v (st_proof s)) s)
    | at_proof_H i =>
        match list_set (proof_H (st_proof s)) i v with
        | Some ds => Next tt (with_proof (set_proof_H ds (st_proof s)) s)
        | None => Panic
        end
    | at_vk_S_0 => Next tt (with_vk (set_vk_S_0 v (st_vk s)) s)
    | at_vk_S_1 => Next tt (with_vk (set_vk_S_1 v (st_vk s)) s)
    | at_vk_S_2 => Next tt (with_vk (set_vk_S_2 v (st_vk s)) s)
    | at_vk_Ql => Next tt (with_vk (set_vk_Ql v (st_vk s)) s)
    | at_vk_Qr => Next tt (with_vk (set_vk_Qr v (st_vk s)) s)
    | at_vk_Qm => Next tt (with_vk (set_vk_Qm v (st_vk s)) s)
    | at_vk_Qo => Next tt (with_vk (set_vk_Qo v (st_vk s)) s)
    | at_vk_Qk => Next tt (with_vk (set_vk_Qk v (st_vk s)) s)
    end.

Definition load_big (x : Var.big) : M Z := fun s => Next (st_big s x) s.

Definition store_big (x : Var.big) (v : Z) : M unit :=
  fun s => Next tt (with_big (upd_big x v (st_big s)) s).

(** *** The methods of [fr.Element], receiver first *)

Definition fr_Set (z x : fr_place) : M unit :=
  a <- load_fr x ;; store_fr z a.

Definition fr_SetOne (z : fr_place) : M unit := store_fr z fr.One.

Definition fr_Add (z x y : fr_place) : M unit :=
  a <- load_fr x ;; b <- load_fr y ;; store_fr z (fr.Add a b).

Definition fr_Sub (z x y : fr_place) : M unit :=
  a <- load_fr x ;; b <- load_fr y ;; store_fr z (fr.Sub a b).

Definition fr_Mul (z x y : fr_place) : M unit :=
  a <- load_fr x ;; b <- load_fr y ;; store_fr z (fr.Mul a b).

Definition fr_Div (z x y : fr_place) : M unit :=
  a <- load_fr x ;; b <- load_fr y ;; store_fr z (fr.Div a b).

(** [z.Exp(x, e)]: [x] is passed by value, [e] by pointer. *)
Definition fr_Exp (z x : fr_place) (e : Var.big) : M unit :=
  a <- load_fr x ;; n <- load_big e ;; store_fr z (fr.Exp a n).

Definition fr_SetBytes (z : fr_place) (bs : list Byte.byte) : M unit :=
  store_fr z (fr.SetBytes bs).

Definition fr_ToBigIntRegular (x : fr_place) (res : Var.big) : M unit :=
  a <- load_fr x ;; store_big res (fr.ToBigIntRegular a).

Definition fr_Equal (x y : fr_place) : M bool :=
  a <- load_fr x ;; b <- load_fr y ;; ret (fr.Equal a b).

(** *** The methods of [kzg.Digest] *)

(** [z := x] and [z = x] copy the struct. *)
Definition g1_Set (z x : g1_place) : M unit :=
  a <- load_g1 x ;; store_g1 z a.

Definition g1_ScalarMultiplication (z x : g1_place) (k : Var.big) : M unit :=
  a <- load_g1 x ;; n <- load_big k ;;
  store_g1 z (Digest_ScalarMultiplication a n).

Definition g1_Add (z x y : g1_place) : M unit :=
  a <- load_g1 x ;; b <- load_g1 y ;; store_g1 z (Digest_Add a b).

Definition g1_Sub (z x y : g1_place) : M unit :=
  a <- load_g1 x ;; b <- load_g1 y ;; store_g1 z (Digest_Sub a b).

Definition g1_Marshal (x : g1_place) : M (list Byte.byte) :=
  a <- load_g1 x ;; ret (Digest_Marshal a).

(** *** The transcript [fs] *)

Definition fs_NewTranscript (ids : list string) : M unit :=
  fun s => Next tt (with_fs (fiatshamir.NewTranscript SHA256 ids) s).

Definition fs_Bind (id : string) (bValue : list Byte.byte)
    : M (option fiatshamir.error) :=
  fun s =>
    let (t, err) := fiatshamir.Bind (st_fs s) id bValue in
    Next err (with_fs t s).

Definition fs_ComputeChallenge (id : string)
    : M (list Byte.byte * option fiatshamir.error) :=
  fun s =>
    let (t, res) := fiatshamir.ComputeChallenge (st_fs s) id in
    Next res (with_fs t s).

(** [if err != nil { return err }] *)
Definition return_if_err (err : option fiatshamir.error) : M unit :=
  match err with
  | Some e => return_ (Some (fiatshamir_error e))
  | None => ret tt
  end.

(** *** The calls into [kzg] *)

Fixpoint load_digests (ps : list g1_place) : M (list Digest) :=
  match ps with
  | [] => ret []
  | p :: rest => d <- load_g1 p ;; ds <- load_digests rest ;; ret (d :: ds)
  end.

Definition log_call (c : kzg_call) : M unit :=
  fun s => Next tt (with_calls (st_calls s ++ [c]) s).

(** [kzg.BatchVerifySinglePoint([]kzg.Digest{...}, &proof.BatchedProof,
    vk.KZGSRS)]: the slice literal copies the digests. *)
Definition call_kzg_BatchVerifySinglePoint (digests : list g1_place)
    : M (option kzg_error) :=
  ds <- load_digests digests ;;
  s <- get_state ;;
  let p := proof_BatchedProof (st_proof s) in
  let srs := vk_KZGSRS (st_vk s) in
  log_call (call_BatchVerifySinglePoint ds p srs) ;;
  ret (kzg_BatchVerifySinglePoint ds p srs).

(** [kzg.Verify(&proof.Z, &proof.ZShiftedOpening, vk.KZGSRS)] *)
Definition call_kzg_Verify (commitment : g1_place) : M (option kzg_error) :=
  c <- load_g1 commitment ;;
  s <- get_state ;;
  let p := proof_ZShiftedOpening (st_proof s) in
  let srs := vk_KZGSRS (st_vk s) in
  log_call (call_Verify c p srs) ;;
  ret (kzg_Verify c p srs).

Definition kzg_result (r : option kzg_error) : option error :=
  match r with
  | Some e => Some (kzg_failure e)
  | None => None
  end.

(** *** Loops *)

(** [for i := from; i < from + n; i++ { body }] *)
Fixpoint for_loop (n : nat) (from : nat) (body : nat -> M unit) : M unit :=
  match n with
  | O => ret tt
  | S k => body from ;; for_loop k (S from) body
  end.

End Statements.

(* ================================================================= *)
(** ** [Verify] *)

Section Verify.

Context {curve : Curve} {kzg : KZG}.

Local Open Scope string_scope.

Definition load_vk_Size : M Z := fun s => Next (vk_Size (st_vk s)) s.

Definition len_publicWitness : M nat :=
  fun s => Next (List.length (st_publicWitness s)) s.

(** Lines 35-86: derive gamma, alpha and zeta from the transcript. *)
Definition derive_challenges : M unit :=
  fs_NewTranscript ["gamma"; "alpha"; "zeta"] ;;
  b <- g1_Marshal (at_proof_LRO 0) ;;
  err <- fs_Bind "gamma" b ;;
  return_if_err err ;;
  b <- g1_Marshal (at_proof_LRO 1) ;;
  err <- fs_Bind "gamma" b ;;
  return_if_err err ;;
  b <- g1_Marshal (at_proof_LRO 2) ;;
  err <- fs_Bind "gamma" b ;;
  return_if_err err ;;
  bgamma <- fs_ComputeChallenge "gamma" ;;
  return_if_err (snd bgamma) ;;
  fr_SetBytes Var.gamma (fst bgamma) ;;
  b <- g1_Marshal at_proof_Z ;;
  err <- fs_Bind "alpha" b ;;
  return_if_err err ;;
  balpha <- fs_ComputeChallenge "alpha" ;;
  return_if_err (snd balpha) ;;
  fr_SetBytes Var.alpha (fst balpha) ;;
  b <- g1_Marshal (at_proof_H 0) ;;
  err <- fs_Bind "zeta" b ;;
  return_if_err err ;;
  b <- g1_Marshal (at_proof_H 1) ;;
  err <- fs_Bind "zeta" b ;;
  return_if_err err ;;
  b <- g1_Marshal (at_proof_H 2) ;;
  err <- fs_Bind "zeta" b ;;
  return_if_err err ;;
  bzeta <- fs_ComputeChallenge "zeta" ;;
  return_if_err (snd bzeta) ;;
  fr_SetBytes Var.zeta (fst bzeta).

(** Lines 88-94: the vanishing polynomial [X^m - 1] at zeta. *)
Definition eval_vanishing : M unit :=
  fr_SetOne Var.one ;;
  m <- load_vk_Size ;;
  store_big Var.bExpo m ;;
  fr_Exp Var.zetaPowerM Var.zeta Var.bExpo ;;
  fr_Sub Var.zzeta Var.zetaPowerM Var.one.

(** Lines 106-114: one turn of the loop over the public witness. *)
Definition public_input_step (i : nat) : M unit :=
  fr_Mul Var.xiLi Var.lagrange (at_publicWitness i) ;;
  fr_Add Var.pi Var.pi Var.xiLi ;;
  fr_Mul Var.lagrange Var.lagrange at_vk_Generator ;;
  fr_Mul Var.lagrange Var.lagrange Var.den ;;
  fr_Mul Var.acc Var.acc at_vk_Generator ;;
  fr_Sub Var.den Var.zeta Var.acc ;;
  fr_Div Var.lagrange Var.lagrange Var.den.

(** Lines 96-115: [PI = Sum_i L_i * w_i]. *)
Definition public_inputs : M unit :=
  fr_Set Var.lagrange Var.zzeta ;;
  fr_SetOne Var.acc ;;
  fr_Sub Var.den Var.zeta Var.acc ;;
  fr_Div Var.lagrange Var.lagrange Var.den ;;
  fr_Mul Var.lagrange Var.lagrange at_vk_SizeInv ;;
  fr_Set Var.lagrangeOne Var.lagrange ;;
  n <- len_publicWitness ;;
  for_loop n 0 public_input_step.

(** Lines 117-153: the quotient at zeta, checked against the claim. *)
Definition quotient_check : M unit :=
  fr_Set Var.zu at_proof_ZShiftedOpening_ClaimedValue ;;
  fr_Set Var.claimedQuotient (at_proof_BatchedProof_ClaimedValues 0) ;;
  fr_Set Var.linearizedPolynomialZeta
    (at_proof_BatchedProof_ClaimedValues 1) ;;
  fr_Set Var.l (at_proof_BatchedProof_ClaimedValues 2) ;;
  fr_Set Var.r (at_proof_BatchedProof_ClaimedValues 3) ;;
  fr_Set Var.o (at_proof_BatchedProof_ClaimedValues 4) ;;
  fr_Set Var.s1 (at_proof_BatchedProof_ClaimedValues 5) ;;
  fr_Set Var.s2 (at_proof_BatchedProof_ClaimedValues 6) ;;
  fr_Add Var._s1 Var.l Var.s1 ;;
  fr_Add Var._s1 Var._s1 Var.gamma ;;
  fr_Add Var._s2 Var.r Var.s2 ;;
  fr_Add Var._s2 Var._s2 Var.gamma ;;
  fr_Add Var._o Var.o Var.gamma ;;
  fr_Mul Var._s1 Var._s1 Var._s2 ;;
  fr_Mul Var._s1 Var._s1 Var._o ;;
  fr_Mul Var._s1 Var._s1 Var.alpha ;;
  fr_Mul Var._s1 Var._s1 Var.zu ;;
  fr_Mul Var.alphaSquareLagrange Var.lagrangeOne Var.alpha ;;
  fr_Mul Var.alphaSquareLagrange Var.alphaSquareLagrange Var.alpha ;;
  fr_Add Var.linearizedPolynomialZeta Var.linearizedPolynomialZeta Var.pi ;;
  fr_Add Var.linearizedPolynomialZeta Var.linearizedPolynomialZeta Var._s1 ;;
  fr_Sub Var.linearizedPolynomialZeta Var.linearizedPolynomialZeta
    Var.alphaSquareLagrange ;;
  fr_Sub Var.zetaPowerMMinusOne Var.zetaPowerM Var.one ;;
  fr_Div Var.linearizedPolynomialZeta Var.linearizedPolynomialZeta
    Var.zetaPowerMMinusOne ;;
  same <- fr_Equal Var.claimedQuotient Var.linearizedPolynomialZeta ;;
  if negb same then return_ (Some errWrongClaimedQuotient) else ret tt.

(** Lines 155-165: the folded commitment to H. *)
Definition fold_H : M unit :=
  m <- load_vk_Size ;;
  store_big Var.mPlusTwo (wrap_int64 (wrap_int64 m + 2)) ;;
  fr_Exp Var.zetaMPlusTwo Var.zeta Var.mPlusTwo ;;
  fr_ToBigIntRegular Var.zetaMPlusTwo Var.zetaMPlusTwoBigInt ;;
  g1_Set Var.foldedH (at_proof_H 2) ;;
  g1_ScalarMultiplication Var.foldedH Var.foldedH Var.zetaMPlusTwoBigInt ;;
  g1_Add Var.foldedH Var.foldedH (at_proof_H 1) ;;
  g1_ScalarMultiplication Var.foldedH Var.foldedH Var.zetaMPlusTwoBigInt ;;
  g1_Add Var.foldedH Var.foldedH (at_proof_H 0).

(** Lines 167-220: the commitment to the linearized polynomial. *)
Definition linearized_digest : M unit :=
  fr_ToBigIntRegular Var.l Var.lb ;;
  fr_ToBigIntRegular Var.r Var.rb ;;
  fr_ToBigIntRegular Var.o Var.ob ;;
  fr_Mul Var.rl Var.l Var.r ;;
  fr_ToBigIntRegular Var.rl Var.rlb ;;
  g1_Set Var.linearizedPolynomialDigest at_vk_Ql ;;
  g1_ScalarMultiplication Var.linearizedPolynomialDigest
    Var.linearizedPolynomialDigest Var.lb ;;
  g1_Set Var.tmp at_vk_Qr ;;
  g1_ScalarMultiplication Var.tmp Var.tmp Var.rb ;;
  g1_Add Var.linearizedPolynomialDigest Var.linearizedPolynomialDigest
    Var.tmp ;;
  g1_Set Var.tmp at_vk_Qm ;;
  g1_ScalarMultiplication Var.tmp Var.tmp Var.rlb ;;
  g1_Add Var.linearizedPolynomialDigest Var.linearizedPolynomialDigest
    Var.tmp ;;
  g1_Set Var.tmp at_vk_Qo ;;
  g1_ScalarMultiplication Var.tmp Var.tmp Var.ob ;;
  g1_Add Var.linearizedPolynomialDigest Var.linearizedPolynomialDigest
    Var.tmp ;;
  g1_Set Var.tmp at_vk_Qk ;;
  g1_Add Var.linearizedPolynomialDigest Var.linearizedPolynomialDigest
    Var.tmp ;;
  fr_Add Var._s1 Var.l Var.s1 ;;
  fr_Add Var._s1 Var._s1 Var.gamma ;;
  fr_Add Var.t Var.r Var.s2 ;;
  fr_Add Var.t Var.t Var.gamma ;;
  fr_Mul Var._s1 Var._s1 Var.t ;;
  fr_Mul Var._s1 Var._s1 Var.zu ;;
  fr_Mul Var._s1 Var._s1 Var.alpha ;;
  fr_Add Var._s2 Var.l Var.zeta ;;
  fr_Add Var._s2 Var._s2 Var.gamma ;;
  fr_Mul Var.t Var.zeta at_vk_Shifter_0 ;;
  fr_Add Var.t Var.t Var.r ;;
  fr_Add Var.t Var.t Var.gamma ;;
  fr_Mul Var._s2 Var.t Var._s2 ;;
  fr_Mul Var.t Var.zeta at_vk_Shifter_1 ;;
  fr_Add Var.t Var.t Var.o ;;
  fr_Add Var.t Var.t Var.gamma ;;
  fr_Mul Var._s2 Var.t Var._s2 ;;
  fr_Mul Var._s2 Var._s2 Var.alpha ;;
  fr_ToBigIntRegular Var._s1 Var._s1b ;;
  fr_ToBigIntRegular Var._s2 Var._s2b ;;
  g1_Set Var.s3Commit at_vk_S_2 ;;
  g1_ScalarMultiplication Var.s3Commit Var.s3Commit Var._s1b ;;
  g1_Set Var.secondPart at_proof_Z ;;
  g1_ScalarMultiplication Var.secondPart Var.secondPart Var._s2b ;;
  g1_Sub Var.secondPart Var.s3Commit Var.secondPart ;;
  fr_ToBigIntRegular Var.alphaSquareLagrange Var.alphaSquareLagrangeB ;;
  g1_Set Var.thirdPart at_proof_Z ;;
  g1_ScalarMultiplication Var.thirdPart Var.thirdPart
    Var.alphaSquareLagrangeB ;;
  g1_Add Var.linearizedPolynomialDigest Var.linearizedPolynomialDigest
    Var.secondPart ;;
  g1_Add Var.linearizedPolynomialDigest Var.linearizedPolynomialDigest
    Var.thirdPart.

(** Lines 222-240: the two opening proofs. *)
Definition verify_openings : M unit :=
  err <- call_kzg_BatchVerifySinglePoint
           [g1_local Var.foldedH;
            g1_local Var.linearizedPolynomialDigest;
            at_proof_LRO 0;
            at_proof_LRO 1;
            at_proof_LRO 2;
            at_vk_S_0;
            at_vk_S_1] ;;
  match err with
  | Some e => return_ (Some (kzg_failure e))
  | None =>
      res <- call_kzg_Verify at_proof_Z ;;
      return_ (kzg_result res)
  end.

Definition Verify_body : M unit :=
  derive_challenges ;;
  eval_vanishing ;;
  public_inputs ;;
  quotient_check ;;
  fold_H ;;
  linearized_digest ;;
  verify_openings.

(** On entry every local variable holds the zero value of its type. *)
Definition init_state (proof : PlonkProof) (vk : VerifyingKey)
    (publicWitness : list fr.Element) : state :=
  {| st_proof := proof;
     st_vk := vk;
     st_publicWitness := publicWitness;
     st_fs := fiatshamir.NewTranscript SHA256 [];
     st_fr := fun _ => fr.Zero;
     st_big := fun _ => 0%Z;
     st_g1 := fun _ => Digest_zero;
     st_calls := [] |}.

(** [func Verify(proof *Proof, vk *VerifyingKey, publicWitness
    bn254witness.Witness) error] *)
Definition Verify (proof : PlonkProof) (vk : VerifyingKey)
    (publicWitness : list fr.Element) : result unit :=
  Verify_body (init_state proof vk publicWitness).

End Verify.

(* ================================================================= *)
(** ** What a caller observes *)

Section Observations.

Context {curve : Curve} {kzg : KZG}.

(** The error returned, when [Verify] returns. *)
Definition returned (r : result unit) : option (option error) :=
  match r with
  | Return e _ => Some e
  | _ => None
  end.

Definition panicked (r : result unit) : bool :=
  match r with
  | Panic => true
  | _ => false
  end.

(** The memory at the end of the call. *)
Definition final_state (r : result unit) : option state :=
  match r with
  | Next _ s | Return _ s => Some s
  | Panic => None
  end.

(** The calls made into [kzg], in order. *)
Definition calls_of (r : result unit) : list kzg_call :=
  match r with
  | Next _ s | Return _ s => st_calls s
  | Panic => []
  end.

(** Everything the caller can see of a call: the error returned, the
    objects behind [proof] and [vk], the witness and the calls made; or a
    panic.  [Unfinished] is a body that ends without a [return]. *)
Inductive observation :=
| Returned (e : option error) (proof : PlonkProof) (vk : VerifyingKey)
    (publicWitness : list fr.Element) (calls : list kzg_call)
| Unfinished
| Panicked.

Definition observe (r : result unit) : observation :=
  match r with
  | Return e s =>
      Returned e (st_proof s) (st_vk s) (st_publicWitness s) (st_calls s)
  | Next _ _ => Unfinished
  | Panic => Panicked
  end.

(** The variables gamma, alpha, zeta, pi and lagrangeOne at the end of the
    call. *)
Definition locals_of (r : result unit)
    : option (fr.Element * fr.Element * fr.Element * fr.Element
              * fr.Element) :=
  match final_state r with
  | Some s =>
      Some (st_fr s Var.gamma, st_fr s Var.alpha, st_fr s Var.zeta,
            st_fr s Var.pi, st_fr s Var.lagrangeOne)
  | None => None
  end.

(** The proof objects [Verify] is meant for: every index it uses is in
    range.  For the arrays [LRO] and [H] of the Go type that is three
    entries each; [ClaimedValues] is a slice and needs its seven values. *)
Definition well_formed (proof : PlonkProof) : Prop :=
  (3 <= List.length (proof_LRO proof))%nat
  /\ (3 <= List.length (proof_H proof))%nat
  /\ (7 <= List.length (ClaimedValues (proof_BatchedProof proof)))%nat.

Definition well_formedb (proof : PlonkProof) : bool :=
  (3 <=? List.length (proof_LRO proof))%nat
  && (3 <=? List.length (proof_H proof))%nat
  && (7 <=? List.length (ClaimedValues (proof_BatchedProof proof)))%nat.

(** The two verdicts as tests, for computing at concrete inputs. *)
Definition returns_quotient_mismatch (r : result unit) : bool :=
  match returned r with
  | Some (Some errWrongClaimedQuotient) => true
  | _ => false
  end.

Definition returns_success (r : result unit) : bool :=
  match returned r with
  | Some None => true
  | _ => false
  end.

End Observations.

(* ================================================================= *)
(** ** An instance to compute with *)

(** The group G1 of bn254 has prime order [fr.Modulus], so [k |-> k.G]
    identifies it with the additive group of [fr.Element].  This instance
    is G1 in that representation; the hash is left open. *)
Definition Z_to_be (len : nat) (z : Z) : list Byte.byte :=
  map (fun i => match Byte.of_N (Z.to_N ((z / 256 ^ Z.of_nat i) mod 256)) with
                | Some b => b
                | None => Byte.x00
                end)
      (rev (seq 0 len)).

Definition scalar_curve (hash : list Byte.byte -> list Byte.byte) : Curve :=
  {| Digest := fr.Element;
     Digest_zero := fr.Zero;
     Digest_Add := fr.Add;
     Digest_Sub := fr.Sub;
     Digest_ScalarMultiplication := fun d k => fr.Mul (fr.of_Z k) d;
     Digest_Marshal := fun d => Z_to_be 32 (fr.ToBigIntRegular d);
     SHA256 := hash |}.

(** Opening checks with a fixed verdict each. *)
Definition fixed_kzg (curve : Curve) (batch single : bool) : KZG :=
  {| SRS := unit;
     batch_rest := unit;
     opening_rest := unit;
     kzg_error := unit;
     kzg_BatchVerifySinglePoint := fun _ _ _ =>
       if batch then None else Some tt;
     kzg_Verify := fun _ _ _ => if single then None else Some tt |}.

(* ================================================================= *)
(** ** [Verify] as a function of its inputs *)

(** The values [Verify] computes on the way, written as expressions in
    [proof], [vk] and [publicWitness].  The proofs below show that the
    statements of [Verify] compute exactly these. *)

Section Summary.

Context {curve : Curve} {kzg : KZG}.

Local Open Scope string_scope.

Definition commitment (ds : list Digest) (i : nat) : Digest :=
  nth i ds Digest_zero.

Definition claimed (proof : PlonkProof) (i : nat) : fr.Element :=
  nth i (ClaimedValues (proof_BatchedProof proof)) fr.Zero.

(** The digest behind gamma: the label, then Comm(L), Comm(R), Comm(O). *)
Definition gamma_bytes (proof : PlonkProof) : list Byte.byte :=
  SHA256 (list_byte_of_string "gamma"
          ++ Digest_Marshal (commitment (proof_LRO proof) 0)
          ++ Digest_Marshal (commitment (proof_LRO proof) 1)
          ++ Digest_Marshal (commitment (proof_LRO proof) 2)).

(** The digest behind alpha: the label, the value of gamma's slot,
    Comm(Z). *)
Definition alpha_bytes (proof : PlonkProof) : list Byte.byte :=
  SHA256 (list_byte_of_string "alpha"
          ++ gamma_bytes proof
          ++ Digest_Marshal (proof_Z proof)).

(** The digest behind zeta: the label, the value of alpha's slot,
    Comm(H0), Comm(H1), Comm(H2). *)
Definition zeta_bytes (proof : PlonkProof) : list Byte.byte :=
  SHA256 (list_byte_of_string "zeta"
          ++ alpha_bytes proof
          ++ Digest_Marshal (commitment (proof_H proof) 0)
          ++ Digest_Marshal (commitment (proof_H proof) 1)
          ++ Digest_Marshal (commitment (proof_H proof) 2)).

Definition challenge_gamma (proof : PlonkProof) : fr.Element :=
  fr.SetBytes (gamma_bytes proof).

Definition challenge_alpha (proof : PlonkProof) : fr.Element :=
  fr.SetBytes (alpha_bytes proof).

Definition challenge_zeta (proof : PlonkProof) : fr.Element :=
  fr.SetBytes (zeta_bytes proof).

(** The five variables the loop over the public witness works on. *)
Record aggregator := {
  agg_pi : fr.Element;
  agg_lagrange : fr.Element;
  agg_acc : fr.Element;
  agg_den : fr.Element;
  agg_xiLi : fr.Element
}.

(** Lines 106-114 on these variables, for the witness entry [wi]. *)
Definition aggregator_step (zeta g : fr.Element) (a : aggregator)
    (wi : fr.Element) : aggregator :=
  let xiLi := fr.Mul (agg_lagrange a) wi in
  let pi := fr.Add (agg_pi a) xiLi in
  let lagrange := fr.Mul (fr.Mul (agg_lagrange a) g) (agg_den a) in
  let acc := fr.Mul (agg_acc a) g in
  let den := fr.Sub zeta acc in
  {| agg_pi := pi;
     agg_lagrange := fr.Div lagrange den;
     agg_acc := acc;
     agg_den := den;
     agg_xiLi := xiLi |}.

(** [lagrangeOne]: 1/n * (zeta^n - 1) / (zeta - 1), lines 99-103. *)
Definition lagrange_one (vk : VerifyingKey) (zeta : fr.Element)
    : fr.Element :=
  fr.Mul (fr.Div (fr.Sub (fr.Exp zeta (vk_Size vk)) fr.One)
                 (fr.Sub zeta fr.One))
         (vk_SizeInv vk).

Definition aggregator_init (vk : VerifyingKey) (zeta : fr.Element)
    : aggregator :=
  {| agg_pi := fr.Zero;
     agg_lagrange := lagrange_one vk zeta;
     agg_acc := fr.One;
     agg_den := fr.Sub zeta fr.One;
     agg_xiLi := fr.Zero |}.

(** [pi] after the loop: PI(zeta) by the recurrence. *)
Definition public_input_at (vk : VerifyingKey) (zeta : fr.Element)
    (publicWitness : list fr.Element) : fr.Element :=
  agg_pi (fold_left (aggregator_step zeta (vk_Generator vk)) publicWitness
            (aggregator_init vk zeta)).

(** [linearizedPolynomialZeta] at line 151: the quotient at zeta as
    [Verify] computes it. *)
Definition quotient_at_zeta (proof : PlonkProof) (vk : VerifyingKey)
    (publicWitness : list fr.Element) : fr.Element :=
  let gamma := challenge_gamma proof in
  let alpha := challenge_alpha proof in
  let zeta := challenge_zeta proof in
  let zu := ClaimedValue (proof_ZShiftedOpening proof) in
  let _s1 := fr.Add (fr.Add (claimed proof 2) (claimed proof 5)) gamma in
  let _s2 := fr.Add (fr.Add (claimed proof 3) (claimed proof 6)) gamma in
  let _o := fr.Add (claimed proof 4) gamma in
  let _s1 := fr.Mul (fr.Mul (fr.Mul (fr.Mul _s1 _s2) _o) alpha) zu in
  let alphaSquareLagrange :=
    fr.Mul (fr.Mul (lagrange_one vk zeta) alpha) alpha in
  fr.Div
    (fr.Sub (fr.Add (fr.Add (claimed proof 1)
                            (public_input_at vk zeta publicWitness))
                    _s1)
            alphaSquareLagrange)
    (fr.Sub (fr.Exp zeta (vk_Size vk)) fr.One).

(** [foldedH] at line 165. *)
Definition folded_H (proof : PlonkProof) (vk : VerifyingKey) : Digest :=
  let zetaMPlusTwoBigInt :=
    fr.ToBigIntRegular
      (fr.Exp (challenge_zeta proof)
              (wrap_int64 (wrap_int64 (vk_Size vk) + 2))) in
  Digest_Add
    (Digest_ScalarMultiplication
       (Digest_Add
          (Digest_ScalarMultiplication (commitment (proof_H proof) 2)
             zetaMPlusTwoBigInt)
          (commitment (proof_H proof) 1))
       zetaMPlusTwoBigInt)
    (commitment (proof_H proof) 0).

(** [linearizedPolynomialDigest] at line 220. *)
Definition linearized_polynomial_digest (proof : PlonkProof)
    (vk : VerifyingKey) : Digest :=
  let gamma := challenge_gamma proof in
  let alpha := challenge_alpha proof in
  let zeta := challenge_zeta proof in
  let zu := ClaimedValue (proof_ZShiftedOpening proof) in
  let l := claimed proof 2 in
  let r := claimed proof 3 in
  let o := claimed proof 4 in
  let s1 := claimed proof 5 in
  let s2 := claimed proof 6 in
  let first :=
    Digest_Add
      (Digest_Add
         (Digest_Add
            (Digest_Add
               (Digest_ScalarMultiplication (vk_Ql vk)
                  (fr.ToBigIntRegular l))
               (Digest_ScalarMultiplication (vk_Qr vk)
                  (fr.ToBigIntRegular r)))
            (Digest_ScalarMultiplication (vk_Qm vk)
               (fr.ToBigIntRegular (fr.Mul l r))))
         (Digest_ScalarMultiplication (vk_Qo vk) (fr.ToBigIntRegular o)))
      (vk_Qk vk) in
  let _s1 :=
    fr.Mul (fr.Mul (fr.Mul (fr.Add (fr.Add l s1) gamma)
                           (fr.Add (fr.Add r s2) gamma))
                   zu)
           alpha in
  let _s2 :=
    fr.Mul
      (fr.Mul (fr.Add (fr.Add (fr.Mul zeta (snd (vk_Shifter vk))) o) gamma)
              (fr.Mul (fr.Add (fr.Add (fr.Mul zeta (fst (vk_Shifter vk))) r)
                              gamma)
                      (fr.Add (fr.Add l zeta) gamma)))
      alpha in
  let secondPart :=
    Digest_Sub
      (Digest_ScalarMultiplication (snd (vk_S vk)) (fr.ToBigIntRegular _s1))
      (Digest_ScalarMultiplication (proof_Z proof)
         (fr.ToBigIntRegular _s2)) in
  let thirdPart :=
    Digest_ScalarMultiplication (proof_Z proof)
      (fr.ToBigIntRegular
         (fr.Mul (fr.Mul (lagrange_one vk zeta) alpha) alpha)) in
  Digest_Add (Digest_Add first secondPart) thirdPart.

(** The arguments of the two calls into [kzg]. *)
Definition batch_call (proof : PlonkProof) (vk : VerifyingKey) : kzg_call :=
  call_BatchVerifySinglePoint
    [folded_H proof vk;
     linearized_polynomial_digest proof vk;
     commitment (proof_LRO proof) 0;
     commitment (proof_LRO proof) 1;
     commitment (proof_LRO proof) 2;
     fst (fst (vk_S vk));
     snd (fst (vk_S vk))]
    (proof_BatchedProof proof) (vk_KZGSRS vk).

Definition single_call (proof : PlonkProof) (vk : VerifyingKey) : kzg_call :=
  call_Verify (proof_Z proof) (proof_ZShiftedOpening proof) (vk_KZGSRS vk).

Definition run_call (c : kzg_call) : option kzg_error :=
  match c with
  | call_BatchVerifySinglePoint ds p srs =>
      kzg_BatchVerifySinglePoint ds p srs
  | call_Verify d p srs => kzg_Verify d p srs
  end.

(** What a caller observes of [Verify] on a well-formed proof. *)
Definition Verify_summary (proof : PlonkProof) (vk : VerifyingKey)
    (publicWitness : list fr.Element) : observation :=
  if fr.Equal (claimed proof 0) (quotient_at_zeta proof vk publicWitness)
  then
    match run_call (batch_call proof vk) with
    | Some e =>
        Returned (Some (kzg_failure e)) proof vk publicWitness
          [batch_call proof vk]
    | None =>
        Returned (kzg_result (run_call (single_call proof vk)))
          proof vk publicWitness
          [batch_call proof vk; single_call proof vk]
    end
  else
    Returned (Some errWrongClaimedQuotient) proof vk publicWitness [].

(** *** The loop variables inside the store *)

Definition aggregator_of (f : Var.fr -> fr.Element) : aggregator :=
  {| agg_pi := f Var.pi;
     agg_lagrange := f Var.lagrange;
     agg_acc := f Var.acc;
     agg_den := f Var.den;
     agg_xiLi := f Var.xiLi |}.

Definition aggregator_store (a : aggregator) (f : Var.fr -> fr.Element)
    : Var.fr -> fr.Element :=
  fun x =>
    match x with
    | Var.pi => agg_pi a
    | Var.lagrange => agg_lagrange a
    | Var.acc => agg_acc a
    | Var.den => agg_den a
    | Var.xiLi => agg_xiLi a
    | _ => f x
    end.

(** *** The formulas of the specification *)

(** The expected quotient:
    (linearizedPoly + PI(zeta)
     + alpha*zu*(a+s1+gamma)*(b+s2+gamma)*(c+gamma) - alpha^2*L0(zeta))
    / (zeta^n - 1),
    on the claimed values in the order quotient, linearizedPoly, a, b, c,
    s1, s2. *)
Definition expected_quotient (proof : PlonkProof) (vk : VerifyingKey)
    (publicWitness : list fr.Element) : fr.Element :=
  let gamma := challenge_gamma proof in
  let alpha := challenge_alpha proof in
  let zeta := challenge_zeta proof in
  let zu := ClaimedValue (proof_ZShiftedOpening proof) in
  let linearizedPoly := claimed proof 1 in
  let a := claimed proof 2 in
  let b := claimed proof 3 in
  let c := claimed proof 4 in
  let s1 := claimed proof 5 in
  let s2 := claimed proof 6 in
  let t1 :=
    fr.Mul (fr.Mul (fr.Mul (fr.Mul alpha zu) (fr.Add (fr.Add a s1) gamma))
                   (fr.Add (fr.Add b s2) gamma))
           (fr.Add c gamma) in
  let t2 := fr.Mul (fr.Exp alpha 2) (lagrange_one vk zeta) in
  fr.Div
    (fr.Sub (fr.Add (fr.Add linearizedPoly
                            (public_input_at vk zeta publicWitness))
                    t1)
            t2)
    (fr.Sub (fr.Exp zeta (vk_Size vk)) fr.One).

(** A point weighted by the canonical representative of a scalar. *)
Definition weighted (scalar : fr.Element) (point : Digest) : Digest :=
  Digest_ScalarMultiplication point (fr.ToBigIntRegular scalar).

(** The digest of the linearized polynomial:
    l.Ql + r.Qr + (l.r).Qm + o.Qo + Qk
    + ([alpha.zu.(a+s1+gamma).(b+s2+gamma)].S[2]
       - [alpha.(a+zeta+gamma).(b+shift0.zeta+gamma).(c+shift1.zeta+gamma)].Z)
    + [alpha^2.L0(zeta)].Z. *)
Definition linearized_digest_formula (proof : PlonkProof)
    (vk : VerifyingKey) : Digest :=
  let gamma := challenge_gamma proof in
  let alpha := challenge_alpha proof in
  let zeta := challenge_zeta proof in
  let zu := ClaimedValue (proof_ZShiftedOpening proof) in
  let l := claimed proof 2 in
  let r := claimed proof 3 in
  let o := claimed proof 4 in
  let s1 := claimed proof 5 in
  let s2 := claimed proof 6 in
  let shift0 := fst (vk_Shifter vk) in
  let shift1 := snd (vk_Shifter vk) in
  let gates :=
    Digest_Add
      (Digest_Add
         (Digest_Add
            (Digest_Add (weighted l (vk_Ql vk)) (weighted r (vk_Qr vk)))
            (weighted (fr.Mul l r) (vk_Qm vk)))
         (weighted o (vk_Qo vk)))
      (vk_Qk vk) in
  let permutation :=
    Digest_Sub
      (weighted
         (fr.Mul (fr.Mul (fr.Mul alpha zu) (fr.Add (fr.Add l s1) gamma))
                 (fr.Add (fr.Add r s2) gamma))
         (snd (vk_S vk)))
      (weighted
         (fr.Mul
            (fr.Mul
               (fr.Mul alpha (fr.Add (fr.Add l zeta) gamma))
               (fr.Add (fr.Add r (fr.Mul shift0 zeta)) gamma))
            (fr.Add (fr.Add o (fr.Mul shift1 zeta)) gamma))
         (proof_Z proof)) in
  Digest_Add
    (Digest_Add gates permutation)
    (weighted (fr.Mul (fr.Exp alpha 2) (lagrange_one vk zeta))
       (proof_Z proof)).

(** The folded commitment: ((H2 . zeta^(n+2)) + H1) . zeta^(n+2) + H0. *)
Definition folded_H_formula (proof : PlonkProof) (vk : VerifyingKey)
    : Digest :=
  let z := fr.Exp (challenge_zeta proof) (vk_Size vk + 2) in
  Digest_Add
    (weighted z
       (Digest_Add (weighted z (commitment (proof_H proof) 2))
          (commitment (proof_H proof) 1)))
    (commitment (proof_H proof) 0).

(** The Lagrange basis of the domain of size n generated by g, in closed
    form: L_i(zeta) = (g^i / n) * (zeta^n - 1) / (zeta - g^i). *)
Definition lagrange_basis_at (vk : VerifyingKey) (zeta : fr.Element)
    (i : nat) : fr.Element :=
  fr.Mul
    (fr.Mul (vk_SizeInv vk) (fr.Exp (vk_Generator vk) (Z.of_nat i)))
    (fr.Div (fr.Sub (fr.Exp zeta (vk_Size vk)) fr.One)
            (fr.Sub zeta (fr.Exp (vk_Generator vk) (Z.of_nat i)))).

(** Sum over the witness of w_i * L_i(zeta), from index [i] on. *)
Fixpoint lagrange_sum_from (vk : VerifyingKey) (zeta : fr.Element)
    (i : nat) (ws : list fr.Element) : fr.Element :=
  match ws with
  | [] => fr.Zero
  | wi :: rest =>
      fr.Add (fr.Mul wi (lagrange_basis_at vk zeta i))
             (lagrange_sum_from vk zeta (S i) rest)
  end.

(** PI(zeta) directly: the sum of w_i * L_i(zeta). *)
Definition public_input_closed_form (vk : VerifyingKey) (zeta : fr.Element)
    (publicWitness : list fr.Element) : fr.Element :=
  lagrange_sum_from vk zeta 0 publicWitness.

(** The invariant of the loop: after [k] turns [lagrange] is L_k(zeta),
    [acc] is g^k and [den] is zeta - g^k. *)
Definition aggregator_at (vk : VerifyingKey) (zeta : fr.Element) (k : nat)
    (a : aggregator) : Prop :=
  agg_lagrange a = lagrange_basis_at vk zeta k
  /\ agg_acc a = fr.Exp (vk_Generator vk) (Z.of_nat k)
  /\ agg_den a = fr.Sub zeta (fr.Exp (vk_Generator vk) (Z.of_nat k)).

End Summary.

(* ================================================================= *)
(** ** Sample inputs *)

(** A hash that returns its input: the challenges are then the transcript
    bytes themselves, reduced modulo the field order. *)
Definition identity_hash (bs : list Byte.byte) : list Byte.byte := bs.

(** A hash that makes every challenge 1, the domain point g^0. *)
Definition one_hash (bs : list Byte.byte) : list Byte.byte := [Byte.x01].

Definition sample_kzg (hash : list Byte.byte -> list Byte.byte)
    (batch single : bool) : KZG :=
  fixed_kzg (scalar_curve hash) batch single.

Definition sample_proof (hash : list Byte.byte -> list Byte.byte)
    (batch single : bool) (claimedQuotient : Z)
    : @PlonkProof (scalar_curve hash) (sample_kzg hash batch single) :=
  @Build_PlonkProof (scalar_curve hash) (sample_kzg hash batch single)
    [fr.of_Z 1; fr.of_Z 2; fr.of_Z 3]
    (fr.of_Z 4)
    [fr.of_Z 5; fr.of_Z 6; fr.of_Z 7]
    {| ClaimedValues := map fr.of_Z [claimedQuotient; 2; 3; 4; 5; 6; 7];
       BatchOpeningProof_rest := tt |}
    {| ClaimedValue := fr.of_Z 9; OpeningProof_rest := tt |}.

(** A key for the domain of size 4: 5 generates the multiplicative group
    of the field, so 5^((Modulus-1)/4) is a primitive 4th root of unity. *)
Definition sample_vk (hash : list Byte.byte -> list Byte.byte)
    (batch single : bool)
    : @VerifyingKey (scalar_curve hash) (sample_kzg hash batch single) :=
  @Build_VerifyingKey (scalar_curve hash) (sample_kzg hash batch single)
    4
    (fr.Inverse (fr.of_Z 4))
    (fr.Exp (fr.of_Z 5) ((fr.Modulus - 1) / 4))
    (fr.of_Z 5, fr.of_Z 25)
    (fr.of_Z 11, fr.of_Z 12, fr.of_Z 13)
    (fr.of_Z 21) (fr.of_Z 22) (fr.of_Z 23) (fr.of_Z 24) (fr.of_Z 25)
    tt.

Definition sample_witness : list fr.Element := [fr.of_Z 3; fr.of_Z 4].

(** With the identity hash: a proof whose claimed quotient is 1, and one
    whose claimed quotient is the expected one. *)
Definition sample_key := sample_vk identity_hash true true.

Definition failing_proof := sample_proof identity_hash true true 1.

Definition sample_quotient : Z :=
  Eval vm_compute in
    fr.ToBigIntRegular
      (expected_quotient (sample_proof identity_hash true true 0)
         sample_key sample_witness).

Definition passing_proof :=
  sample_proof identity_hash true true sample_quotient.

(** With the hash that makes zeta = 1. *)
Definition domain_key := sample_vk one_hash true true.

Definition domain_proof (claimedQuotient : Z) :=
  sample_proof one_hash true true claimedQuotient.

(* ================================================================= *)
(** ** Further observations on [Verify] *)

(** Two witnesses added entry by entry. *)
Fixpoint witness_Add (w1 w2 : list fr.Element) : list fr.Element :=
  match w1, w2 with
  | a :: w1, b :: w2 => fr.Add a b :: witness_Add w1 w2
  | _, _ => []
  end.

Section Inputs.

Context {curve : Curve} {kzg : KZG}.

(** Whether the call returned an error of the transcript, as the
    [if err != nil { return err }] of lines 37-83 would. *)
Definition returns_transcript_error (r : result unit) : bool :=
  match returned r with
  | Some (Some (fiatshamir_error _)) => true
  | _ => false
  end.

(** The digest variable [v] at the return of the quotient-mismatch error. *)
Definition digest_at_mismatch (v : Var.g1) (r : result unit)
    : option Digest :=
  match r with
  | Return (Some errWrongClaimedQuotient) s => Some (st_g1 s v)
  | _ => None
  end.

(** What lines 222-240 return: the error of the batched opening check, or
    else the result of the single opening check. *)
Definition openings_verdict (proof : PlonkProof) (vk : VerifyingKey)
    : option error :=
  match run_call (batch_call proof vk) with
  | Some e => Some (kzg_failure e)
  | None => kzg_result (run_call (single_call proof vk))
  end.

(** The calls lines 222-240 make: the single check follows a batched check
    that returned [nil]. *)
Definition openings_calls (proof : PlonkProof) (vk : VerifyingKey)
    : list kzg_call :=
  match run_call (batch_call proof vk) with
  | Some _ => [batch_call proof vk]
  | None => [batch_call proof vk; single_call proof vk]
  end.

(** The challenge zeta of [proof] is a root of the vanishing polynomial of
    the key: zeta^n = 1, or zeta is a point g^i of the domain of a key with
    g^n = 1. *)
Definition zeta_on_domain (proof : PlonkProof) (vk : VerifyingKey) : Prop :=
  fr.Exp (challenge_zeta proof) (vk_Size vk) = fr.One
  \/ (0 <= vk_Size vk
      /\ fr.Exp (vk_Generator vk) (vk_Size vk) = fr.One
      /\ exists i : nat,
           challenge_zeta proof = fr.Exp (vk_Generator vk) (Z.of_nat i)).

End Inputs.

(* ================================================================= *)
(** ** The circuit API: what package [fields] takes from [frontend] *)

Module frontend.

(** What an argument of type [interface{}] holds: nothing, a
    [*frontend.Constraint] (the nil pointer included), an untyped integer
    constant, or a value of another type. *)
Inductive iface (C K : Type) : Type :=
| iface_nil
| iface_Constraint (p : option C)
| iface_int (z : Z)
| iface_other (k : K).

Arguments iface_nil {C K}.
Arguments iface_Constraint {C K} p.
Arguments iface_int {C K} z.
Arguments iface_other {C K} k.

(** [_x == nil] on an [interface{}]: a nil pointer inside an interface is
    not the nil interface. *)
Definition is_nil {C K : Type} (a : iface C K) : bool :=
  match a with
  | iface_nil => true
  | _ => false
  end.

(** The methods of [*frontend.CS] that the gadget calls.  Each takes the
    circuit to a new circuit and returns a pointer to a constraint of it;
    [None] is a panic. *)
Class CS := {
  Constraint : Type;
  other : Type;
  circuit : Type;
  ALLOCATE : iface Constraint other -> circuit
             -> option (option Constraint * circuit);
  ADD : iface Constraint other -> iface Constraint other -> circuit
        -> option (option Constraint * circuit);
  MUL : iface Constraint other -> iface Constraint other -> circuit
        -> option (option Constraint * circuit);
  SUB : iface Constraint other -> iface Constraint other -> circuit
        -> option (option Constraint * circuit)
}.

(** The values a circuit gives to the arguments of its methods, in a
    commutative ring. *)
Class Semantics (cs : CS) := {
  F : Type;
  F0 : F;
  F1 : F;
  Fadd : F -> F -> F;
  Fmul : F -> F -> F;
  Fsub : F -> F -> F;
  Fopp : F -> F;
  val : circuit -> iface Constraint other -> option F
}.

Section Laws.

Context {cs : CS} {sem : Semantics cs}.

(** Whatever has a value in [c] keeps it in [c']. *)
Definition extends (c c' : circuit) : Prop :=
  forall a v, val c a = Some v -> val c' a = Some v.

(** A method that adds to the circuit a constraint of value [v]. *)
Definition yields (r : option (option Constraint * circuit)) (c : circuit)
    (v : F) : Prop :=
  exists p c',
    r = Some (p, c') /\ val c' (iface_Constraint p) = Some v /\ extends c c'.

(** What the gadget needs of the circuit: on arguments that have a value
    each method returns a constraint with the value of its operation, and
    keeps the values there were. *)
Record Lawful : Prop := {
  F_ring : ring_theory F0 F1 Fadd Fmul Fsub Fopp eq;
  val_nil : forall c, val c iface_nil = None;
  val_zero : forall c, val c (iface_int 0) = Some F0;
  ALLOCATE_val : forall c a va,
    val c a = Some va -> yields (ALLOCATE a c) c va;
  ADD_val : forall c a b va vb,
    val c a = Some va -> val c b = Some vb ->
    yields (ADD a b c) c (Fadd va vb);
  MUL_val : forall c a b va vb,
    val c a = Some va -> val c b = Some vb ->
    yields (MUL a b c) c (Fmul va vb);
  SUB_val : forall c a b va vb,
    val c a = Some va -> val c b = Some vb ->
    yields (SUB a b c) c (Fsub va vb)
}.

End Laws.

Arguments Lawful {cs} sem.

End frontend.

(* ================================================================= *)
(** ** The gadget [Fp2Elmt] of package [fields] *)

Module fields.

Import frontend.

Declare Scope gadget_scope.
Delimit Scope gadget_scope with gadget.

Section Gadget.

Context {cs : CS}.

(** [*frontend.Constraint] and [interface{}]. *)
Definition pointer : Type := option Constraint.
Definition value : Type := iface Constraint other.

(** [type Fp2Elmt struct { x, y *frontend.Constraint }] *)
Record Fp2Elmt := {
  Fp2Elmt_x : pointer;
  Fp2Elmt_y : pointer
}.

(** [Extension]: of its fields this file reads [uSquare]. *)
Record Extension := {
  uSquare : value
}.

(** A [*Fp2Elmt] is the address of an element; the receiver and the
    arguments of a method may be the same address. *)
Definition address : Type := nat.

Record memory := {
  mem_circuit : circuit;
  mem_elmts : address -> Fp2Elmt
}.

(** Statements: from memory to a result and the new memory, or a panic. *)
Definition G (A : Type) : Type := memory -> option (A * memory).

Definition ret {A} (a : A) : G A := fun m => Some (a, m).

Definition bind {A B} (c : G A) (k : A -> G B) : G B :=
  fun m =>
    match c m with
    | Some (a, m') => k a m'
    | None => None
    end.

(** A call of a method of [circuit]. *)
Definition call (op : circuit -> option (pointer * circuit)) : G pointer :=
  fun m =>
    let 'Build_memory c h := m in
    match op c with
    | Some (p, c') => Some (p, Build_memory c' h)
    | None => None
    end.

(** [e.x] and [e.y] read. *)
Definition get_x (e : address) : G pointer :=
  fun m => Some (Fp2Elmt_x (mem_elmts m e), m).

Definition get_y (e : address) : G pointer :=
  fun m => Some (Fp2Elmt_y (mem_elmts m e), m).

(** [e.x = p] and [e.y = p]. *)
Definition set_x (e : address) (p : pointer) : G unit :=
  fun m =>
    let 'Build_memory c h := m in
    Some (tt,
          Build_memory c
            (fun a =>
               if Nat.eqb a e
               then {| Fp2Elmt_x := p; Fp2Elmt_y := Fp2Elmt_y (h a) |}
               else h a)).

Definition set_y (e : address) (p : pointer) : G unit :=
  fun m =>
    let 'Build_memory c h := m in
    Some (tt,
          Build_memory c
            (fun a =>
               if Nat.eqb a e
               then {| Fp2Elmt_x := Fp2Elmt_x (h a); Fp2Elmt_y := p |}
               else h a)).

End Gadget.

Notation "x <- c1 ;; c2" := (bind c1 (fun x => c2))
  (at level 61, c1 at next level, right associativity) : gadget_scope.
Notation "c1 ;; c2" := (bind c1 (fun _ => c2))
  (at level 61, right associativity) : gadget_scope.

Local Open Scope gadget_scope.

Section Methods.

Context {cs : CS}.

(** [func NewFp2Elmt(circuit *frontend.CS, _x, _y interface{}) Fp2Elmt] *)
Definition NewFp2Elmt (_x _y : value) : G Fp2Elmt :=
  if is_nil _x && is_nil _y
  then ret {| Fp2Elmt_x := None; Fp2Elmt_y := None |}
  else
    x <- call (ALLOCATE _x) ;;
    y <- call (ALLOCATE _y) ;;
    ret {| Fp2Elmt_x := x; Fp2Elmt_y := y |}.

(** [func (e *Fp2Elmt) Add(circuit *frontend.CS, e1, e2 *Fp2Elmt)
    *Fp2Elmt] *)
Definition Add (e e1 e2 : address) : G address :=
  e1x <- get_x e1 ;;
  e2x <- get_x e2 ;;
  x <- call (ADD (iface_Constraint e1x) (iface_Constraint e2x)) ;;
  e1y <- get_y e1 ;;
  e2y <- get_y e2 ;;
  y <- call (ADD (iface_Constraint e1y) (iface_Constraint e2y)) ;;
  set_x e x ;;
  set_y e y ;;
  ret e.

(** [func (e *Fp2Elmt) Sub(circuit *frontend.CS, e1, e2 *Fp2Elmt)
    *Fp2Elmt] *)
Definition Sub (e e1 e2 : address) : G address :=
  e1x <- get_x e1 ;;
  e2x <- get_x e2 ;;
  x <- call (SUB (iface_Constraint e1x) (iface_Constraint e2x)) ;;
  e1y <- get_y e1 ;;
  e2y <- get_y e2 ;;
  y <- call (SUB (iface_Constraint e1y) (iface_Constraint e2y)) ;;
  set_x e x ;;
  set_y e y ;;
  ret e.

(** [func (e *Fp2Elmt) Mul(circuit *frontend.CS, e1, e2 *Fp2Elmt,
    ext Extension) *Fp2Elmt] *)
Definition Mul (e e1 e2 : address) (ext : Extension) : G address :=
  e1x <- get_x e1 ;;
  e2x <- get_x e2 ;;
  a <- call (MUL (iface_Constraint e1x) (iface_Constraint e2x)) ;;
  e1y <- get_y e1 ;;
  e2y <- get_y e2 ;;
  b <- call (MUL (iface_Constraint e1y) (iface_Constraint e2y)) ;;
  b <- call (MUL (iface_Constraint b) (uSquare ext)) ;;
  x <- call (ADD (iface_Constraint a) (iface_Constraint b)) ;;
  e1x <- get_x e1 ;;
  e2y <- get_y e2 ;;
  c <- call (MUL (iface_Constraint e1x) (iface_Constraint e2y)) ;;
  e1y <- get_y e1 ;;
  e2x <- get_x e2 ;;
  d <- call (MUL (iface_Constraint e1y) (iface_Constraint e2x)) ;;
  y <- call (ADD (iface_Constraint c) (iface_Constraint d)) ;;
  set_x e x ;;
  set_y e y ;;
  ret e.

(** [func (e *Fp2Elmt) MulByFp(circuit *frontend.CS, e1 *Fp2Elmt,
    c interface{}) *Fp2Elmt] *)
Definition MulByFp (e e1 : address) (c : value) : G address :=
  e1x <- get_x e1 ;;
  x <- call (MUL (iface_Constraint e1x) c) ;;
  set_x e x ;;
  e1y <- get_y e1 ;;
  y <- call (MUL (iface_Constraint e1y) c) ;;
  set_y e y ;;
  ret e.

(** [func (e *Fp2Elmt) MulByIm(circuit *frontend.CS, e1 *Fp2Elmt,
    ext Extension) *Fp2Elmt]: [x := e1.y], then [e.x] from the receiver's
    own [e.y], then [e.y = x]. *)
Definition MulByIm (e e1 : address) (ext : Extension) : G address :=
  x <- get_y e1 ;;
  ey <- get_y e ;;
  ex <- call (MUL (iface_Constraint ey) (uSquare ext)) ;;
  set_x e ex ;;
  set_y e x ;;
  ret e.

(** [func (e *Fp2Elmt) Conjugate(circuit *frontend.CS, e1 *Fp2Elmt)
    *Fp2Elmt] *)
Definition Conjugate (e e1 : address) : G address :=
  e1x <- get_x e1 ;;
  set_x e e1x ;;
  e1y <- get_y e1 ;;
  y <- call (SUB (iface_int 0) (iface_Constraint e1y)) ;;
  set_y e y ;;
  ret e.

End Methods.

(** *** The values of the elements *)

Section Values.

Context {cs : CS} {sem : Semantics cs}.

(** The pair of values behind the two pointers of the element at [e]. *)
Definition Fp2_val (m : memory) (e : address) : option (F * F) :=
  match val (mem_circuit m) (iface_Constraint (Fp2Elmt_x (mem_elmts m e))),
        val (mem_circuit m) (iface_Constraint (Fp2Elmt_y (mem_elmts m e)))
  with
  | Some a, Some b => Some (a, b)
  | _, _ => None
  end.

(** The call returned [e], the element at [e] has the value [v], no other
    element was written and no value of the circuit was lost. *)
Definition computes (r : option (address * memory)) (m : memory)
    (e : address) (v : F * F) : Prop :=
  exists m',
    r = Some (e, m')
    /\ Fp2_val m' e = Some v
    /\ (forall a, a <> e -> mem_elmts m' a = mem_elmts m a)
    /\ extends (mem_circuit m) (mem_circuit m').

(** The call returned [e] and the element at [e] has the value [v]. *)
Definition evaluates_to (r : option (address * memory)) (e : address)
    (v : F * F) : Prop :=
  exists m', r = Some (e, m') /\ Fp2_val m' e = Some v.

(** Arithmetic of x + y.u in the extension where u^2 = [u2]. *)
Definition Fp2_add (v w : F * F) : F * F :=
  (Fadd (fst v) (fst w), Fadd (snd v) (snd w)).

Definition Fp2_sub (v w : F * F) : F * F :=
  (Fsub (fst v) (fst w), Fsub (snd v) (snd w)).

Definition Fp2_mul (u2 : F) (v w : F * F) : F * F :=
  (Fadd (Fmul (fst v) (fst w)) (Fmul (Fmul (snd v) (snd w)) u2),
   Fadd (Fmul (fst v) (snd w)) (Fmul (snd v) (fst w))).

Definition Fp2_scale (v : F * F) (c : F) : F * F :=
  (Fmul (fst v) c, Fmul (snd v) c).

(** (x + y.u).u = y.u^2 + x.u *)
Definition Fp2_mul_by_u (u2 : F) (v : F * F) : F * F :=
  (Fmul (snd v) u2, fst v).

Definition Fp2_conjugate (v : F * F) : F * F :=
  (fst v, Fsub F0 (snd v)).

End Values.

End fields.

(* ================================================================= *)
(** ** A circuit to compute with *)

(** The circuit that evaluates as it is built: a constraint is the index of
    its value in the list of the values computed so far. *)
Definition evaluator_val (c : list fr.Element)
    (a : frontend.iface nat fr.Element) : option fr.Element :=
  match a with
  | frontend.iface_nil => None
  | frontend.iface_Constraint None => None
  | frontend.iface_Constraint (Some i) => nth_error c i
  | frontend.iface_int z => Some (fr.of_Z z)
  | frontend.iface_other k => Some k
  end.

Definition evaluator_ALLOCATE (a : frontend.iface nat fr.Element)
    (c : list fr.Element) : option (option nat * list fr.Element) :=
  match evaluator_val c a with
  | Some v => Some (Some (List.length c), c ++ [v])
  | None => None
  end.

Definition evaluator_op (op : fr.Element -> fr.Element -> fr.Element)
    (a b : frontend.iface nat fr.Element) (c : list fr.Element)
    : option (option nat * list fr.Element) :=
  match evaluator_val c a, evaluator_val c b with
  | Some va, Some vb => Some (Some (List.length c), c ++ [op va vb])
  | _, _ => None
  end.

Definition evaluator : frontend.CS :=
  {| frontend.Constraint := nat;
     frontend.other := fr.Element;
     frontend.circuit := list fr.Element;
     frontend.ALLOCATE := evaluator_ALLOCATE;
     frontend.ADD := evaluator_op fr.Add;
     frontend.MUL := evaluator_op fr.Mul;
     frontend.SUB := evaluator_op fr.Sub |}.

Definition evaluator_semantics : frontend.Semantics evaluator :=
  @frontend.Build_Semantics evaluator
    fr.Element fr.Zero fr.One fr.Add fr.Mul fr.Sub fr.Neg evaluator_val.

(** Three elements: 3 + 4u at address 0, 5 + 6u at address 1, 7 + 7u at
    address 2; the other addresses hold nil pointers.  u^2 = 5. *)
Definition sample_memory : @fields.memory evaluator :=
  @fields.Build_memory evaluator
    (map fr.of_Z [3; 4; 5; 6; 7; 7])
    (fun a =>
       match a with
       | 0%nat => @fields.Build_Fp2Elmt evaluator (Some 0%nat) (Some 1%nat)
       | 1%nat => @fields.Build_Fp2Elmt evaluator (Some 2%nat) (Some 3%nat)
       | 2%nat => @fields.Build_Fp2Elmt evaluator (Some 4%nat) (Some 5%nat)
       | _ => @fields.Build_Fp2Elmt evaluator None None
       end).

Definition sample_extension : @fields.Extension evaluator :=
  @fields.Build_Extension evaluator (frontend.iface_int 5).

(** With the hash that makes zeta the generator g of the sample domain,
    the second point the loop meets. *)
Definition generator_hash (bs : list Byte.byte) : list Byte.byte :=
  Z_to_be 32
    (fr.ToBigIntRegular (fr.Exp (fr.of_Z 5) ((fr.Modulus - 1) / 4))).

Definition generator_key := sample_vk generator_hash true true.

Definition generator_proof := sample_proof generator_hash true true 0.

(** A proof that passes the quotient check with no public input, and the
    sample key with another generator. *)
Definition sample_quotient_no_input : Z :=
  Eval vm_compute in
    fr.ToBigIntRegular
      (expected_quotient (sample_proof identity_hash true true 0)
         sample_key []).

Definition no_input_proof :=
  sample_proof identity_hash true true sample_quotient_no_input.

Definition other_generator_key := set_vk_Generator (fr.of_Z 7) sample_key.


(* ================================================================= *)
(** * Proofs *)

(** ** [fr.Modulus] is prime *)

Module PrimalityProofs.

Import Primality.

Lemma no_divisor_upto_sound fuel : forall d n m,
  no_divisor_upto fuel d n = true -> 0 < d ->
  d <= m < d + Z.of_nat fuel -> ~ (m | n).
Proof.
  induction fuel as [|k IH]; intros d n m Hc Hd Hm Hdiv; [lia|].
  cbn [no_divisor_upto] in Hc. apply andb_true_iff in Hc as [Hd0 Hrest].
  destruct (Z.eq_dec m d) as [->|Hne].
  - apply Z.mod_divide in Hdiv; [|lia].
    rewrite Hdiv in Hd0. discriminate.
  - apply (IH (d + 1) n m); trivial; lia.
Qed.

Lemma trial_prime_sound n : trial_prime n = true -> Z.prime n.
Proof.
  unfold trial_prime. intros H. apply andb_true_iff in H as [H1 Hnd].
  apply Z.ltb_lt in H1. split; [exact H1|].
  intros m Hm [k Hk].
  assert (Hk1 : 1 < k < n) by nia.
  pose proof (Z.sqrt_spec n ltac:(lia)) as Hs. cbv zeta in Hs.
  assert (Hsq : m <= Z.sqrt n \/ k <= Z.sqrt n) by nia.
  destruct Hsq as [Hle|Hle].
  - apply (no_divisor_upto_sound _ 2 n m Hnd); [lia|lia|exists k; exact Hk].
  - apply (no_divisor_upto_sound _ 2 n k Hnd); [lia|lia|exists m; lia].
Qed.

Lemma prime_divisor_exists : forall n, 1 < n -> exists d, Z.prime d /\ (d | n).
Proof.
  intros n Hn.
  assert (Hgen : forall b, 0 <= b ->
            forall k, 1 < k <= b -> exists d, Z.prime d /\ (d | k)).
  { intros b Hb. pattern b. apply natlike_ind; [intros; lia| |exact Hb].
    intros x Hx IH k Hk.
    destruct (prime_dec k) as [Hp|Hnp].
    - exists k. split; [apply prime_alt; exact Hp|apply Z.divide_refl].
    - destruct (not_prime_divide k ltac:(lia) Hnp) as [m [Hm Hdiv]].
      destruct (IH m ltac:(lia)) as [d [Hd Hdm]].
      exists d. split; [exact Hd|]. eapply Z.divide_trans; eassumption. }
  apply (Hgen n); lia.
Qed.

Lemma pow_of_Z_divisor N d a e :
  0 <= e -> (d | N) ->
  Zmod.to_Z (Zmod.pow (Zmod.of_Z d a) e)
  = Zmod.to_Z (Zmod.pow (Zmod.of_Z N a) e) mod d.
Proof.
  intros He Hd.
  rewrite <- !Zmod.of_Z_pow by exact He.
  rewrite !Zmod.to_Z_of_Z. symmetry. apply Z.mod_mod_divide. exact Hd.
Qed.

(** The heart of the criterion: a witness for [p] forces every prime
    divisor [d] of [N] to be 1 modulo the power of [p] dividing [N - 1]. *)
Lemma witnesses_divisor N p e a d :
  1 < N -> Z.prime p -> 0 <= e -> (p ^ e | N - 1) ->
  Zmod.pow (Zmod.of_Z N a) (N - 1) = Zmod.one ->
  witnesses N a p = true ->
  Z.prime d -> (d | N) -> (p ^ e | d - 1).
Proof.
  intros HN Hp He Hpe Hone Hgcd Hd HdN.
  unfold witnesses in Hgcd. apply Z.eqb_eq in Hgcd.
  pose proof (Z.prime_ge_2 _ Hd) as Hd2.
  pose proof (Z.prime_ge_2 _ Hp) as Hp2.
  set (x := Zmod.of_Z d a).
  assert (Hx1 : Zmod.pow x (N - 1) = Zmod.one).
  { apply Zmod.to_Z_inj. unfold x.
    rewrite (pow_of_Z_divisor N d a (N - 1)) by (trivial; lia).
    rewrite Hone, Zmod.to_Z_1_pos, Zmod.to_Z_1_pos by lia.
    apply Z.mod_1_l; lia. }
  assert (Hxnz : x <> Zmod.zero).
  { intros Hx0. rewrite Hx0, Zmod.pow_0_l in Hx1 by lia.
    symmetry in Hx1. revert Hx1. apply Zmod.one_neq_zero. lia. }
  assert (Hcop : Z.gcd (Zmod.to_Z x) d = 1).
  { rewrite Z.gcd_comm. apply Z.coprime_prime_small; trivial.
    pose proof (Zmod.to_Z_pos_bound x ltac:(lia)).
    pose proof (Zmod.to_Z_nz x Hxnz). lia. }
  assert (Hferm : Zmod.pow x (d - 1) = Zmod.one).
  { apply Zmod.fermat_nz; trivial. }
  set (g := Z.gcd (N - 1) (d - 1)).
  assert (Hxg : Zmod.pow x g = Zmod.one).
  { destruct (Z.gcd_bezout (N - 1) (d - 1) g eq_refl) as [u [v Huv]].
    rewrite <- Huv.
    rewrite Zmod.pow_add_r_coprime by exact Hcop.
    rewrite (Z.mul_comm u), (Z.mul_comm v).
    rewrite !Zmod.pow_mul_r_coprime by exact Hcop.
    rewrite Hx1, Hferm, !Zmod.pow_1_l. apply Zmod.mul_1_l. }
  destruct (Z.gcd_divide_l (N - 1) (d - 1)) as [t Ht]. fold g in Ht.
  assert (Hnp : ~ (p | t)).
  { intros [t' Ht'].
    assert (Hq : (N - 1) / p = g * t').
    { rewrite Ht, Ht'.
      replace (t' * p * g) with (g * t' * p) by ring.
      apply Z.div_mul. lia. }
    assert (Hbad : Zmod.pow x ((N - 1) / p) = Zmod.one).
    { rewrite Hq, Zmod.pow_mul_r_coprime, Hxg by exact Hcop.
      apply Zmod.pow_1_l. }
    assert (Hq0 : 0 <= (N - 1) / p) by (apply Z.div_pos; lia).
    pose proof (pow_of_Z_divisor N d a _ Hq0 HdN) as Hrel. fold x in Hrel.
    rewrite Hbad, Zmod.to_Z_1_pos in Hrel by lia.
    set (y := Zmod.to_Z (Zmod.pow (Zmod.of_Z N a) ((N - 1) / p))) in *.
    assert (Hdy : (d | y - 1)).
    { apply Z.mod_divide; [lia|].
      rewrite Zminus_mod, <- Hrel, (Z.mod_1_l d) by lia. reflexivity. }
    assert (Hd1 : (d | 1)).
    { rewrite <- Hgcd. apply Z.gcd_greatest; trivial. }
    apply Z.divide_1_r_nonneg in Hd1; lia. }
  assert (Hcpt : Z.gcd (p ^ e) t = 1).
  { apply Z.coprime_pow_l; trivial. apply Z.coprime_prime_l; trivial. }
  apply Z.divide_trans with g; [|apply Z.gcd_divide_r].
  apply (Z.gauss (p ^ e) t g); trivial.
  rewrite <- Ht. exact Hpe.
Qed.

Lemma check_items_divisor N a ps d :
  1 < N -> Forall (fun pe => Z.prime (fst pe)) ps ->
  Zmod.pow (Zmod.of_Z N a) (N - 1) = Zmod.one ->
  check_items N a ps = true ->
  Z.prime d -> (d | N) -> (factored_part ps | d - 1).
Proof.
  intros HN Hps Hone Hc Hd HdN.
  induction ps as [|[p e] rest IH]; cbn [factored_part check_items] in *.
  - apply Z.divide_1_l.
  - apply Forall_cons_iff in Hps as [Hp Hrest]. cbn [fst] in Hp.
    repeat (apply andb_true_iff in Hc as [Hc ?]).
    apply Z.leb_le in Hc.
    assert (Hpe : (p ^ e | N - 1)).
    { apply Z.mod_divide; [|apply Z.eqb_eq; assumption].
      pose proof (Z.prime_ge_2 _ Hp). apply Z.pow_nonzero; lia. }
    pose proof (witnesses_divisor N p e a d HN Hp Hc Hpe Hone
                  ltac:(assumption) Hd HdN) as [k Hk].
    specialize (IH Hrest ltac:(assumption)).
    rewrite Hk in IH |- *. rewrite (Z.mul_comm k).
    apply Z.mul_divide_mono_l.
    apply (Z.gauss _ (p ^ e) k).
    + rewrite Z.mul_comm. exact IH.
    + rewrite Z.gcd_comm. apply Z.eqb_eq. assumption.
Qed.

Theorem pocklington_sound N c :
  certified_primes c -> pocklington N c = true -> Z.prime N.
Proof.
  destruct c as [a ps]. unfold certified_primes, pocklington. cbn [snd].
  intros Hps Hc.
  repeat (apply andb_true_iff in Hc as [Hc ?]).
  apply Z.ltb_lt in Hc.
  assert (HF : 0 < factored_part ps) by (apply Z.ltb_lt; assumption).
  assert (Hsq : N < (factored_part ps + 1) * (factored_part ps + 1))
    by (apply Z.ltb_lt; assumption).
  assert (Hone : Zmod.pow (Zmod.of_Z N a) (N - 1) = Zmod.one)
    by (apply Zmod.eqb_eq; assumption).
  assert (Hbig : forall m, 1 < m -> (m | N) -> factored_part ps + 1 <= m).
  { intros m Hm HmN.
    destruct (prime_divisor_exists m Hm) as [d [Hd Hdm]].
    assert (HdN : (d | N)) by (eapply Z.divide_trans; eassumption).
    pose proof (check_items_divisor N a ps d Hc Hps Hone
                  ltac:(assumption) Hd HdN) as Hdiv.
    pose proof (Z.prime_ge_2 _ Hd).
    apply Z.divide_pos_le in Hdiv; [|lia].
    apply Z.divide_pos_le in Hdm; lia. }
  split; [exact Hc|].
  intros m Hm [k Hk].
  assert (Hk1 : 1 < k) by nia.
  pose proof (Hbig m ltac:(lia) ltac:(exists k; exact Hk)).
  pose proof (Hbig k Hk1 ltac:(exists m; lia)).
  nia.
Qed.

Ltac by_trial := apply trial_prime_sound; vm_cast_no_check (eq_refl true).

Ltac by_pocklington c :=
  apply (pocklington_sound _ c);
  [ unfold certified_primes; cbn [snd];
    repeat apply Forall_cons; try apply Forall_nil; cbn [fst]
  | vm_cast_no_check (eq_refl true) ].

Lemma prime_12048837557 : Z.prime 12048837557.
Proof. by_trial. Qed.

Lemma prime_5156902474397 : Z.prime 5156902474397.
Proof. by_pocklington (2, [(12048837557, 1)]). exact prime_12048837557. Qed.

Lemma prime_1670836401704629 : Z.prime 1670836401704629.
Proof.
  by_pocklington (2, [(5156902474397, 1)]). exact prime_5156902474397.
Qed.

(** 5 generates the multiplicative group of the field.  The factored part
    of [Modulus - 1] is 2^28 * 11003 * 237073 * 405928799 *
    1670836401704629, above the square root of the modulus. *)
Theorem prime_Modulus : Z.prime fr.Modulus.
Proof.
  by_pocklington
    (5, [(2, 28); (11003, 1); (237073, 1); (405928799, 1);
         (1670836401704629, 1)]).
  1-4: by_trial.
  exact prime_1670836401704629.
Qed.

End PrimalityProofs.

(* ================================================================= *)
(** ** The field of scalars *)

Lemma fr_ring_theory :
  ring_theory fr.Zero fr.One fr.Add fr.Mul fr.Sub fr.Neg eq.
Proof. exact (Zmod.ring_theory fr.Modulus). Qed.

Add Ring fr_ring : fr_ring_theory.

Lemma fr_Inverse_l (x : fr.Element) :
  x <> fr.Zero -> fr.Mul (fr.Inverse x) x = fr.One.
Proof.
  intros Hx. apply Zmod.mul_inv_same_l_prime; trivial.
  exact PrimalityProofs.prime_Modulus.
Qed.

Lemma fr_Div_zero (x : fr.Element) : fr.Div x fr.Zero = fr.Zero.
Proof. apply Zmod.mdiv_0_r. Qed.

Lemma fr_Exp_0 (x : fr.Element) : fr.Exp x 0 = fr.One.
Proof. apply Zmod.pow_0_r. Qed.

Lemma fr_Exp_2 (x : fr.Element) : fr.Exp x 2 = fr.Mul x x.
Proof. apply Zmod.pow_2_r. Qed.

Lemma fr_Exp_succ (x : fr.Element) (n : Z) :
  0 <= n -> fr.Exp x (Z.succ n) = fr.Mul x (fr.Exp x n).
Proof. apply Zmod.pow_succ_nonneg_r. Qed.

Lemma fr_Equal_true (x y : fr.Element) : fr.Equal x y = true <-> x = y.
Proof. apply Zmod.eqb_eq. Qed.

Lemma fr_Equal_false (x y : fr.Element) : fr.Equal x y = false <-> x <> y.
Proof.
  rewrite <- fr_Equal_true. destruct (fr.Equal x y); split; congruence.
Qed.

Lemma fr_Sub_zero (x y : fr.Element) : fr.Sub x y = fr.Zero <-> x = y.
Proof. apply Zmod.sub_eq_0_iff. Qed.

Lemma fr_ToBigIntRegular_range (x : fr.Element) :
  0 <= fr.ToBigIntRegular x < fr.Modulus.
Proof. apply Zmod.to_Z_pos_bound. reflexivity. Qed.

(* ================================================================= *)
(** ** Running the statements *)

Section Execution.

Context {curve : Curve} {kzg : KZG}.

Lemma with_fr_same s : with_fr (st_fr s) s = s.
Proof. destruct s; reflexivity. Qed.

Lemma bind_next {A B} (m : M A) (k : A -> M B) s a s' :
  m s = Next a s' -> bind m k s = k a s'.
Proof. unfold bind. intros ->. reflexivity. Qed.

Lemma bind_panic {A B} (m : M A) (k : A -> M B) s :
  m s = Panic -> bind m k s = Panic.
Proof. unfold bind. intros ->. reflexivity. Qed.

(** Symbolic evaluation: everything is computed but the arithmetic of the
    field and of the group, the hash and the loop. *)
Ltac run_in t :=
  eval lazy -[fr.Element fr.Modulus fr.Add fr.Sub fr.Mul fr.Div
         fr.Exp fr.Equal fr.One fr.Zero fr.SetBytes
         fr.ToBigIntRegular wrap_int64 Z.add for_loop public_input_step
         Digest Digest_zero Digest_Add Digest_Sub Digest_ScalarMultiplication
         Digest_Marshal SHA256 SRS batch_rest opening_rest kzg_error
         kzg_BatchVerifySinglePoint kzg_Verify
         challenge_gamma challenge_alpha challenge_zeta
         vk_Size vk_SizeInv vk_Generator vk_Shifter vk_S vk_Ql vk_Qr vk_Qm
         vk_Qo vk_Qk vk_KZGSRS
         fold_left aggregator_step List.length] in t.

Ltac run_hyp H :=
  lazy -[fr.Element fr.Modulus fr.Add fr.Sub fr.Mul fr.Div
         fr.Exp fr.Equal fr.One fr.Zero fr.SetBytes
         fr.ToBigIntRegular wrap_int64 Z.add for_loop public_input_step
         Digest Digest_zero Digest_Add Digest_Sub Digest_ScalarMultiplication
         Digest_Marshal SHA256 SRS batch_rest opening_rest kzg_error
         kzg_BatchVerifySinglePoint kzg_Verify
         challenge_gamma challenge_alpha challenge_zeta
         vk_Size vk_SizeInv vk_Generator vk_Shifter vk_S vk_Ql vk_Qr vk_Qm
         vk_Qo vk_Qk vk_KZGSRS
         fold_left aggregator_step List.length] in H.

Ltac run_goal :=
  lazy -[fr.Element fr.Modulus fr.Add fr.Sub fr.Mul fr.Div
         fr.Exp fr.Equal fr.One fr.Zero fr.SetBytes
         fr.ToBigIntRegular wrap_int64 Z.add for_loop public_input_step
         Digest Digest_zero Digest_Add Digest_Sub Digest_ScalarMultiplication
         Digest_Marshal SHA256 SRS batch_rest opening_rest kzg_error
         kzg_BatchVerifySinglePoint kzg_Verify
         challenge_gamma challenge_alpha challenge_zeta
         vk_Size vk_SizeInv vk_Generator vk_Shifter vk_S vk_Ql vk_Qr vk_Qm
         vk_Qo vk_Qk vk_KZGSRS
         fold_left aggregator_step List.length].

(** The same, with the indexing of slices left in place. *)
Ltac run_goal_to_index :=
  lazy -[fr.Element fr.Modulus fr.Add fr.Sub fr.Mul fr.Div
         fr.Exp fr.Equal fr.One fr.Zero fr.SetBytes
         fr.ToBigIntRegular wrap_int64 Z.add for_loop public_input_step
         Digest Digest_zero Digest_Add Digest_Sub Digest_ScalarMultiplication
         Digest_Marshal SHA256 SRS batch_rest opening_rest kzg_error
         kzg_BatchVerifySinglePoint kzg_Verify
         challenge_gamma challenge_alpha challenge_zeta
         vk_Size vk_SizeInv vk_Generator vk_Shifter vk_S vk_Ql vk_Qr vk_Qm
         vk_Qo vk_Qk vk_KZGSRS
         fold_left aggregator_step List.length nth_error].

(** Run the first block of a sequence of statements. *)
Ltac run_block :=
  lazymatch goal with
  | |- ?obs (bind ?m ?k ?s) = _ =>
      let r := run_in (m s) in
      unfold bind at 1; change (m s) with r; cbv beta iota
  end.

Ltac run_rhs :=
  lazymatch goal with
  | |- _ = ?rhs => let r := run_in rhs in change rhs with r
  end.

Ltac run_lhs :=
  lazymatch goal with
  | |- ?lhs = _ => let r := run_in lhs in change lhs with r
  end.

(** One turn of the loop, then the rest of it. *)
Lemma public_input_loop_run rest : forall done s,
  st_publicWitness s = done ++ rest ->
  exists f',
    for_loop (List.length rest) (List.length done) public_input_step s
    = Next tt (with_fr f' s)
    /\ forall x,
         f' x = aggregator_store
                  (fold_left (aggregator_step (st_fr s Var.zeta)
                                (vk_Generator (st_vk s)))
                     rest (aggregator_of (st_fr s)))
                  (st_fr s) x.
Proof.
  induction rest as [|wi rest IH]; intros done s Hw.
  - exists (st_fr s). cbn [for_loop List.length ret fold_left].
    rewrite with_fr_same. split; [reflexivity|].
    intros x; destruct x; reflexivity.
  - cbn [List.length for_loop].
    assert (Hnth : nth_error (st_publicWitness s) (List.length done)
                   = Some wi).
    { rewrite Hw, nth_error_app2, Nat.sub_diag by lia. reflexivity. }
    destruct s as [p k pw fs f b g c]. cbn [st_publicWitness] in Hw, Hnth.
    unfold bind at 1. unfold public_input_step.
    run_goal_to_index. rewrite Hnth. run_goal.
    match goal with |- exists _, for_loop _ _ _ ?s1 = _ /\ _ =>
      destruct (IH (done ++ [wi]) s1) as [f' [Hrun Hf']] end.
    { cbn [st_publicWitness]. rewrite Hw, <- app_assoc. reflexivity. }
    rewrite length_app, Nat.add_comm in Hrun.
    cbn [List.length Nat.add] in Hrun.
    exists f'. split; [exact Hrun|].
    intros x. rewrite Hf'. clear. cbn [fold_left].
    destruct x; reflexivity.
Qed.

#[local] Arguments fr.SetBytes : simpl never.
#[local] Arguments list_byte_of_string : simpl never.

(** Lines 35-86 never fail on a proof with its commitments: they store the
    three challenges and leave the transcript in some state [T]. *)
Lemma derive_challenges_run s L R O lro h0 h1 h2 hs :
  proof_LRO (st_proof s) = L :: R :: O :: lro ->
  proof_H (st_proof s) = h0 :: h1 :: h2 :: hs ->
  exists T,
    derive_challenges s
    = Next tt
        (with_fs T
           (with_fr
              (upd_fr Var.zeta (challenge_zeta (st_proof s))
                 (upd_fr Var.alpha (challenge_alpha (st_proof s))
                    (upd_fr Var.gamma (challenge_gamma (st_proof s))
                       (st_fr s))))
              s)).
Proof.
  destruct s as [p k pw fs f b g c]. destruct p as [lro0 z hs0 bp zs].
  cbn [st_proof proof_LRO proof_H]. intros -> ->.
  unfold derive_challenges. cbn.
  rewrite !app_nil_r.
  eexists. reflexivity.
Qed.

Ltac read_after_loop Hf x :=
  let H := fresh "Hread" in
  pose proof (Hf x) as H; run_hyp H.

Ltac reads_after_loop Hf :=
  read_after_loop Hf Var.gamma; read_after_loop Hf Var.alpha;
  read_after_loop Hf Var.zeta; read_after_loop Hf Var.zetaPowerM;
  read_after_loop Hf Var.zzeta; read_after_loop Hf Var.one;
  read_after_loop Hf Var.pi; read_after_loop Hf Var.den;
  read_after_loop Hf Var.acc; read_after_loop Hf Var.lagrange;
  read_after_loop Hf Var.lagrangeOne; read_after_loop Hf Var.xiLi;
  read_after_loop Hf Var._s1; read_after_loop Hf Var._s2;
  read_after_loop Hf Var._o; read_after_loop Hf Var.alphaSquareLagrange;
  read_after_loop Hf Var.zu; read_after_loop Hf Var.claimedQuotient;
  read_after_loop Hf Var.linearizedPolynomialZeta;
  read_after_loop Hf Var.l; read_after_loop Hf Var.r;
  read_after_loop Hf Var.o; read_after_loop Hf Var.s1;
  read_after_loop Hf Var.s2; read_after_loop Hf Var.zetaPowerMMinusOne;
  read_after_loop Hf Var.zetaMPlusTwo; read_after_loop Hf Var.rl;
  read_after_loop Hf Var.t.

Ltac rewrite_reads :=
  repeat match goal with
         | H : ?f _ = _ |- _ => rewrite !H
         end.

(** Destructure a well-formed proof down to the entries [Verify] reads. *)
Ltac open_proof proof H :=
  let HL := fresh in let HH := fresh in let HC := fresh in
  destruct H as (HL & HH & HC);
  destruct proof as [lro z hs [cv brest] zs];
  cbn [proof_LRO proof_H proof_BatchedProof ClaimedValues] in HL, HH, HC;
  destruct lro as [|L [|R [|O lro]]]; try (cbn in HL; lia);
  destruct hs as [|h0 [|h1 [|h2 hs]]]; try (cbn in HH; lia);
  do 7 (destruct cv as [|? cv]; [cbn in HC; lia|]);
  clear HL HH HC.

(** From the entry of [Verify] to the end of the loop. *)
Ltac run_to_loop_end L R O lro h0 h1 h2 hs w :=
  match goal with |- context [init_state ?p ?k w] =>
    let T := fresh "T" in let HT := fresh "HT" in
    destruct (derive_challenges_run (init_state p k w) L R O lro h0 h1 h2 hs
                eq_refl eq_refl) as [T HT];
    rewrite (bind_next _ _ _ _ _ HT); clear HT;
    cbn [st_proof st_fr init_state];
    generalize (challenge_zeta p) (challenge_alpha p) (challenge_gamma p)
  end;
  let zeta := fresh "zeta" in let alpha := fresh "alpha" in
  let gamma := fresh "gamma" in
  intros zeta alpha gamma;
  run_block;
  run_block;
  match goal with |- context [for_loop _ _ _ ?s] =>
    let f' := fresh "f'" in
    let Hrun := fresh "Hrun" in let Hf' := fresh "Hf'" in
    destruct (public_input_loop_run w [] s eq_refl) as [f' [Hrun Hf']];
    cbn [List.length] in Hrun; rewrite Hrun; clear Hrun; cbv beta iota;
    reads_after_loop Hf'; clear Hf'
  end.

(** What [Verify] does on a well-formed proof. *)
Lemma Verify_observed proof vk publicWitness :
  well_formed proof ->
  observe (Verify proof vk publicWitness)
  = Verify_summary proof vk publicWitness.
Proof.
  intros Hwf. open_proof proof Hwf.
  unfold Verify_summary, batch_call, single_call, quotient_at_zeta,
    public_input_at, folded_H, linearized_polynomial_digest, run_call.
  run_rhs.
  unfold Verify, Verify_body.
  run_to_loop_end L R O lro h0 h1 h2 hs publicWitness.
  run_block. rewrite_reads.
  destruct (fr.Equal _ _).
  - cbv beta iota.
    run_block. rewrite_reads.
    run_block. rewrite_reads.
    run_lhs.
    destruct (kzg_BatchVerifySinglePoint _ _ _); reflexivity.
  - cbv beta iota. reflexivity.
Qed.


(** The challenges, PI(zeta) and L0(zeta) that [Verify] holds in its
    variables when it returns from a well-formed proof. *)
Lemma Verify_locals proof vk publicWitness :
  well_formed proof ->
  locals_of (Verify proof vk publicWitness)
  = Some (challenge_gamma proof, challenge_alpha proof, challenge_zeta proof,
          public_input_at vk (challenge_zeta proof) publicWitness,
          lagrange_one vk (challenge_zeta proof)).
Proof.
  intros Hwf. open_proof proof Hwf.
  unfold public_input_at, lagrange_one.
  run_rhs.
  unfold Verify, Verify_body.
  run_to_loop_end L R O lro h0 h1 h2 hs publicWitness.
  run_block. rewrite_reads.
  destruct (fr.Equal _ _).
  - cbv beta iota.
    run_block. rewrite_reads.
    run_block. rewrite_reads.
    run_lhs.
    destruct (kzg_BatchVerifySinglePoint _ _ _); cbv beta iota;
      rewrite_reads; reflexivity.
  - cbv beta iota. run_lhs. rewrite_reads. reflexivity.
Qed.

Ltac panic_early :=
  unfold Verify, Verify_body; run_block; reflexivity.

(** An index out of range stops [Verify] with a panic. *)
Lemma Verify_panics proof vk publicWitness :
  ~ well_formed proof ->
  observe (Verify proof vk publicWitness) = Panicked.
Proof.
  intros Hnwf.
  destruct proof as [lro z hs [cv brest] zs].
  destruct lro as [|L [|R [|O lro]]]; try solve [panic_early].
  destruct hs as [|h0 [|h1 [|h2 hs]]]; try solve [panic_early].
  do 7 (destruct cv as [|? cv];
        [ unfold Verify, Verify_body;
          run_to_loop_end L R O lro h0 h1 h2 hs publicWitness;
          run_block; reflexivity | ]).
  exfalso. apply Hnwf. unfold well_formed. cbn. lia.
Qed.

(** A failing quotient check returns at line 152, before the first
    statement on a [kzg.Digest]: the digest variables still hold their
    zero value. *)
Lemma Verify_digests_on_mismatch proof vk publicWitness v :
  well_formed proof ->
  digest_at_mismatch v (Verify proof vk publicWitness)
  = if fr.Equal (claimed proof 0) (quotient_at_zeta proof vk publicWitness)
    then None
    else Some Digest_zero.
Proof.
  intros Hwf. open_proof proof Hwf.
  unfold quotient_at_zeta, public_input_at, lagrange_one.
  run_rhs.
  unfold Verify, Verify_body.
  run_to_loop_end L R O lro h0 h1 h2 hs publicWitness.
  run_block. rewrite_reads.
  destruct (fr.Equal _ _).
  - cbv beta iota.
    run_block. rewrite_reads.
    run_block. rewrite_reads.
    run_lhs.
    destruct (kzg_BatchVerifySinglePoint _ _ _); cbv beta iota;
      [reflexivity|].
    destruct (kzg_Verify _ _ _); reflexivity.
  - cbv beta iota. reflexivity.
Qed.

End Execution.

(* ================================================================= *)
(** ** From the computed values to the formulas *)

Section Algebra.

Context {curve : Curve} {kzg : KZG}.

(** The quotient [Verify] computes is the expected quotient. *)
Lemma quotient_at_zeta_expected proof vk publicWitness :
  quotient_at_zeta proof vk publicWitness
  = expected_quotient proof vk publicWitness.
Proof.
  unfold quotient_at_zeta, expected_quotient. cbv zeta.
  f_equal. rewrite fr_Exp_2. ring.
Qed.

(** The digest [Verify] computes is the one of the formula: the scalars
    agree in the field. *)
Lemma linearized_polynomial_digest_formula proof vk :
  linearized_polynomial_digest proof vk = linearized_digest_formula proof vk.
Proof.
  unfold linearized_polynomial_digest, linearized_digest_formula, weighted.
  cbv zeta.
  f_equal; [f_equal; f_equal|]; f_equal; f_equal;
    rewrite ?fr_Exp_2; ring.
Qed.

Lemma wrap_int64_small z : - 2 ^ 63 <= z < 2 ^ 63 -> wrap_int64 z = z.
Proof.
  intros Hz. unfold wrap_int64. rewrite Z.mod_small; lia.
Qed.

(** Within the range of [int64] the exponent of the folding is n + 2. *)
Lemma folded_H_is_formula proof vk :
  0 <= vk_Size vk < 2 ^ 63 - 2 ->
  folded_H proof vk = folded_H_formula proof vk.
Proof.
  intros Hn. unfold folded_H, folded_H_formula, weighted. cbv zeta.
  rewrite (wrap_int64_small (vk_Size vk)) by lia.
  rewrite wrap_int64_small by lia. reflexivity.
Qed.

Lemma aggregator_step_at vk zeta k a wi :
  zeta <> fr.Exp (vk_Generator vk) (Z.of_nat k) ->
  aggregator_at vk zeta k a ->
  aggregator_at vk zeta (S k)
    (aggregator_step zeta (vk_Generator vk) a wi)
  /\ agg_pi (aggregator_step zeta (vk_Generator vk) a wi)
     = fr.Add (agg_pi a) (fr.Mul wi (lagrange_basis_at vk zeta k)).
Proof.
  intros Hz (Hl & Ha & Hd).
  assert (Hg : fr.Exp (vk_Generator vk) (Z.of_nat (S k))
               = fr.Mul (vk_Generator vk)
                   (fr.Exp (vk_Generator vk) (Z.of_nat k))).
  { rewrite Nat2Z.inj_succ. apply fr_Exp_succ. lia. }
  assert (Hinv : fr.Mul (fr.Inverse (agg_den a)) (agg_den a) = fr.One).
  { apply fr_Inverse_l. rewrite Hd. intros H0.
    apply Hz, fr_Sub_zero. exact H0. }
  unfold aggregator_step, aggregator_at.
  cbn [agg_pi agg_lagrange agg_acc agg_den].
  rewrite Hg, Ha.
  repeat split.
  - rewrite Hl. unfold lagrange_basis_at. rewrite Hg.
    rewrite <- Hd. unfold fr.Div.
    set (Z0 := fr.Sub (fr.Exp zeta (vk_Size vk)) fr.One).
    set (gk := fr.Exp (vk_Generator vk) (Z.of_nat k)).
    set (d' := fr.Inverse
                 (fr.Sub zeta (fr.Mul gk (vk_Generator vk)))).
    replace (fr.Sub zeta (fr.Mul (vk_Generator vk) gk))
      with (fr.Sub zeta (fr.Mul gk (vk_Generator vk))) by (f_equal; ring).
    fold d'.
    transitivity
      (fr.Mul (fr.Mul (fr.Inverse (agg_den a)) (agg_den a))
         (fr.Mul
            (fr.Mul (vk_SizeInv vk) (fr.Mul (vk_Generator vk) gk))
            (fr.Mul Z0 d'))); [ring|].
    rewrite Hinv. ring.
  - ring.
  - f_equal. ring.
  - rewrite Hl. ring.
Qed.

Lemma aggregator_fold_closed_form vk zeta ws : forall k a,
  (forall i, (k <= i < k + List.length ws)%nat ->
             zeta <> fr.Exp (vk_Generator vk) (Z.of_nat i)) ->
  aggregator_at vk zeta k a ->
  agg_pi (fold_left (aggregator_step zeta (vk_Generator vk)) ws a)
  = fr.Add (agg_pi a) (lagrange_sum_from vk zeta k ws).
Proof.
  induction ws as [|wi ws IH]; intros k a Hz Ha.
  - cbn [fold_left lagrange_sum_from]. ring.
  - cbn [fold_left lagrange_sum_from].
    destruct (aggregator_step_at vk zeta k a wi) as [Ha' Hpi]; trivial.
    { apply Hz. cbn [List.length]. lia. }
    rewrite (IH (S k)); trivial.
    + rewrite Hpi. ring.
    + intros i Hi. apply Hz. cbn [List.length]. lia.
Qed.

Lemma aggregator_init_at vk zeta :
  aggregator_at vk zeta 0 (aggregator_init vk zeta).
Proof.
  unfold aggregator_at, aggregator_init, lagrange_basis_at, lagrange_one.
  cbn [agg_lagrange agg_acc agg_den Z.of_nat].
  rewrite fr_Exp_0. repeat split. unfold fr.Div. ring.
Qed.

(** Off the domain points met by the loop, the recurrence computes the
    closed form. *)
Lemma public_input_at_closed_form vk zeta ws :
  (forall i, (i < List.length ws)%nat ->
             zeta <> fr.Exp (vk_Generator vk) (Z.of_nat i)) ->
  public_input_at vk zeta ws = public_input_closed_form vk zeta ws.
Proof.
  intros Hz. unfold public_input_at, public_input_closed_form.
  rewrite (aggregator_fold_closed_form vk zeta ws 0).
  - cbn [aggregator_init agg_pi]. ring.
  - intros i Hi. apply Hz. lia.
  - apply aggregator_init_at.
Qed.

(** A root of the vanishing polynomial makes the expected quotient 0. *)
Lemma expected_quotient_on_domain proof vk publicWitness :
  fr.Exp (challenge_zeta proof) (vk_Size vk) = fr.One ->
  expected_quotient proof vk publicWitness = fr.Zero.
Proof.
  intros Hz. unfold expected_quotient. cbv zeta.
  rewrite Hz.
  replace (fr.Sub fr.One fr.One) with fr.Zero by ring.
  apply fr_Div_zero.
Qed.

End Algebra.

(* ================================================================= *)
(** ** The properties of [Verify] *)

Section Properties.

Context {curve : Curve} {kzg : KZG}.

Lemma well_formedb_true proof : well_formedb proof = true <-> well_formed proof.
Proof.
  unfold well_formedb, well_formed.
  rewrite !andb_true_iff, !Nat.leb_le. tauto.
Qed.

Lemma well_formedb_false proof :
  well_formedb proof = false <-> ~ well_formed proof.
Proof.
  rewrite <- well_formedb_true. destruct (well_formedb proof); split;
    congruence.
Qed.

(** What an observation says about the result it was taken from. *)
Lemma observe_Returned r e p k w c :
  observe r = Returned e p k w c ->
  returned r = Some e /\ calls_of r = c /\ panicked r = false
  /\ exists s, final_state r = Some s
               /\ st_proof s = p /\ st_vk s = k /\ st_publicWitness s = w.
Proof.
  destruct r as [a s|e' s|]; cbn; try discriminate.
  intros H. inversion H; subst.
  repeat split; trivial. exists s. repeat split.
Qed.

Lemma observe_Panicked r :
  observe r = Panicked ->
  returned r = None /\ calls_of r = [] /\ panicked r = true
  /\ final_state r = None.
Proof. destruct r; cbn; try discriminate. repeat split. Qed.

(** The three outcomes of a well-formed call, by stage. *)
Lemma Verify_stage_quotient proof vk publicWitness :
  well_formed proof ->
  expected_quotient proof vk publicWitness <> claimed proof 0 ->
  observe (Verify proof vk publicWitness)
  = Returned (Some errWrongClaimedQuotient) proof vk publicWitness [].
Proof.
  intros Hwf Hne. rewrite Verify_observed by exact Hwf.
  unfold Verify_summary. rewrite quotient_at_zeta_expected.
  replace (fr.Equal _ _) with false; [reflexivity|].
  symmetry. apply fr_Equal_false. congruence.
Qed.

Lemma Verify_stage_batch proof vk publicWitness e :
  well_formed proof ->
  expected_quotient proof vk publicWitness = claimed proof 0 ->
  run_call (batch_call proof vk) = Some e ->
  observe (Verify proof vk publicWitness)
  = Returned (Some (kzg_failure e)) proof vk publicWitness
      [batch_call proof vk].
Proof.
  intros Hwf Heq Hb. rewrite Verify_observed by exact Hwf.
  unfold Verify_summary. rewrite quotient_at_zeta_expected.
  replace (fr.Equal _ _) with true
    by (symmetry; apply fr_Equal_true; congruence).
  rewrite Hb. reflexivity.
Qed.

Lemma Verify_stage_single proof vk publicWitness :
  well_formed proof ->
  expected_quotient proof vk publicWitness = claimed proof 0 ->
  run_call (batch_call proof vk) = None ->
  observe (Verify proof vk publicWitness)
  = Returned (kzg_result (run_call (single_call proof vk)))
      proof vk publicWitness [batch_call proof vk; single_call proof vk].
Proof.
  intros Hwf Heq Hb. rewrite Verify_observed by exact Hwf.
  unfold Verify_summary. rewrite quotient_at_zeta_expected.
  replace (fr.Equal _ _) with true
    by (symmetry; apply fr_Equal_true; congruence).
  rewrite Hb. reflexivity.
Qed.

Lemma fr_eq_dec (x y : fr.Element) : {x = y} + {x <> y}.
Proof.
  destruct (fr.Equal x y) eqn:E.
  - left. apply fr_Equal_true. exact E.
  - right. apply fr_Equal_false. exact E.
Qed.

Lemma kzg_result_not_quotient r :
  kzg_result r <> Some errWrongClaimedQuotient.
Proof. destruct r; cbn; discriminate. Qed.

Lemma kzg_result_None r : kzg_result r = None <-> r = None.
Proof. destruct r; cbn; split; congruence. Qed.

Lemma quotient_mismatch_iff_expected_differs_aux proof vk publicWitness :
  well_formed proof ->
  returned (Verify proof vk publicWitness) = Some (Some errWrongClaimedQuotient)
  <-> expected_quotient proof vk publicWitness <> claimed proof 0.
Proof.
  intros Hwf.
  destruct (fr_eq_dec (expected_quotient proof vk publicWitness)
              (claimed proof 0)) as [Heq|Hne].
  - split; [|contradiction]. intros Hret. exfalso.
    destruct (run_call (batch_call proof vk)) as [e|] eqn:Hb.
    + apply (Verify_stage_batch proof vk publicWitness e Hwf Heq),
        observe_Returned in Hb as [Hr _]. congruence.
    + apply (Verify_stage_single proof vk publicWitness Hwf Heq),
        observe_Returned in Hb as [Hr _].
      rewrite Hr in Hret. injection Hret as Hret.
      exact (kzg_result_not_quotient _ Hret).
  - split; [trivial|]. intros _.
    apply (Verify_stage_quotient proof vk publicWitness Hwf),
      observe_Returned in Hne as [Hr _]. exact Hr.
Qed.

(** C1. For a well-formed proof, [Verify] returns the quotient-mismatch
    error exactly when the expected quotient
    (linearizedPoly + PI(zeta) + alpha*zu*(a+s1+gamma)*(b+s2+gamma)*(c+gamma)
     - alpha^2*L0(zeta)) / (zeta^n - 1),
    computed from the claimed values read in the order quotient,
    linearizedPoly, a, b, c, s1, s2, differs from the claimed quotient. *)
Theorem quotient_mismatch_iff_expected_differs proof vk publicWitness :
  well_formed proof ->
  returned (Verify proof vk publicWitness) = Some (Some errWrongClaimedQuotient)
  <-> expected_quotient proof vk publicWitness <> claimed proof 0.
Proof. apply quotient_mismatch_iff_expected_differs_aux. Qed.

Lemma fr_Exp_One (n : Z) : 0 <= n -> fr.Exp fr.One n = fr.One.
Proof.
  revert n. apply natlike_ind.
  - apply fr_Exp_0.
  - intros n Hn IH. rewrite fr_Exp_succ by exact Hn. rewrite IH. ring.
Qed.

Lemma fr_Exp_Mul (x y : fr.Element) (n : Z) :
  0 <= n -> fr.Exp (fr.Mul x y) n = fr.Mul (fr.Exp x n) (fr.Exp y n).
Proof.
  revert n. apply natlike_ind.
  - rewrite !fr_Exp_0. ring.
  - intros n Hn IH. rewrite !fr_Exp_succ by exact Hn. rewrite IH. ring.
Qed.

(** A power of a generator with g^n = 1 is a root of X^n - 1. *)
Lemma fr_Exp_domain_point (g : fr.Element) (n : Z) (i : nat) :
  0 <= n -> fr.Exp g n = fr.One ->
  fr.Exp (fr.Exp g (Z.of_nat i)) n = fr.One.
Proof.
  intros Hn Hg. induction i as [|i IH].
  - cbn [Z.of_nat]. rewrite fr_Exp_0. apply fr_Exp_One, Hn.
  - rewrite Nat2Z.inj_succ, fr_Exp_succ by lia.
    rewrite fr_Exp_Mul by exact Hn. rewrite Hg, IH. ring.
Qed.

Lemma zeta_on_domain_root proof vk :
  zeta_on_domain proof vk ->
  fr.Exp (challenge_zeta proof) (vk_Size vk) = fr.One.
Proof.
  intros [Hz|(Hn & Hg & i & Hi)]; [exact Hz|].
  rewrite Hi. apply fr_Exp_domain_point; assumption.
Qed.

(** When the quotient check passes, the result and the calls are those of
    the opening checks. *)
Lemma Verify_openings_verdict proof vk publicWitness :
  well_formed proof ->
  expected_quotient proof vk publicWitness = claimed proof 0 ->
  returned (Verify proof vk publicWitness) = Some (openings_verdict proof vk)
  /\ calls_of (Verify proof vk publicWitness) = openings_calls proof vk.
Proof.
  intros Hwf Heq. unfold openings_verdict, openings_calls.
  destruct (run_call (batch_call proof vk)) as [e|] eqn:Hb.
  - apply (Verify_stage_batch proof vk publicWitness e Hwf Heq),
      observe_Returned in Hb as (Hr & Hc & _).
    split; assumption.
  - apply (Verify_stage_single proof vk publicWitness Hwf Heq),
      observe_Returned in Hb as (Hr & Hc & _).
    split; assumption.
Qed.

(** A well-formed call ends in a verdict: the quotient-mismatch error or
    what the opening checks return. *)
Lemma Verify_verdict proof vk publicWitness :
  well_formed proof ->
  exists e,
    returned (Verify proof vk publicWitness) = Some e
    /\ (e = Some errWrongClaimedQuotient \/ e = openings_verdict proof vk).
Proof.
  intros Hwf.
  destruct (fr_eq_dec (expected_quotient proof vk publicWitness)
              (claimed proof 0)) as [Heq|Hne].
  - exists (openings_verdict proof vk). split; [|right; reflexivity].
    apply Verify_openings_verdict; assumption.
  - exists (Some errWrongClaimedQuotient). split; [|left; reflexivity].
    apply (Verify_stage_quotient proof vk publicWitness Hwf),
      observe_Returned in Hne as (Hr & _).
    exact Hr.
Qed.

(** What [Verify] does when the divisor zeta^n - 1 is 0. *)
Lemma Verify_on_vanishing_divisor proof vk publicWitness :
  well_formed proof ->
  fr.Exp (challenge_zeta proof) (vk_Size vk) = fr.One ->
  expected_quotient proof vk publicWitness = fr.Zero
  /\ (claimed proof 0 <> fr.Zero ->
      returned (Verify proof vk publicWitness)
      = Some (Some errWrongClaimedQuotient)
      /\ calls_of (Verify proof vk publicWitness) = [])
  /\ (claimed proof 0 = fr.Zero ->
      returned (Verify proof vk publicWitness)
      = Some (openings_verdict proof vk)
      /\ calls_of (Verify proof vk publicWitness)
         = openings_calls proof vk).
Proof.
  intros Hwf Hz.
  pose proof (expected_quotient_on_domain proof vk publicWitness Hz) as H0.
  split; [exact H0|]. split.
  - intros Hc.
    assert (Hne : expected_quotient proof vk publicWitness
                  <> claimed proof 0) by congruence.
    apply (Verify_stage_quotient proof vk publicWitness Hwf),
      observe_Returned in Hne as (Hr & Hcalls & _).
    split; assumption.
  - intros Hc. apply Verify_openings_verdict; congruence.
Qed.

(** C2, as the code has it.  When zeta is a root of the vanishing
    polynomial, zeta^n = 1, as every domain point g^i of a key with g^n = 1
    is, the division by zeta^n - 1 raises no error: it yields 0.  The
    expected quotient is then 0 and [Verify] does not panic.  It returns
    the quotient-mismatch error exactly when the claimed quotient is not 0,
    before any opening check; otherwise it goes on to the opening checks
    and returns their verdict. *)
Theorem vanishing_divisor_yields_zero_quotient proof vk publicWitness :
  well_formed proof ->
  zeta_on_domain proof vk ->
  fr.Exp (challenge_zeta proof) (vk_Size vk) = fr.One
  /\ expected_quotient proof vk publicWitness = fr.Zero
  /\ panicked (Verify proof vk publicWitness) = false
  /\ (returned (Verify proof vk publicWitness)
        = Some (Some errWrongClaimedQuotient)
      <-> claimed proof 0 <> fr.Zero)
  /\ (claimed proof 0 <> fr.Zero ->
      calls_of (Verify proof vk publicWitness) = [])
  /\ (claimed proof 0 = fr.Zero ->
      returned (Verify proof vk publicWitness)
      = Some (openings_verdict proof vk)
      /\ calls_of (Verify proof vk publicWitness)
         = openings_calls proof vk).
Proof.
  intros Hwf Hd.
  pose proof (zeta_on_domain_root proof vk Hd) as Hz.
  destruct (Verify_on_vanishing_divisor proof vk publicWitness Hwf Hz)
    as (H0 & Hfail & Hpass).
  split; [exact Hz|]. split; [exact H0|]. split; [|split; [|split]].
  - pose proof (Verify_observed proof vk publicWitness Hwf) as Hobs.
    unfold Verify_summary in Hobs.
    destruct (fr.Equal _ _); [destruct (run_call _)|];
      apply observe_Returned in Hobs; tauto.
  - rewrite quotient_mismatch_iff_expected_differs_aux by exact Hwf.
    rewrite H0. split; congruence.
  - intros Hc. apply Hfail, Hc.
  - exact Hpass.
Qed.


Lemma Verify_final_locals proof vk publicWitness :
  well_formed proof ->
  exists s,
    final_state (Verify proof vk publicWitness) = Some s
    /\ st_fr s Var.gamma = challenge_gamma proof
    /\ st_fr s Var.alpha = challenge_alpha proof
    /\ st_fr s Var.zeta = challenge_zeta proof
    /\ st_fr s Var.pi
       = public_input_at vk (challenge_zeta proof) publicWitness
    /\ st_fr s Var.lagrangeOne = lagrange_one vk (challenge_zeta proof).
Proof.
  intros Hwf. pose proof (Verify_locals proof vk publicWitness Hwf) as H.
  unfold locals_of in H.
  destruct (final_state (Verify proof vk publicWitness)) as [s|];
    [|discriminate].
  exists s. injection H as -> -> -> -> ->. repeat split.
Qed.

Lemma fr_SetBytes_reduces bs :
  fr.ToBigIntRegular (fr.SetBytes bs) = fr.be_to_Z bs mod fr.Modulus.
Proof. apply Zmod.to_Z_of_Z. Qed.

(** C3. On a well-formed proof the three challenges are derived in the
    chained order: gamma from the label "gamma" and the encodings of
    Comm(L), Comm(R), Comm(O); alpha from the label "alpha", the value of
    gamma's slot and Comm(Z); zeta from the label "zeta", the value of
    alpha's slot and Comm(H0), Comm(H1), Comm(H2).  Each challenge is the
    digest, read as a big-endian integer, reduced modulo the field order. *)
Theorem challenges_follow_transcript_chain proof vk publicWitness :
  well_formed proof ->
  let L := commitment (proof_LRO proof) 0 in
  let R := commitment (proof_LRO proof) 1 in
  let O := commitment (proof_LRO proof) 2 in
  let H0 := commitment (proof_H proof) 0 in
  let H1 := commitment (proof_H proof) 1 in
  let H2 := commitment (proof_H proof) 2 in
  let bgamma :=
    SHA256 (list_byte_of_string "gamma" ++ Digest_Marshal L
            ++ Digest_Marshal R ++ Digest_Marshal O) in
  let balpha :=
    SHA256 (list_byte_of_string "alpha" ++ bgamma
            ++ Digest_Marshal (proof_Z proof)) in
  let bzeta :=
    SHA256 (list_byte_of_string "zeta" ++ balpha ++ Digest_Marshal H0
            ++ Digest_Marshal H1 ++ Digest_Marshal H2) in
  exists s,
    final_state (Verify proof vk publicWitness) = Some s
    /\ fr.ToBigIntRegular (st_fr s Var.gamma)
       = fr.be_to_Z bgamma mod fr.Modulus
    /\ fr.ToBigIntRegular (st_fr s Var.alpha)
       = fr.be_to_Z balpha mod fr.Modulus
    /\ fr.ToBigIntRegular (st_fr s Var.zeta)
       = fr.be_to_Z bzeta mod fr.Modulus.
Proof.
  intros Hwf. cbv zeta.
  destruct (Verify_final_locals proof vk publicWitness Hwf)
    as (s & Hs & Hg & Ha & Hz & _).
  exists s. rewrite Hg, Ha, Hz. split; [exact Hs|].
  unfold challenge_gamma, challenge_alpha, challenge_zeta.
  rewrite !fr_SetBytes_reduces. repeat split.
Qed.

Lemma Verify_calls_when_quotient_holds proof vk publicWitness :
  well_formed proof ->
  expected_quotient proof vk publicWitness = claimed proof 0 ->
  exists rest,
    calls_of (Verify proof vk publicWitness) = batch_call proof vk :: rest
    /\ (run_call (batch_call proof vk) = None ->
        rest = [single_call proof vk])
    /\ (run_call (batch_call proof vk) <> None -> rest = []).
Proof.
  intros Hwf Heq.
  destruct (run_call (batch_call proof vk)) as [e|] eqn:Hb.
  - apply (Verify_stage_batch proof vk publicWitness e Hwf Heq),
      observe_Returned in Hb as (_ & Hc & _).
    exists []. rewrite Hc. repeat split; congruence.
  - apply (Verify_stage_single proof vk publicWitness Hwf Heq),
      observe_Returned in Hb as (_ & Hc & _).
    exists [single_call proof vk]. rewrite Hc. repeat split; congruence.
Qed.

(** C4. When the quotient check of a well-formed proof passes, the second
    digest [Verify] hands to the batched opening check is
    l.Ql + r.Qr + (l.r).Qm + o.Qo + Qk
    + ([alpha.zu.(a+s1+gamma).(b+s2+gamma)].S[2]
       - [alpha.(a+zeta+gamma).(b+shift0.zeta+gamma).(c+shift1.zeta+gamma)].Z)
    + [alpha^2.L0(zeta)].Z,
    each weight applied by scalar multiplication with the canonical
    representative of the field element. *)
Theorem linearized_digest_is_the_formula proof vk publicWitness :
  well_formed proof ->
  expected_quotient proof vk publicWitness = claimed proof 0 ->
  exists foldedH others p srs rest,
    calls_of (Verify proof vk publicWitness)
    = call_BatchVerifySinglePoint
        (foldedH :: linearized_digest_formula proof vk :: others) p srs
      :: rest.
Proof.
  intros Hwf Heq.
  destruct (Verify_calls_when_quotient_holds proof vk publicWitness Hwf Heq)
    as (rest & Hc & _).
  rewrite Hc. unfold batch_call.
  rewrite linearized_polynomial_digest_formula.
  do 5 eexists. reflexivity.
Qed.

(** C5. For a well-formed proof and a key whose size n fits the [int64]
    conversion, when the quotient check passes the first digest [Verify]
    hands to the batched opening check is
    ((H2 . zeta^(n+2)) + H1) . zeta^(n+2) + H0. *)
Theorem folded_commitment_is_horner proof vk publicWitness :
  well_formed proof ->
  0 <= vk_Size vk < 2 ^ 63 - 2 ->
  expected_quotient proof vk publicWitness = claimed proof 0 ->
  exists others p srs rest,
    calls_of (Verify proof vk publicWitness)
    = call_BatchVerifySinglePoint (folded_H_formula proof vk :: others) p srs
      :: rest.
Proof.
  intros Hwf Hn Heq.
  destruct (Verify_calls_when_quotient_holds proof vk publicWitness Hwf Heq)
    as (rest & Hc & _).
  rewrite Hc. unfold batch_call.
  rewrite folded_H_is_formula by exact Hn.
  do 4 eexists. reflexivity.
Qed.

(** C6. For a well-formed proof and a zeta that is none of the domain
    points g^i, i < len(w), the loop of [Verify], which starts from
    L0(zeta) = (1/n).(zeta^n - 1)/(zeta - 1) and advances by
    L_(i+1) = L_i . g . (zeta - g^i)/(zeta - g^(i+1)), leaves in [pi] the
    sum of the w_i . L_i(zeta) over the Lagrange basis in closed form. *)
Theorem public_input_recurrence_is_closed_form proof vk publicWitness :
  well_formed proof ->
  (forall i, (i < List.length publicWitness)%nat ->
     challenge_zeta proof <> fr.Exp (vk_Generator vk) (Z.of_nat i)) ->
  exists s,
    final_state (Verify proof vk publicWitness) = Some s
    /\ st_fr s Var.lagrangeOne
       = lagrange_basis_at vk (challenge_zeta proof) 0
    /\ st_fr s Var.pi
       = public_input_closed_form vk (challenge_zeta proof) publicWitness.
Proof.
  intros Hwf Hz.
  destruct (Verify_final_locals proof vk publicWitness Hwf)
    as (s & Hs & _ & _ & _ & Hpi & Hl).
  exists s. split; [exact Hs|]. split.
  - rewrite Hl.
    exact (proj1 (aggregator_init_at vk (challenge_zeta proof))).
  - rewrite Hpi. apply public_input_at_closed_form. exact Hz.
Qed.

(** C7. On a well-formed proof [Verify] returns success exactly when the
    quotient check, the batched opening check and the single opening check
    all succeed.  A failing quotient check returns its error before any
    opening check is called; a failing batched check returns its error
    before the single check is called; otherwise the result is the one of
    the single check.  Each check is made at most once. *)
Theorem Verify_succeeds_iff_all_stages proof vk publicWitness :
  well_formed proof ->
  let quotient_ok :=
    expected_quotient proof vk publicWitness = claimed proof 0 in
  let batch := run_call (batch_call proof vk) in
  let single := run_call (single_call proof vk) in
  let r := Verify proof vk publicWitness in
  (returned r = Some None
   <-> quotient_ok /\ batch = None /\ single = None)
  /\ (~ quotient_ok ->
      returned r = Some (Some errWrongClaimedQuotient) /\ calls_of r = [])
  /\ (forall e, quotient_ok -> batch = Some e ->
      returned r = Some (Some (kzg_failure e))
      /\ calls_of r = [batch_call proof vk])
  /\ (quotient_ok -> batch = None ->
      returned r = Some (kzg_result single)
      /\ calls_of r = [batch_call proof vk; single_call proof vk]).
Proof.
  intros Hwf. cbv zeta.
  assert (Hq : ~ expected_quotient proof vk publicWitness = claimed proof 0 ->
          returned (Verify proof vk publicWitness)
          = Some (Some errWrongClaimedQuotient)
          /\ calls_of (Verify proof vk publicWitness) = []).
  { intros Hne.
    apply (Verify_stage_quotient proof vk publicWitness Hwf),
      observe_Returned in Hne. tauto. }
  assert (Hb : forall e,
          expected_quotient proof vk publicWitness = claimed proof 0 ->
          run_call (batch_call proof vk) = Some e ->
          returned (Verify proof vk publicWitness)
          = Some (Some (kzg_failure e))
          /\ calls_of (Verify proof vk publicWitness)
             = [batch_call proof vk]).
  { intros e Heq He.
    apply (Verify_stage_batch proof vk publicWitness e Hwf Heq),
      observe_Returned in He. tauto. }
  assert (Hs : expected_quotient proof vk publicWitness = claimed proof 0 ->
          run_call (batch_call proof vk) = None ->
          returned (Verify proof vk publicWitness)
          = Some (kzg_result (run_call (single_call proof vk)))
          /\ calls_of (Verify proof vk publicWitness)
             = [batch_call proof vk; single_call proof vk]).
  { intros Heq Hn.
    apply (Verify_stage_single proof vk publicWitness Hwf Heq),
      observe_Returned in Hn. tauto. }
  split; [|split; [exact Hq|split; [exact Hb|exact Hs]]].
  split.
  - intros Hret.
    destruct (fr_eq_dec (expected_quotient proof vk publicWitness)
                (claimed proof 0)) as [Heq|Hne].
    + split; [exact Heq|].
      destruct (run_call (batch_call proof vk)) as [e|] eqn:E.
      * destruct (Hb e Heq eq_refl) as [Hr _]. congruence.
      * split; [reflexivity|].
        destruct (Hs Heq eq_refl) as [Hr _].
        rewrite Hr in Hret. injection Hret as Hret.
        apply kzg_result_None. exact Hret.
    + destruct (Hq Hne) as [Hr _]. congruence.
  - intros (Heq & Hbn & Hsn).
    destruct (Hs Heq Hbn) as [Hr _]. rewrite Hr, Hsn. reflexivity.
Qed.

(** The arguments of the two calls do not depend on the generator of the
    key. *)
Lemma calls_ignore_generator proof vk g' :
  batch_call proof (set_vk_Generator g' vk) = batch_call proof vk
  /\ single_call proof (set_vk_Generator g' vk) = single_call proof vk.
Proof. destruct vk. split; reflexivity. Qed.

(** C8, as the code has it.  When the quotient check of a well-formed proof
    passes, [Verify] calls the batched opening check with the seven digests
    foldedH, the linearized digest, L, R, O, S0, S1 in this order, the
    batched proof and the parameters of the key; when that check passes it
    calls the single opening check on Z with the shifted opening proof,
    the one whose claimed value is zu, and the same parameters.  [Verify]
    does not compute zeta.g and hands neither zeta nor g to a check: with
    any other generator in the key, a call that passes the quotient check
    makes the same calls with the same arguments. *)
Theorem opening_checks_arguments proof vk publicWitness :
  well_formed proof ->
  expected_quotient proof vk publicWitness = claimed proof 0 ->
  let batch :=
    call_BatchVerifySinglePoint
      [folded_H proof vk;
       linearized_polynomial_digest proof vk;
       commitment (proof_LRO proof) 0;
       commitment (proof_LRO proof) 1;
       commitment (proof_LRO proof) 2;
       fst (fst (vk_S vk));
       snd (fst (vk_S vk))]
      (proof_BatchedProof proof) (vk_KZGSRS vk) in
  let single :=
    call_Verify (proof_Z proof) (proof_ZShiftedOpening proof)
      (vk_KZGSRS vk) in
  hd_error (calls_of (Verify proof vk publicWitness)) = Some batch
  /\ (run_call batch = None ->
      calls_of (Verify proof vk publicWitness) = [batch; single])
  /\ (run_call batch <> None ->
      calls_of (Verify proof vk publicWitness) = [batch])
  /\ (forall g',
        expected_quotient proof (set_vk_Generator g' vk) publicWitness
        = claimed proof 0 ->
        calls_of (Verify proof (set_vk_Generator g' vk) publicWitness)
        = calls_of (Verify proof vk publicWitness)).
Proof.
  intros Hwf Heq. cbv zeta.
  destruct (Verify_calls_when_quotient_holds proof vk publicWitness Hwf Heq)
    as (rest & Hc & Hpass & Hfail).
  rewrite Hc. fold (batch_call proof vk). fold (single_call proof vk).
  split; [reflexivity|]. split; [|split].
  - intros Hn. rewrite (Hpass Hn). reflexivity.
  - intros Hn. rewrite (Hfail Hn). reflexivity.
  - intros g' Heq'.
    destruct (Verify_openings_verdict proof (set_vk_Generator g' vk)
                publicWitness Hwf Heq') as [_ Hc'].
    destruct (Verify_openings_verdict proof vk publicWitness Hwf Heq)
      as [_ Hc0].
    rewrite <- Hc, Hc', Hc0. unfold openings_calls.
    destruct (calls_ignore_generator proof vk g') as [-> ->].
    reflexivity.
Qed.

Lemma well_formed_dec proof : {well_formed proof} + {~ well_formed proof}.
Proof.
  destruct (well_formedb proof) eqn:E.
  - left. apply well_formedb_true. exact E.
  - right. apply well_formedb_false. exact E.
Qed.

(** C9. Whatever the input, [Verify] leaves the objects behind [proof]
    and [vk], and the witness, as they were: when it returns, every field
    of them is as before the call; otherwise the call has panicked, and
    did so before any write.  All scalar multiplications and additions
    work on local copies. *)
Theorem Verify_keeps_proof_and_key proof vk publicWitness :
  match final_state (Verify proof vk publicWitness) with
  | Some s =>
      st_proof s = proof /\ st_vk s = vk
      /\ st_publicWitness s = publicWitness
  | None => panicked (Verify proof vk publicWitness) = true
  end.
Proof.
  destruct (well_formed_dec proof) as [Hwf|Hnwf].
  - pose proof (Verify_observed proof vk publicWitness Hwf) as Hobs.
    unfold Verify_summary in Hobs.
    destruct (fr.Equal _ _); [destruct (run_call _)|];
      apply observe_Returned in Hobs
        as (_ & _ & _ & s & -> & Hp & Hk & Hw); tauto.
  - apply (Verify_panics proof vk publicWitness), observe_Panicked in Hnwf
      as (_ & _ & Hp & ->). exact Hp.
Qed.

(** C10. [Verify] indexes [ClaimedValues] at 0 to 6 and [LRO] and [H] at 0
    to 2 without a length check.  When [ClaimedValues] has its seven
    entries and [LRO] and [H] their three, every access is in range and the
    call does not panic; for every other proof the call panics and returns
    no error value. *)
Theorem Verify_panics_iff_index_out_of_range proof vk publicWitness :
  panicked (Verify proof vk publicWitness) = negb (well_formedb proof)
  /\ (well_formedb proof = false ->
      returned (Verify proof vk publicWitness) = None).
Proof.
  destruct (well_formedb proof) eqn:E; cbn [negb].
  - apply well_formedb_true in E. split; [|discriminate].
    pose proof (Verify_observed proof vk publicWitness E) as Hobs.
    unfold Verify_summary in Hobs.
    destruct (fr.Equal _ _); [destruct (run_call _)|];
      apply observe_Returned in Hobs; tauto.
  - apply well_formedb_false in E.
    apply (Verify_panics proof vk publicWitness), observe_Panicked in E.
    split; [|intros _]; tauto.
Qed.

End Properties.

(* ================================================================= *)
(** ** The properties at the sample inputs *)

Ltac sample_well_formed :=
  unfold well_formed;
  cbn [passing_proof failing_proof domain_proof sample_proof proof_LRO
       proof_H proof_BatchedProof ClaimedValues List.length map];
  lia.

Ltac fr_compute := apply Zmod.to_Z_inj; vm_compute; reflexivity.

Ltac fr_distinct := apply fr_Equal_false; vm_compute; reflexivity.

Lemma returns_quotient_mismatch_true {curve : Curve} {kzg : KZG} r :
  returns_quotient_mismatch r = true ->
  returned r = Some (Some errWrongClaimedQuotient).
Proof.
  unfold returns_quotient_mismatch.
  destruct (returned r) as [[[]|]|]; congruence.
Qed.

Lemma returns_success_true {curve : Curve} {kzg : KZG} r :
  returns_success r = true -> returned r = Some None.
Proof.
  unfold returns_success. destruct (returned r) as [[|]|]; congruence.
Qed.

Lemma quotient_mismatch_iff_expected_differs_witness :
  well_formed failing_proof
  /\ (returned (Verify failing_proof
                  sample_key sample_witness)
      = Some (Some errWrongClaimedQuotient)
      <-> expected_quotient failing_proof
            sample_key sample_witness
          <> claimed failing_proof 0).
Proof.
  split; [sample_well_formed|].
  apply (quotient_mismatch_iff_expected_differs
           failing_proof
           sample_key sample_witness).
  sample_well_formed.
Defined.

(** With a transcript that makes every challenge 1 = g^0 and the key of the
    domain of size 4, [Verify] returns the quotient-mismatch error for the
    claimed quotient 1, and success for the claimed quotient 0 when the
    opening checks accept. *)
Lemma zeta_on_domain_gives_a_verdict :
  challenge_zeta (domain_proof 1)
  = fr.Exp (vk_Generator domain_key) 0
  /\ returned (Verify (domain_proof 1)
                 domain_key sample_witness)
     = Some (Some errWrongClaimedQuotient)
  /\ returned (Verify (domain_proof 0)
                 domain_key sample_witness)
     = Some None.
Proof.
  split; [fr_compute|]. split.
  - apply returns_quotient_mismatch_true. vm_compute. reflexivity.
  - apply returns_success_true. vm_compute. reflexivity.
Qed.

Lemma domain_proof_well_formed : well_formed (domain_proof 0).
Proof. sample_well_formed. Qed.

Lemma domain_proof_on_domain : zeta_on_domain (domain_proof 0) domain_key.
Proof.
  right. split; [cbn [domain_key sample_vk vk_Size]; lia|].
  split; [fr_compute|]. exists 0%nat. fr_compute.
Qed.

Lemma vanishing_divisor_yields_zero_quotient_witness :
  well_formed (domain_proof 0)
  /\ zeta_on_domain (domain_proof 0) domain_key
  /\ (fr.Exp (challenge_zeta (domain_proof 0)) (vk_Size domain_key) = fr.One
      /\ expected_quotient (domain_proof 0) domain_key sample_witness
         = fr.Zero
      /\ panicked (Verify (domain_proof 0) domain_key sample_witness) = false
      /\ (returned (Verify (domain_proof 0) domain_key sample_witness)
          = Some (Some errWrongClaimedQuotient)
          <-> claimed (domain_proof 0) 0 <> fr.Zero)
      /\ (claimed (domain_proof 0) 0 <> fr.Zero ->
          calls_of (Verify (domain_proof 0) domain_key sample_witness) = [])
      /\ (claimed (domain_proof 0) 0 = fr.Zero ->
          returned (Verify (domain_proof 0) domain_key sample_witness)
          = Some (openings_verdict (domain_proof 0) domain_key)
          /\ calls_of (Verify (domain_proof 0) domain_key sample_witness)
             = openings_calls (domain_proof 0) domain_key)).
Proof.
  split; [exact domain_proof_well_formed|].
  split; [exact domain_proof_on_domain|].
  exact (vanishing_divisor_yields_zero_quotient (domain_proof 0) domain_key
           sample_witness domain_proof_well_formed domain_proof_on_domain).
Defined.

Lemma challenges_follow_transcript_chain_witness :
  well_formed passing_proof
  /\ exists s,
       final_state (Verify passing_proof sample_key sample_witness) = Some s
       /\ fr.ToBigIntRegular (st_fr s Var.gamma)
          = fr.be_to_Z (gamma_bytes passing_proof) mod fr.Modulus
       /\ fr.ToBigIntRegular (st_fr s Var.alpha)
          = fr.be_to_Z (alpha_bytes passing_proof) mod fr.Modulus
       /\ fr.ToBigIntRegular (st_fr s Var.zeta)
          = fr.be_to_Z (zeta_bytes passing_proof) mod fr.Modulus.
Proof.
  split; [sample_well_formed|].
  apply (challenges_follow_transcript_chain passing_proof sample_key
           sample_witness).
  sample_well_formed.
Defined.

Lemma passing_proof_quotient :
  expected_quotient passing_proof sample_key sample_witness
  = claimed passing_proof 0.
Proof. fr_compute. Qed.

Lemma linearized_digest_is_the_formula_witness :
  well_formed passing_proof
  /\ expected_quotient passing_proof sample_key sample_witness
     = claimed passing_proof 0
  /\ exists foldedH others p srs rest,
       calls_of (Verify passing_proof sample_key sample_witness)
       = call_BatchVerifySinglePoint
           (foldedH :: linearized_digest_formula passing_proof sample_key
            :: others) p srs
         :: rest.
Proof.
  split; [sample_well_formed|]. split; [exact passing_proof_quotient|].
  apply (linearized_digest_is_the_formula passing_proof sample_key
           sample_witness).
  - sample_well_formed.
  - exact passing_proof_quotient.
Defined.

Lemma folded_commitment_is_horner_witness :
  well_formed passing_proof
  /\ 0 <= vk_Size sample_key < 2 ^ 63 - 2
  /\ expected_quotient passing_proof sample_key sample_witness
     = claimed passing_proof 0
  /\ exists others p srs rest,
       calls_of (Verify passing_proof sample_key sample_witness)
       = call_BatchVerifySinglePoint
           (folded_H_formula passing_proof sample_key :: others) p srs
         :: rest.
Proof.
  split; [sample_well_formed|].
  split; [cbn [sample_key sample_vk vk_Size]; lia|].
  split; [exact passing_proof_quotient|].
  apply (folded_commitment_is_horner passing_proof sample_key
           sample_witness).
  - sample_well_formed.
  - cbn [sample_key sample_vk vk_Size]. lia.
  - exact passing_proof_quotient.
Defined.

Lemma sample_zeta_off_domain :
  forall i, (i < List.length sample_witness)%nat ->
    challenge_zeta passing_proof
    <> fr.Exp (vk_Generator sample_key) (Z.of_nat i).
Proof.
  intros i Hi. destruct i as [|[|i]]; [fr_distinct|fr_distinct|].
  cbn [sample_witness List.length] in Hi. lia.
Qed.

Lemma public_input_recurrence_is_closed_form_witness :
  well_formed passing_proof
  /\ (forall i, (i < List.length sample_witness)%nat ->
        challenge_zeta passing_proof
        <> fr.Exp (vk_Generator sample_key) (Z.of_nat i))
  /\ exists s,
       final_state (Verify passing_proof sample_key sample_witness) = Some s
       /\ st_fr s Var.lagrangeOne
          = lagrange_basis_at sample_key (challenge_zeta passing_proof) 0
       /\ st_fr s Var.pi
          = public_input_closed_form sample_key
              (challenge_zeta passing_proof) sample_witness.
Proof.
  split; [sample_well_formed|]. split; [exact sample_zeta_off_domain|].
  apply (public_input_recurrence_is_closed_form passing_proof sample_key
           sample_witness).
  - sample_well_formed.
  - exact sample_zeta_off_domain.
Defined.

Lemma passing_proof_well_formed : well_formed passing_proof.
Proof. sample_well_formed. Qed.

Lemma passing_proof_batch_accepted :
  run_call (batch_call passing_proof sample_key) = None.
Proof. reflexivity. Qed.

Lemma passing_proof_single_accepted :
  run_call (single_call passing_proof sample_key) = None.
Proof. reflexivity. Qed.

Lemma Verify_succeeds_iff_all_stages_witness :
  well_formed passing_proof
  /\ returned (Verify passing_proof sample_key sample_witness) = Some None.
Proof.
  split; [exact passing_proof_well_formed|].
  exact (proj2
           (proj1 (Verify_succeeds_iff_all_stages passing_proof sample_key
                     sample_witness passing_proof_well_formed))
           (conj passing_proof_quotient
              (conj passing_proof_batch_accepted
                 passing_proof_single_accepted))).
Defined.

Lemma opening_checks_arguments_witness :
  well_formed passing_proof
  /\ expected_quotient passing_proof sample_key sample_witness
     = claimed passing_proof 0
  /\ (hd_error (calls_of (Verify passing_proof sample_key sample_witness))
      = Some (batch_call passing_proof sample_key)
      /\ (run_call (batch_call passing_proof sample_key) = None ->
          calls_of (Verify passing_proof sample_key sample_witness)
          = [batch_call passing_proof sample_key;
             single_call passing_proof sample_key])
      /\ (run_call (batch_call passing_proof sample_key) <> None ->
          calls_of (Verify passing_proof sample_key sample_witness)
          = [batch_call passing_proof sample_key])
      /\ (forall g',
            expected_quotient passing_proof
              (set_vk_Generator g' sample_key) sample_witness
            = claimed passing_proof 0 ->
            calls_of (Verify passing_proof (set_vk_Generator g' sample_key)
                        sample_witness)
            = calls_of (Verify passing_proof sample_key sample_witness))).
Proof.
  split; [exact passing_proof_well_formed|].
  split; [exact passing_proof_quotient|].
  exact (opening_checks_arguments passing_proof sample_key sample_witness
           passing_proof_well_formed passing_proof_quotient).
Defined.

(* ================================================================= *)
(** ** Further properties of [Verify] *)

Section Coverage.

Context {curve : Curve} {kzg : KZG}.

(** The verdict and the calls depend on the witness through the expected
    quotient alone. *)
Lemma Verify_verdict_by_quotient proof vk w1 w2 :
  expected_quotient proof vk w1 = expected_quotient proof vk w2 ->
  returned (Verify proof vk w1) = returned (Verify proof vk w2)
  /\ calls_of (Verify proof vk w1) = calls_of (Verify proof vk w2).
Proof.
  intros Hq. destruct (well_formed_dec proof) as [Hwf|Hnwf].
  - destruct (fr_eq_dec (expected_quotient proof vk w1) (claimed proof 0))
      as [He|Hne].
    + assert (He2 : expected_quotient proof vk w2 = claimed proof 0)
        by congruence.
      destruct (run_call (batch_call proof vk)) as [e|] eqn:Hb.
      * destruct (observe_Returned _ _ _ _ _ _
                    (Verify_stage_batch proof vk w1 e Hwf He Hb))
          as (-> & -> & _).
        destruct (observe_Returned _ _ _ _ _ _
                    (Verify_stage_batch proof vk w2 e Hwf He2 Hb))
          as (-> & -> & _).
        split; reflexivity.
      * destruct (observe_Returned _ _ _ _ _ _
                    (Verify_stage_single proof vk w1 Hwf He Hb))
          as (-> & -> & _).
        destruct (observe_Returned _ _ _ _ _ _
                    (Verify_stage_single proof vk w2 Hwf He2 Hb))
          as (-> & -> & _).
        split; reflexivity.
    + assert (Hne2 : expected_quotient proof vk w2 <> claimed proof 0)
        by congruence.
      destruct (observe_Returned _ _ _ _ _ _
                  (Verify_stage_quotient proof vk w1 Hwf Hne))
        as (-> & -> & _).
      destruct (observe_Returned _ _ _ _ _ _
                  (Verify_stage_quotient proof vk w2 Hwf Hne2))
        as (-> & -> & _).
      split; reflexivity.
  - destruct (observe_Panicked _ (Verify_panics proof vk w1 Hnwf))
      as (-> & -> & _).
    destruct (observe_Panicked _ (Verify_panics proof vk w2 Hnwf))
      as (-> & -> & _).
    split; reflexivity.
Qed.

(** A zero entry of the witness leaves [pi] as it is. *)
Lemma aggregator_fold_zeros zeta g k : forall a,
  agg_pi (fold_left (aggregator_step zeta g) (repeat fr.Zero k) a)
  = agg_pi a.
Proof.
  induction k as [|k IH]; intros a; [reflexivity|].
  cbn [repeat fold_left]. rewrite IH.
  unfold aggregator_step. cbn [agg_pi]. ring.
Qed.

(** Once [lagrange] is 0 it stays 0, and [pi] no longer moves. *)
Lemma aggregator_fold_stalled zeta g ws : forall a,
  agg_lagrange a = fr.Zero ->
  agg_pi (fold_left (aggregator_step zeta g) ws a) = agg_pi a.
Proof.
  induction ws as [|wi ws IH]; intros a Ha; [reflexivity|].
  cbn [fold_left]. rewrite IH.
  - unfold aggregator_step. cbn [agg_pi]. rewrite Ha. ring.
  - unfold aggregator_step. cbn [agg_lagrange]. rewrite Ha.
    unfold fr.Div. ring.
Qed.

(** The invariant of the loop along a whole prefix of the witness. *)
Lemma aggregator_fold_at vk zeta ws : forall k a,
  (forall i, (k <= i < k + List.length ws)%nat ->
             zeta <> fr.Exp (vk_Generator vk) (Z.of_nat i)) ->
  aggregator_at vk zeta k a ->
  aggregator_at vk zeta (k + List.length ws)
    (fold_left (aggregator_step zeta (vk_Generator vk)) ws a).
Proof.
  induction ws as [|wi ws IH]; intros k a Hz Ha.
  - cbn [fold_left List.length]. rewrite Nat.add_0_r. exact Ha.
  - cbn [fold_left List.length].
    destruct (aggregator_step_at vk zeta k a wi) as [Ha' _]; trivial.
    { apply Hz. cbn [List.length]. lia. }
    replace (k + S (List.length ws))%nat with (S k + List.length ws)%nat
      by lia.
    apply IH; trivial.
    intros i Hi. apply Hz. cbn [List.length]. lia.
Qed.

(** At the first domain point zeta = g^k the recurrence stops adding: [pi]
    is the closed form over the first [k] entries. *)
Lemma public_input_at_domain_point vk zeta ws k :
  zeta = fr.Exp (vk_Generator vk) (Z.of_nat k) ->
  (forall i, (i < k)%nat -> zeta <> fr.Exp (vk_Generator vk) (Z.of_nat i)) ->
  public_input_at vk zeta ws
  = public_input_closed_form vk zeta (firstn k ws).
Proof.
  intros Hk Hz.
  destruct (Nat.le_gt_cases (List.length ws) k) as [Hlen|Hlen].
  - rewrite firstn_all2 by exact Hlen.
    apply public_input_at_closed_form.
    intros i Hi. apply Hz. lia.
  - unfold public_input_at.
    rewrite <- (firstn_skipn k ws) at 1. rewrite fold_left_app.
    assert (Hfl : List.length (firstn k ws) = k)
      by (apply firstn_length_le; lia).
    assert (Hz' : forall i, (0 <= i < 0 + List.length (firstn k ws))%nat ->
                    zeta <> fr.Exp (vk_Generator vk) (Z.of_nat i)).
    { intros i Hi. apply Hz. lia. }
    pose proof (aggregator_fold_at vk zeta (firstn k ws) 0 _ Hz'
                  (aggregator_init_at vk zeta)) as Hat.
    rewrite Hfl in Hat. cbn [Nat.add] in Hat.
    rewrite aggregator_fold_stalled.
    + rewrite (aggregator_fold_closed_form vk zeta (firstn k ws) 0);
        [ | exact Hz' | apply aggregator_init_at ].
      unfold public_input_closed_form.
      cbn [aggregator_init agg_pi]. ring.
    + destruct Hat as (Hl & _). rewrite Hl.
      unfold lagrange_basis_at. rewrite <- Hk.
      replace (fr.Sub zeta zeta) with fr.Zero by ring.
      rewrite fr_Div_zero. ring.
Qed.

(** The loop is additive in the witness. *)
Lemma aggregator_fold_additive zeta g : forall w1 w2 a1 a2 a,
  List.length w1 = List.length w2 ->
  agg_lagrange a1 = agg_lagrange a -> agg_lagrange a2 = agg_lagrange a ->
  agg_acc a1 = agg_acc a -> agg_acc a2 = agg_acc a ->
  agg_den a1 = agg_den a -> agg_den a2 = agg_den a ->
  agg_pi a = fr.Add (agg_pi a1) (agg_pi a2) ->
  agg_pi (fold_left (aggregator_step zeta g) (witness_Add w1 w2) a)
  = fr.Add (agg_pi (fold_left (aggregator_step zeta g) w1 a1))
           (agg_pi (fold_left (aggregator_step zeta g) w2 a2)).
Proof.
  induction w1 as [|x w1 IH]; intros [|y w2] a1 a2 a Hlen Hl1 Hl2 Hc1 Hc2
    Hd1 Hd2 Hpi; try discriminate Hlen.
  - exact Hpi.
  - cbn [witness_Add fold_left].
    apply IH; unfold aggregator_step;
      cbn [agg_pi agg_lagrange agg_acc agg_den].
    + cbn [List.length] in Hlen. lia.
    + rewrite Hl1, Hd1, Hc1. reflexivity.
    + rewrite Hl2, Hd2, Hc2. reflexivity.
    + rewrite Hc1. reflexivity.
    + rewrite Hc2. reflexivity.
    + rewrite Hc1. reflexivity.
    + rewrite Hc2. reflexivity.
    + rewrite Hpi, Hl1, Hl2. ring.
Qed.

Lemma commitment_firstn ds i :
  (i < 3)%nat -> commitment ds i = commitment (firstn 3 ds) i.
Proof.
  intros Hi. unfold commitment. rewrite nth_firstn.
  destruct (Nat.ltb_spec i 3); [reflexivity|lia].
Qed.

Lemma challenges_by_commitments proof1 proof2 :
  firstn 3 (proof_LRO proof1) = firstn 3 (proof_LRO proof2) ->
  proof_Z proof1 = proof_Z proof2 ->
  firstn 3 (proof_H proof1) = firstn 3 (proof_H proof2) ->
  challenge_gamma proof1 = challenge_gamma proof2
  /\ challenge_alpha proof1 = challenge_alpha proof2
  /\ challenge_zeta proof1 = challenge_zeta proof2.
Proof.
  intros HL HZ HH.
  assert (Hg : gamma_bytes proof1 = gamma_bytes proof2).
  { unfold gamma_bytes.
    rewrite !(commitment_firstn (proof_LRO proof1)) by lia.
    rewrite HL.
    rewrite <- !(commitment_firstn (proof_LRO proof2)) by lia.
    reflexivity. }
  assert (Ha : alpha_bytes proof1 = alpha_bytes proof2).
  { unfold alpha_bytes. rewrite Hg, HZ. reflexivity. }
  assert (Hz : zeta_bytes proof1 = zeta_bytes proof2).
  { unfold zeta_bytes.
    rewrite !(commitment_firstn (proof_H proof1)) by lia.
    rewrite HH, Ha.
    rewrite <- !(commitment_firstn (proof_H proof2)) by lia.
    reflexivity. }
  unfold challenge_gamma, challenge_alpha, challenge_zeta.
  rewrite Hg, Ha, Hz. repeat split.
Qed.

(** X1. Whatever the input, [Verify] returns no error of the transcript:
    none of the [return err] of lines 37-83 is taken.  Each label is bound
    before its challenge is computed, and the challenges are computed in
    the order they were registered. *)
Theorem Verify_returns_no_transcript_error proof vk publicWitness :
  returns_transcript_error (Verify proof vk publicWitness) = false.
Proof.
  unfold returns_transcript_error.
  destruct (well_formed_dec proof) as [Hwf|Hnwf].
  - destruct (fr_eq_dec (expected_quotient proof vk publicWitness)
                (claimed proof 0)) as [He|Hne].
    + destruct (run_call (batch_call proof vk)) as [e|] eqn:Hb.
      * destruct (observe_Returned _ _ _ _ _ _
                    (Verify_stage_batch proof vk publicWitness e Hwf He Hb))
          as (-> & _).
        reflexivity.
      * destruct (observe_Returned _ _ _ _ _ _
                    (Verify_stage_single proof vk publicWitness Hwf He Hb))
          as (-> & _).
        destruct (run_call (single_call proof vk)); reflexivity.
    + destruct (observe_Returned _ _ _ _ _ _
                  (Verify_stage_quotient proof vk publicWitness Hwf Hne))
        as (-> & _).
      reflexivity.
  - destruct (observe_Panicked _ (Verify_panics proof vk publicWitness Hnwf))
      as (-> & _).
    reflexivity.
Qed.

(** X2. Zero entries appended to the public witness change neither the
    error [Verify] returns nor the calls it makes into [kzg]: the loop of
    lines 104-115 adds [lagrange * 0] to [pi] for each of them. *)
Theorem trailing_zeros_are_ignored proof vk publicWitness k :
  returned (Verify proof vk (publicWitness ++ repeat fr.Zero k))
  = returned (Verify proof vk publicWitness)
  /\ calls_of (Verify proof vk (publicWitness ++ repeat fr.Zero k))
     = calls_of (Verify proof vk publicWitness).
Proof.
  apply Verify_verdict_by_quotient.
  unfold expected_quotient, public_input_at. cbv zeta.
  rewrite fold_left_app, aggregator_fold_zeros. reflexivity.
Qed.

(** X3. The loop of lines 104-115 is additive in the public witness: for
    two witnesses of the same length, [pi] at the end of [Verify] on their
    entrywise sum is the sum of [pi] at the end of [Verify] on each.  This
    holds at every zeta, the domain points included. *)
Theorem public_input_is_additive proof vk w1 w2 :
  well_formed proof ->
  List.length w1 = List.length w2 ->
  exists s1 s2 s,
    final_state (Verify proof vk w1) = Some s1
    /\ final_state (Verify proof vk w2) = Some s2
    /\ final_state (Verify proof vk (witness_Add w1 w2)) = Some s
    /\ st_fr s Var.pi = fr.Add (st_fr s1 Var.pi) (st_fr s2 Var.pi).
Proof.
  intros Hwf Hlen.
  destruct (Verify_final_locals proof vk w1 Hwf)
    as (s1 & Hs1 & _ & _ & _ & Hpi1 & _).
  destruct (Verify_final_locals proof vk w2 Hwf)
    as (s2 & Hs2 & _ & _ & _ & Hpi2 & _).
  destruct (Verify_final_locals proof vk (witness_Add w1 w2) Hwf)
    as (s & Hs & _ & _ & _ & Hpi & _).
  exists s1, s2, s. repeat (split; [assumption|]).
  rewrite Hpi, Hpi1, Hpi2. unfold public_input_at.
  apply aggregator_fold_additive; try reflexivity; try assumption.
Qed.

(** X4. When zeta is the domain point g^k and none of the earlier ones, the
    division by zeta - g^k at lines 102 and 114 yields 0 and [lagrange] is
    0 from then on: [Verify] ends with [pi] holding the closed-form sum
    over the first [k] witness entries only.  No error is raised. *)
Theorem recurrence_stops_at_domain_point proof vk publicWitness k :
  well_formed proof ->
  challenge_zeta proof = fr.Exp (vk_Generator vk) (Z.of_nat k) ->
  (forall i, (i < k)%nat ->
     challenge_zeta proof <> fr.Exp (vk_Generator vk) (Z.of_nat i)) ->
  exists s,
    final_state (Verify proof vk publicWitness) = Some s
    /\ st_fr s Var.pi
       = public_input_closed_form vk (challenge_zeta proof)
           (firstn k publicWitness).
Proof.
  intros Hwf Hk Hz.
  destruct (Verify_final_locals proof vk publicWitness Hwf)
    as (s & Hs & _ & _ & _ & Hpi & _).
  exists s. split; [exact Hs|].
  rewrite Hpi. apply public_input_at_domain_point; assumption.
Qed.

(** X5. The challenges [Verify] derives depend on the seven commitments
    L, R, O, Z, H0, H1, H2 alone: two calls on well-formed proofs with the
    same commitments end with the same gamma, alpha and zeta, whatever the
    verifying keys, the public witnesses and the claimed values.  Neither
    the key nor the public inputs enter the transcript of lines 36-86. *)
Theorem challenges_ignore_key_and_witness proof1 proof2 vk1 vk2 w1 w2 :
  well_formed proof1 ->
  well_formed proof2 ->
  firstn 3 (proof_LRO proof1) = firstn 3 (proof_LRO proof2) ->
  proof_Z proof1 = proof_Z proof2 ->
  firstn 3 (proof_H proof1) = firstn 3 (proof_H proof2) ->
  exists s1 s2,
    final_state (Verify proof1 vk1 w1) = Some s1
    /\ final_state (Verify proof2 vk2 w2) = Some s2
    /\ st_fr s1 Var.gamma = st_fr s2 Var.gamma
    /\ st_fr s1 Var.alpha = st_fr s2 Var.alpha
    /\ st_fr s1 Var.zeta = st_fr s2 Var.zeta.
Proof.
  intros Hwf1 Hwf2 HL HZ HH.
  destruct (Verify_final_locals proof1 vk1 w1 Hwf1)
    as (s1 & Hs1 & Hg1 & Ha1 & Hz1 & _).
  destruct (Verify_final_locals proof2 vk2 w2 Hwf2)
    as (s2 & Hs2 & Hg2 & Ha2 & Hz2 & _).
  destruct (challenges_by_commitments proof1 proof2 HL HZ HH)
    as (Hg & Ha & Hz).
  exists s1, s2. repeat (split; [assumption|]).
  rewrite Hg1, Ha1, Hz1, Hg2, Ha2, Hz2. repeat split; assumption.
Qed.

(** X6. A failing quotient check makes [Verify] return at line 152 before
    any work in the group: every [kzg.Digest] variable still holds its
    zero value and no call into [kzg] has been made. *)
Theorem quotient_mismatch_precedes_group_work proof vk publicWitness :
  well_formed proof ->
  expected_quotient proof vk publicWitness <> claimed proof 0 ->
  exists s,
    final_state (Verify proof vk publicWitness) = Some s
    /\ (forall v, st_g1 s v = Digest_zero)
    /\ st_calls s = [].
Proof.
  intros Hwf Hne.
  assert (Hd : forall v,
            digest_at_mismatch v (Verify proof vk publicWitness)
            = Some Digest_zero).
  { intros v. rewrite Verify_digests_on_mismatch by exact Hwf.
    rewrite quotient_at_zeta_expected.
    replace (fr.Equal _ _) with false; [reflexivity|].
    symmetry. apply fr_Equal_false. congruence. }
  destruct (observe_Returned _ _ _ _ _ _
              (Verify_stage_quotient proof vk publicWitness Hwf Hne))
    as (_ & Hc & _).
  destruct (Verify proof vk publicWitness) as [a s|[[| |]|] s|];
    try (specialize (Hd Var.tmp); discriminate Hd).
  exists s. split; [reflexivity|]. split; [|exact Hc].
  intros v. specialize (Hd v). cbn in Hd. congruence.
Qed.

(** X7. The public witness reaches the opening checks through the quotient
    check alone: two witnesses that both pass it lead to the same calls
    into [kzg] with the same arguments, and to the same result. *)
Theorem openings_ignore_public_witness proof vk w1 w2 :
  expected_quotient proof vk w1 = claimed proof 0 ->
  expected_quotient proof vk w2 = claimed proof 0 ->
  returned (Verify proof vk w1) = returned (Verify proof vk w2)
  /\ calls_of (Verify proof vk w1) = calls_of (Verify proof vk w2).
Proof.
  intros H1 H2. apply Verify_verdict_by_quotient. congruence.
Qed.

(** The verdict and the calls depend on the key and the witness through the
    expected quotient and the arguments of the two calls. *)
Lemma Verify_verdict_by_key proof vk vk' w w' :
  expected_quotient proof vk' w' = expected_quotient proof vk w ->
  batch_call proof vk' = batch_call proof vk ->
  single_call proof vk' = single_call proof vk ->
  returned (Verify proof vk' w') = returned (Verify proof vk w)
  /\ calls_of (Verify proof vk' w') = calls_of (Verify proof vk w).
Proof.
  intros Hq Hb Hs. destruct (well_formed_dec proof) as [Hwf|Hnwf].
  - destruct (fr_eq_dec (expected_quotient proof vk w) (claimed proof 0))
      as [He|Hne].
    + assert (He' : expected_quotient proof vk' w' = claimed proof 0)
        by congruence.
      destruct (Verify_openings_verdict proof vk w Hwf He) as [-> ->].
      destruct (Verify_openings_verdict proof vk' w' Hwf He') as [-> ->].
      unfold openings_verdict, openings_calls. rewrite Hb, Hs.
      split; reflexivity.
    + assert (Hne' : expected_quotient proof vk' w' <> claimed proof 0)
        by congruence.
      destruct (observe_Returned _ _ _ _ _ _
                  (Verify_stage_quotient proof vk w Hwf Hne))
        as (-> & -> & _).
      destruct (observe_Returned _ _ _ _ _ _
                  (Verify_stage_quotient proof vk' w' Hwf Hne'))
        as (-> & -> & _).
      split; reflexivity.
  - destruct (observe_Panicked _ (Verify_panics proof vk w Hnwf))
      as (-> & -> & _).
    destruct (observe_Panicked _ (Verify_panics proof vk' w' Hnwf))
      as (-> & -> & _).
    split; reflexivity.
Qed.

(** Without public inputs the generator of the key is not read. *)
Lemma expected_quotient_without_input proof vk g' :
  expected_quotient proof (set_vk_Generator g' vk) []
  = expected_quotient proof vk [].
Proof. destruct vk. reflexivity. Qed.

Lemma fr_Mul_cancel_l (z x y : fr.Element) :
  z <> fr.Zero -> x <> y -> fr.Mul z x <> fr.Mul z y.
Proof.
  intros Hz Hxy H. apply Hxy.
  transitivity (fr.Mul (fr.Mul (fr.Inverse z) z) x).
  { rewrite fr_Inverse_l by exact Hz. ring. }
  transitivity (fr.Mul (fr.Inverse z) (fr.Mul z x)); [ring|].
  rewrite H.
  transitivity (fr.Mul (fr.Mul (fr.Inverse z) z) y); [ring|].
  rewrite fr_Inverse_l by exact Hz. ring.
Qed.

End Coverage.

(* ================================================================= *)
(** ** The further properties at the sample inputs *)

Lemma failing_proof_well_formed : well_formed failing_proof.
Proof. sample_well_formed. Qed.

(** C2, refuted as stated: no division by zero makes [Verify] return an
    error of its own; the call ends in a pass or fail verdict.
    - Whatever the hash, the group and the opening checks are: on a key of
      size 0 the divisor zeta^n - 1 of line 148 is 0 for every proof, and
      [Verify] returns the quotient-mismatch error when the claimed
      quotient is not 0, and what the opening checks return when it is.
    - Whatever they are: on a key whose generator is the zeta of the proof,
      with a public witness that is not empty, the divisor zeta - g of
      line 114 is 0 in the first turn of the loop, and [Verify] returns
      the quotient-mismatch error or what the opening checks return.
    - On the key of the domain of size 4, with a transcript crafted to make
      zeta = 1 = g^0: the quotient-mismatch error for the claimed quotient
      1, success for the claimed quotient 0. *)
Lemma division_by_zero_gives_a_verdict :
  (forall (curve : Curve) (kzg : KZG) (proof : PlonkProof)
          (vk : VerifyingKey) (publicWitness : list fr.Element),
     well_formed proof ->
     vk_Size vk = 0 ->
     fr.Sub (fr.Exp (challenge_zeta proof) (vk_Size vk)) fr.One = fr.Zero
     /\ (claimed proof 0 <> fr.Zero ->
         returned (Verify proof vk publicWitness)
         = Some (Some errWrongClaimedQuotient))
     /\ (claimed proof 0 = fr.Zero ->
         returned (Verify proof vk publicWitness)
         = Some (openings_verdict proof vk)))
  /\ (forall (curve : Curve) (kzg : KZG) (proof : PlonkProof)
             (vk : VerifyingKey) (w0 : fr.Element) (rest : list fr.Element),
        well_formed proof ->
        vk_Generator vk = challenge_zeta proof ->
        fr.Sub (challenge_zeta proof) (fr.Mul fr.One (vk_Generator vk))
        = fr.Zero
        /\ exists e,
             returned (Verify proof vk (w0 :: rest)) = Some e
             /\ (e = Some errWrongClaimedQuotient
                 \/ e = openings_verdict proof vk))
  /\ (challenge_zeta (domain_proof 1) = fr.Exp (vk_Generator domain_key) 0
      /\ returned (Verify (domain_proof 1) domain_key sample_witness)
         = Some (Some errWrongClaimedQuotient)
      /\ returned (Verify (domain_proof 0) domain_key sample_witness)
         = Some None).
Proof.
  split; [|split].
  - intros curve kzg proof vk publicWitness Hwf Hn.
    assert (Hz : fr.Exp (challenge_zeta proof) (vk_Size vk) = fr.One)
      by (rewrite Hn; apply fr_Exp_0).
    destruct (Verify_on_vanishing_divisor proof vk publicWitness Hwf Hz)
      as (_ & Hfail & Hpass).
    split; [rewrite Hz; ring|]. split.
    + intros Hc. apply Hfail, Hc.
    + intros Hc. apply Hpass, Hc.
  - intros curve kzg proof vk w0 rest Hwf Hg.
    split; [rewrite Hg; ring|].
    apply Verify_verdict, Hwf.
  - exact zeta_on_domain_gives_a_verdict.
Qed.

Lemma no_input_proof_accepted :
  returned (Verify no_input_proof sample_key []) = Some None
  /\ returned (Verify no_input_proof other_generator_key []) = Some None.
Proof.
  split; apply returns_success_true; vm_compute; reflexivity.
Qed.

Lemma no_input_proof_points_differ :
  fr.Mul (challenge_zeta no_input_proof) (vk_Generator sample_key)
  <> fr.Mul (challenge_zeta no_input_proof)
       (vk_Generator other_generator_key).
Proof. fr_distinct. Qed.

(** C8, refuted as stated: the single opening check is not tied to the
    point zeta.g.
    - Whatever the hash, the group and the opening checks are: replacing
      the generator g of the key by any g' leaves the arguments of both
      calls as they are, and with no public input it changes neither what
      [Verify] returns nor the calls it makes.
    - For zeta other than 0 and g' other than g, the points zeta.g and
      zeta.g' differ.
    - On the sample key and on the same key with generator 7, [Verify]
      accepts the same proof, with shifted points that differ. *)
Lemma openings_ignore_the_generator :
  (forall (curve : Curve) (kzg : KZG) (proof : PlonkProof)
          (vk : VerifyingKey) (g' : fr.Element),
     batch_call proof (set_vk_Generator g' vk) = batch_call proof vk
     /\ single_call proof (set_vk_Generator g' vk) = single_call proof vk
     /\ returned (Verify proof (set_vk_Generator g' vk) [])
        = returned (Verify proof vk [])
     /\ calls_of (Verify proof (set_vk_Generator g' vk) [])
        = calls_of (Verify proof vk []))
  /\ (forall zeta g g' : fr.Element,
        zeta <> fr.Zero -> g <> g' -> fr.Mul zeta g <> fr.Mul zeta g')
  /\ (returned (Verify no_input_proof sample_key []) = Some None
      /\ returned (Verify no_input_proof other_generator_key [])
         = Some None
      /\ fr.Mul (challenge_zeta no_input_proof) (vk_Generator sample_key)
         <> fr.Mul (challenge_zeta no_input_proof)
              (vk_Generator other_generator_key)).
Proof.
  split; [|split].
  - intros curve kzg proof vk g'.
    destruct (calls_ignore_generator proof vk g') as [Hb Hs].
    split; [exact Hb|]. split; [exact Hs|].
    apply Verify_verdict_by_key; trivial.
    apply expected_quotient_without_input.
  - intros zeta g g'. apply fr_Mul_cancel_l.
  - destruct no_input_proof_accepted as [H1 H2].
    split; [exact H1|]. split; [exact H2|].
    exact no_input_proof_points_differ.
Qed.

Lemma failing_proof_quotient :
  expected_quotient failing_proof sample_key sample_witness
  <> claimed failing_proof 0.
Proof. fr_distinct. Qed.

Lemma passing_proof_quotient_padded :
  expected_quotient passing_proof sample_key (sample_witness ++ [fr.Zero])
  = claimed passing_proof 0.
Proof. fr_compute. Qed.

Lemma generator_proof_well_formed : well_formed generator_proof.
Proof. unfold generator_proof. sample_well_formed. Qed.

Lemma generator_proof_zeta :
  challenge_zeta generator_proof
  = fr.Exp (vk_Generator generator_key) (Z.of_nat 1).
Proof. fr_compute. Qed.

Lemma generator_proof_zeta_first :
  forall i, (i < 1)%nat ->
    challenge_zeta generator_proof
    <> fr.Exp (vk_Generator generator_key) (Z.of_nat i).
Proof. intros [|i] Hi; [fr_distinct|lia]. Qed.

Lemma public_input_is_additive_witness :
  well_formed passing_proof
  /\ List.length sample_witness = List.length sample_witness
  /\ exists s1 s2 s,
       final_state (Verify passing_proof sample_key sample_witness) = Some s1
       /\ final_state (Verify passing_proof sample_key sample_witness)
          = Some s2
       /\ final_state
            (Verify passing_proof sample_key
               (witness_Add sample_witness sample_witness))
          = Some s
       /\ st_fr s Var.pi = fr.Add (st_fr s1 Var.pi) (st_fr s2 Var.pi).
Proof.
  split; [exact passing_proof_well_formed|]. split; [reflexivity|].
  exact (public_input_is_additive passing_proof sample_key sample_witness
           sample_witness passing_proof_well_formed eq_refl).
Defined.

Lemma recurrence_stops_at_domain_point_witness :
  well_formed generator_proof
  /\ challenge_zeta generator_proof
     = fr.Exp (vk_Generator generator_key) (Z.of_nat 1)
  /\ (forall i, (i < 1)%nat ->
        challenge_zeta generator_proof
        <> fr.Exp (vk_Generator generator_key) (Z.of_nat i))
  /\ exists s,
       final_state (Verify generator_proof generator_key sample_witness)
       = Some s
       /\ st_fr s Var.pi
          = public_input_closed_form generator_key
              (challenge_zeta generator_proof) (firstn 1 sample_witness).
Proof.
  split; [exact generator_proof_well_formed|].
  split; [exact generator_proof_zeta|].
  split; [exact generator_proof_zeta_first|].
  exact (recurrence_stops_at_domain_point generator_proof generator_key
           sample_witness 1 generator_proof_well_formed generator_proof_zeta
           generator_proof_zeta_first).
Defined.

Lemma challenges_ignore_key_and_witness_witness :
  well_formed passing_proof
  /\ well_formed failing_proof
  /\ firstn 3 (proof_LRO passing_proof) = firstn 3 (proof_LRO failing_proof)
  /\ proof_Z passing_proof = proof_Z failing_proof
  /\ firstn 3 (proof_H passing_proof) = firstn 3 (proof_H failing_proof)
  /\ exists s1 s2,
       final_state (Verify passing_proof sample_key sample_witness) = Some s1
       /\ final_state (Verify failing_proof sample_key []) = Some s2
       /\ st_fr s1 Var.gamma = st_fr s2 Var.gamma
       /\ st_fr s1 Var.alpha = st_fr s2 Var.alpha
       /\ st_fr s1 Var.zeta = st_fr s2 Var.zeta.
Proof.
  split; [exact passing_proof_well_formed|].
  split; [exact failing_proof_well_formed|].
  split; [reflexivity|]. split; [reflexivity|]. split; [reflexivity|].
  exact (challenges_ignore_key_and_witness passing_proof failing_proof
           sample_key sample_key sample_witness []
           passing_proof_well_formed failing_proof_well_formed
           eq_refl eq_refl eq_refl).
Defined.

Lemma quotient_mismatch_precedes_group_work_witness :
  well_formed failing_proof
  /\ expected_quotient failing_proof sample_key sample_witness
     <> claimed failing_proof 0
  /\ exists s,
       final_state (Verify failing_proof sample_key sample_witness) = Some s
       /\ (forall v, st_g1 s v = Digest_zero)
       /\ st_calls s = [].
Proof.
  split; [exact failing_proof_well_formed|].
  split; [exact failing_proof_quotient|].
  exact (quotient_mismatch_precedes_group_work failing_proof sample_key
           sample_witness failing_proof_well_formed failing_proof_quotient).
Defined.

Lemma openings_ignore_public_witness_witness :
  expected_quotient passing_proof sample_key sample_witness
  = claimed passing_proof 0
  /\ expected_quotient passing_proof sample_key
       (sample_witness ++ [fr.Zero])
     = claimed passing_proof 0
  /\ returned (Verify passing_proof sample_key sample_witness)
     = returned (Verify passing_proof sample_key
                   (sample_witness ++ [fr.Zero]))
  /\ calls_of (Verify passing_proof sample_key sample_witness)
     = calls_of (Verify passing_proof sample_key
                   (sample_witness ++ [fr.Zero])).
Proof.
  split; [exact passing_proof_quotient|].
  split; [exact passing_proof_quotient_padded|].
  exact (openings_ignore_public_witness passing_proof sample_key
           sample_witness (sample_witness ++ [fr.Zero])
           passing_proof_quotient passing_proof_quotient_padded).
Defined.

(* ================================================================= *)
(** ** The gadget [Fp2Elmt] *)

Module Fp2Proofs.

Import frontend fields.

Local Open Scope gadget_scope.

Section Soundness.

Context {cs : CS} {sem : Semantics cs} (L : Lawful sem).

Add Ring F_ring_of_circuit : (F_ring L).

Lemma extends_refl c : extends c c.
Proof. intros a v H. exact H. Qed.

Lemma extends_trans c1 c2 c3 :
  extends c1 c2 -> extends c2 c3 -> extends c1 c3.
Proof. intros H12 H23 a v H. apply H23, H12, H. Qed.

(** The two values behind an element, one by one. *)
Lemma Fp2_val_Some m e v :
  Fp2_val m e = Some v
  <-> val (mem_circuit m) (iface_Constraint (Fp2Elmt_x (mem_elmts m e)))
      = Some (fst v)
      /\ val (mem_circuit m) (iface_Constraint (Fp2Elmt_y (mem_elmts m e)))
         = Some (snd v).
Proof.
  unfold Fp2_val. destruct v as [a b]. cbn [fst snd].
  destruct (val _ (iface_Constraint (Fp2Elmt_x _))) as [a'|];
    destruct (val _ (iface_Constraint (Fp2Elmt_y _))) as [b'|];
    split; try intros [H1 H2]; try intros H; try discriminate;
    try congruence.
  inversion H. split; reflexivity.
Qed.

(** A write into [e.x] leaves every [y] as it is, and the other way
    round. *)
Lemma set_x_keeps_y (h : address -> Fp2Elmt) e p a :
  Fp2Elmt_y (if Nat.eqb a e
             then {| Fp2Elmt_x := p; Fp2Elmt_y := Fp2Elmt_y (h a) |}
             else h a)
  = Fp2Elmt_y (h a).
Proof. destruct (Nat.eqb a e); reflexivity. Qed.

(** An element that a call did not write keeps its value. *)
Lemma frame_keeps m m' e a w :
  (forall a, a <> e -> mem_elmts m' a = mem_elmts m a) ->
  extends (mem_circuit m) (mem_circuit m') ->
  a <> e ->
  Fp2_val m a = Some w -> Fp2_val m' a = Some w.
Proof.
  intros Hframe Hext Ha Hw.
  apply Fp2_val_Some. apply Fp2_val_Some in Hw. destruct Hw as [Hx Hy].
  rewrite (Hframe a Ha). split; apply Hext; assumption.
Qed.

(** A call that follows writes into the same receiver. *)
Lemma computes_after r m0 m e v :
  computes r m e v ->
  (forall a, a <> e -> mem_elmts m a = mem_elmts m0 a) ->
  extends (mem_circuit m0) (mem_circuit m) ->
  computes r m0 e v.
Proof.
  intros (m' & Hr & Hv & Hframe & Hext) Hframe0 Hext0.
  exists m'. split; [exact Hr|]. split; [exact Hv|]. split.
  - intros a Ha. rewrite (Hframe a Ha). apply Hframe0, Ha.
  - eapply extends_trans; eassumption.
Qed.

Ltac lift :=
  solve [ assumption
        | match goal with
          | H : extends _ ?c |- val ?c _ = Some _ => apply H; lift
          end ].

Ltac run_gadget :=
  unfold NewFp2Elmt, Add, Sub, Mul, MulByFp, MulByIm, Conjugate, bind,
    get_x, get_y, set_x, set_y, call, ret;
  cbn [mem_circuit mem_elmts].

Ltac step R := rewrite R; cbv beta iota; cbn [mem_circuit mem_elmts].

Ltac open_values m c h :=
  destruct m as [c h];
  repeat match goal with
         | H : Fp2_val _ _ = Some _ |- _ =>
             apply Fp2_val_Some in H; cbn [mem_circuit mem_elmts] in H;
             destruct H
         end.

Ltac frame_and_extension :=
  split;
  [ let a := fresh "a" in let Ha := fresh "Ha" in
    intros a Ha; cbn [mem_elmts];
    repeat match goal with
           | |- context [Nat.eqb ?x ?y] =>
               destruct (Nat.eqb_spec x y); [contradiction|]
           end;
    reflexivity
  | cbn [mem_circuit];
    repeat first [ assumption | apply extends_refl
                 | eapply extends_trans; [eassumption|] ] ].

(** The value of the element written last at [e]. *)
Ltac value_at_receiver :=
  apply Fp2_val_Some; cbn [mem_circuit mem_elmts fst snd];
  rewrite ?Nat.eqb_refl; cbn [Fp2Elmt_x Fp2Elmt_y];
  rewrite ?Nat.eqb_refl; cbn [Fp2Elmt_x Fp2Elmt_y];
  split; lift.

Lemma Add_computes m e e1 e2 v1 v2 :
  Fp2_val m e1 = Some v1 ->
  Fp2_val m e2 = Some v2 ->
  computes (Add e e1 e2 m) m e (Fp2_add v1 v2).
Proof.
  intros H1 H2. open_values m c h.
  destruct (ADD_val L c (iface_Constraint (Fp2Elmt_x (h e1)))
              (iface_Constraint (Fp2Elmt_x (h e2))) (fst v1) (fst v2))
    as (px & c1 & R1 & Vx & E1); try lift.
  destruct (ADD_val L c1 (iface_Constraint (Fp2Elmt_y (h e1)))
              (iface_Constraint (Fp2Elmt_y (h e2))) (snd v1) (snd v2))
    as (py & c2 & R2 & Vy & E2); try lift.
  run_gadget. step R1. step R2.
  eexists. split; [reflexivity|]. split.
  - unfold Fp2_add. value_at_receiver.
  - frame_and_extension.
Qed.

Lemma Sub_computes m e e1 e2 v1 v2 :
  Fp2_val m e1 = Some v1 ->
  Fp2_val m e2 = Some v2 ->
  computes (Sub e e1 e2 m) m e (Fp2_sub v1 v2).
Proof.
  intros H1 H2. open_values m c h.
  destruct (SUB_val L c (iface_Constraint (Fp2Elmt_x (h e1)))
              (iface_Constraint (Fp2Elmt_x (h e2))) (fst v1) (fst v2))
    as (px & c1 & R1 & Vx & E1); try lift.
  destruct (SUB_val L c1 (iface_Constraint (Fp2Elmt_y (h e1)))
              (iface_Constraint (Fp2Elmt_y (h e2))) (snd v1) (snd v2))
    as (py & c2 & R2 & Vy & E2); try lift.
  run_gadget. step R1. step R2.
  eexists. split; [reflexivity|]. split.
  - unfold Fp2_sub. value_at_receiver.
  - frame_and_extension.
Qed.

Lemma Mul_computes m e e1 e2 ext v1 v2 u2 :
  Fp2_val m e1 = Some v1 ->
  Fp2_val m e2 = Some v2 ->
  val (mem_circuit m) (uSquare ext) = Some u2 ->
  computes (Mul e e1 e2 ext m) m e (Fp2_mul u2 v1 v2).
Proof.
  intros H1 H2 Hu. open_values m c h. cbn [mem_circuit] in Hu.
  destruct (MUL_val L c (iface_Constraint (Fp2Elmt_x (h e1)))
              (iface_Constraint (Fp2Elmt_x (h e2))) (fst v1) (fst v2))
    as (pa & c1 & R1 & Va & E1); try lift.
  destruct (MUL_val L c1 (iface_Constraint (Fp2Elmt_y (h e1)))
              (iface_Constraint (Fp2Elmt_y (h e2))) (snd v1) (snd v2))
    as (pb & c2 & R2 & Vb & E2); try lift.
  destruct (MUL_val L c2 (iface_Constraint pb) (uSquare ext)
              (Fmul (snd v1) (snd v2)) u2)
    as (pb' & c3 & R3 & Vb' & E3); try lift.
  destruct (ADD_val L c3 (iface_Constraint pa) (iface_Constraint pb')
              (Fmul (fst v1) (fst v2)) (Fmul (Fmul (snd v1) (snd v2)) u2))
    as (px & c4 & R4 & Vx & E4); try lift.
  destruct (MUL_val L c4 (iface_Constraint (Fp2Elmt_x (h e1)))
              (iface_Constraint (Fp2Elmt_y (h e2))) (fst v1) (snd v2))
    as (pc & c5 & R5 & Vc & E5); try lift.
  destruct (MUL_val L c5 (iface_Constraint (Fp2Elmt_y (h e1)))
              (iface_Constraint (Fp2Elmt_x (h e2))) (snd v1) (fst v2))
    as (pd & c6 & R6 & Vd & E6); try lift.
  destruct (ADD_val L c6 (iface_Constraint pc) (iface_Constraint pd)
              (Fmul (fst v1) (snd v2)) (Fmul (snd v1) (fst v2)))
    as (py & c7 & R7 & Vy & E7); try lift.
  run_gadget. step R1. step R2. step R3. step R4. step R5. step R6.
  step R7.
  eexists. split; [reflexivity|]. split.
  - unfold Fp2_mul. value_at_receiver.
  - frame_and_extension.
Qed.

Lemma MulByIm_computes m e e1 ext a b u2 :
  val (mem_circuit m) (iface_Constraint (Fp2Elmt_y (mem_elmts m e)))
  = Some a ->
  val (mem_circuit m) (iface_Constraint (Fp2Elmt_y (mem_elmts m e1)))
  = Some b ->
  val (mem_circuit m) (uSquare ext) = Some u2 ->
  computes (MulByIm e e1 ext m) m e (Fmul a u2, b).
Proof.
  intros Ha Hb Hu. destruct m as [c h]. cbn [mem_circuit mem_elmts] in *.
  destruct (MUL_val L c (iface_Constraint (Fp2Elmt_y (h e))) (uSquare ext)
              a u2)
    as (px & c1 & R1 & Vx & E1); try lift.
  run_gadget. step R1.
  eexists. split; [reflexivity|]. split.
  - value_at_receiver.
  - frame_and_extension.
Qed.

Lemma Conjugate_computes m e e1 v1 :
  Fp2_val m e1 = Some v1 ->
  computes (Conjugate e e1 m) m e (Fp2_conjugate v1).
Proof.
  intros H1. open_values m c h.
  destruct (SUB_val L c (iface_int 0) (iface_Constraint (Fp2Elmt_y (h e1)))
              F0 (snd v1))
    as (py & c1 & R1 & Vy & E1); try lift.
  { apply (val_zero L). }
  run_gadget. rewrite set_x_keeps_y. step R1.
  eexists. split; [reflexivity|]. split.
  - unfold Fp2_conjugate. value_at_receiver.
  - frame_and_extension.
Qed.

Lemma computes_evaluates r m e v : computes r m e v -> evaluates_to r e v.
Proof. intros (m' & Hr & Hv & _). exists m'. split; assumption. Qed.

Lemma computes_unique r m e v w :
  computes r m e v -> computes r m e w -> v = w.
Proof.
  intros (m1 & R1 & V1 & _) (m2 & R2 & V2 & _).
  rewrite R1 in R2. inversion R2; subst m2. congruence.
Qed.

Lemma Fp2_conjugate_twice (v : F * F) :
  Fp2_conjugate (Fp2_conjugate v) = v.
Proof.
  destruct v as [a b]. unfold Fp2_conjugate. cbn [fst snd].
  f_equal. ring.
Qed.

Lemma Fp2_mul_comm u2 (v w : F * F) : Fp2_mul u2 v w = Fp2_mul u2 w v.
Proof. unfold Fp2_mul. f_equal; ring. Qed.

Lemma Fp2_mul_conjugate u2 (v : F * F) :
  Fp2_mul u2 v (Fp2_conjugate v)
  = (Fsub (Fmul (fst v) (fst v)) (Fmul (Fmul (snd v) (snd v)) u2), F0).
Proof. unfold Fp2_mul, Fp2_conjugate. cbn [fst snd]. f_equal; ring. Qed.

Lemma Fp2_mul_add u2 (v w1 w2 : F * F) :
  Fp2_mul u2 v (Fp2_add w1 w2)
  = Fp2_add (Fp2_mul u2 v w1) (Fp2_mul u2 v w2).
Proof. unfold Fp2_mul, Fp2_add. cbn [fst snd]. f_equal; ring. Qed.

Lemma Fp2_add_sub (v w : F * F) : Fp2_sub (Fp2_add v w) w = v.
Proof.
  destruct v as [a b]. unfold Fp2_sub, Fp2_add. cbn [fst snd].
  f_equal; ring.
Qed.

Lemma bind_Some {A B} (c : G A) (k : A -> G B) m a m' :
  c m = Some (a, m') -> bind c k m = k a m'.
Proof. unfold bind. intros ->. reflexivity. Qed.

(** X8. [Add] writes into its receiver the sum of the two arguments,
    entry by entry, for every circuit whose [ADD] returns a constraint with
    the sum of the values of its operands.  The receiver may be one of the
    arguments, or both: [x] and [y] are computed before [e.x] and [e.y]
    are written.  No other element is written. *)
Theorem Add_sound m e e1 e2 v1 v2 :
  Fp2_val m e1 = Some v1 ->
  Fp2_val m e2 = Some v2 ->
  computes (Add e e1 e2 m) m e (Fp2_add v1 v2).
Proof. apply Add_computes. Qed.

(** X9. [Sub] writes into its receiver the difference of the two
    arguments, entry by entry; the receiver may be one of the arguments,
    and no other element is written. *)
Theorem Sub_sound m e e1 e2 v1 v2 :
  Fp2_val m e1 = Some v1 ->
  Fp2_val m e2 = Some v2 ->
  computes (Sub e e1 e2 m) m e (Fp2_sub v1 v2).
Proof. apply Sub_computes. Qed.

(** X10. [Mul] writes into its receiver the product in the quadratic
    extension with u^2 = [ext.uSquare]:
    (x1 + y1.u)(x2 + y2.u) = (x1.x2 + y1.y2.u^2) + (x1.y2 + y1.x2).u.
    The receiver may be one of the arguments, or both. *)
Theorem Mul_sound m e e1 e2 ext v1 v2 u2 :
  Fp2_val m e1 = Some v1 ->
  Fp2_val m e2 = Some v2 ->
  val (mem_circuit m) (uSquare ext) = Some u2 ->
  computes (Mul e e1 e2 ext m) m e (Fp2_mul u2 v1 v2).
Proof. apply Mul_computes. Qed.

(** X11. [MulByFp] writes into its receiver the argument with both entries
    multiplied by [c].  The receiver may be the argument: [e.x] is written
    before [e1.y] is read, and the write leaves [y] alone. *)
Theorem MulByFp_sound m e e1 k v1 vk :
  Fp2_val m e1 = Some v1 ->
  val (mem_circuit m) k = Some vk ->
  computes (MulByFp e e1 k m) m e (Fp2_scale v1 vk).
Proof.
  intros H1 Hk. open_values m c h. cbn [mem_circuit] in Hk.
  destruct (MUL_val L c (iface_Constraint (Fp2Elmt_x (h e1))) k
              (fst v1) vk)
    as (px & c1 & R1 & Vx & E1); try lift.
  destruct (MUL_val L c1 (iface_Constraint (Fp2Elmt_y (h e1))) k
              (snd v1) vk)
    as (py & c2 & R2 & Vy & E2); try lift.
  run_gadget. step R1. rewrite set_x_keeps_y. step R2.
  eexists. split; [reflexivity|]. split.
  - unfold Fp2_scale. value_at_receiver.
  - frame_and_extension.
Qed.

(** X12. [MulByIm] leaves in its receiver the entries
    (e.y * uSquare, e1.y), where [e.y] is the receiver's [y] before the
    call: line 71 reads [e.y], not [e1.y], and line 70 reads [e1.y], not
    [e1.x].  [e1.x] is not read at all: the call needs no value behind
    it. *)
Theorem MulByIm_reads_receiver m e e1 ext a b u2 :
  val (mem_circuit m) (iface_Constraint (Fp2Elmt_y (mem_elmts m e)))
  = Some a ->
  val (mem_circuit m) (iface_Constraint (Fp2Elmt_y (mem_elmts m e1)))
  = Some b ->
  val (mem_circuit m) (uSquare ext) = Some u2 ->
  computes (MulByIm e e1 ext m) m e (Fmul a u2, b).
Proof. apply MulByIm_computes. Qed.

(** X13. [MulByIm] on its own receiver turns x + y.u into y.u^2 + y.u.
    This is the product by u, y.u^2 + x.u, exactly when x = y. *)
Theorem MulByIm_in_place m e ext v u2 :
  Fp2_val m e = Some v ->
  val (mem_circuit m) (uSquare ext) = Some u2 ->
  computes (MulByIm e e ext m) m e (Fmul (snd v) u2, snd v)
  /\ (computes (MulByIm e e ext m) m e (Fp2_mul_by_u u2 v)
      <-> fst v = snd v).
Proof.
  intros Hv Hu.
  assert (Hc : computes (MulByIm e e ext m) m e (Fmul (snd v) u2, snd v)).
  { apply Fp2_val_Some in Hv. destruct Hv as [_ Hy].
    apply MulByIm_computes; assumption. }
  split; [exact Hc|]. split.
  - intros Hc'. pose proof (computes_unique _ _ _ _ _ Hc Hc') as Heq.
    unfold Fp2_mul_by_u in Heq. inversion Heq. congruence.
  - intros Hxy. unfold Fp2_mul_by_u. rewrite Hxy. exact Hc.
Qed.

(** X14. [Conjugate] writes into its receiver x - y.u for the argument
    x + y.u, the second entry as the constraint 0 - y; the receiver may be
    the argument. *)
Theorem Conjugate_sound m e e1 v1 :
  Fp2_val m e1 = Some v1 ->
  computes (Conjugate e e1 m) m e (Fp2_conjugate v1).
Proof. apply Conjugate_computes. Qed.

(** X15. [Conjugate] twice gives the value back: after
    [e.Conjugate(circuit, e1).Conjugate(circuit, e)] the receiver holds the
    value of [e1]. *)
Theorem Conjugate_twice m e e1 v :
  Fp2_val m e1 = Some v ->
  computes ((e' <- Conjugate e e1 ;; Conjugate e e') m) m e v.
Proof.
  intros H1.
  destruct (Conjugate_computes m e e1 v H1) as (m1 & R1 & V1 & Fr1 & E1).
  rewrite (bind_Some _ _ _ _ _ R1).
  apply computes_after with (m := m1); trivial.
  pose proof (Conjugate_computes m1 e e _ V1) as H.
  rewrite Fp2_conjugate_twice in H. exact H.
Qed.

(** X16. [Mul] is commutative in its arguments: [e.Mul(circuit, e1, e2,
    ext)] and [e.Mul(circuit, e2, e1, ext)] leave the same value in the
    receiver. *)
Theorem Mul_commutes m e e1 e2 ext v1 v2 u2 :
  Fp2_val m e1 = Some v1 ->
  Fp2_val m e2 = Some v2 ->
  val (mem_circuit m) (uSquare ext) = Some u2 ->
  exists v,
    computes (Mul e e1 e2 ext m) m e v
    /\ computes (Mul e e2 e1 ext m) m e v.
Proof.
  intros H1 H2 Hu. exists (Fp2_mul u2 v1 v2). split.
  - apply Mul_computes; assumption.
  - rewrite Fp2_mul_comm. apply Mul_computes; assumption.
Qed.

(** X17. An element times its conjugate has no part in u:
    [t.Conjugate(circuit, a)] followed by [t.Mul(circuit, a, t, ext)]
    leaves x^2 - y^2.u^2 and 0 in [t], for a receiver other than [a]. *)
Theorem Mul_by_conjugate_is_norm m t a ext v u2 :
  t <> a ->
  Fp2_val m a = Some v ->
  val (mem_circuit m) (uSquare ext) = Some u2 ->
  computes ((c <- Conjugate t a ;; Mul t a c ext) m) m t
    (Fsub (Fmul (fst v) (fst v)) (Fmul (Fmul (snd v) (snd v)) u2), F0).
Proof.
  intros Hta Ha Hu.
  pose proof (Conjugate_computes m t a v Ha) as Hc.
  destruct Hc as (m1 & R1 & V1 & Fr1 & E1).
  rewrite (bind_Some _ _ _ _ _ R1).
  apply computes_after with (m := m1); trivial.
  rewrite <- Fp2_mul_conjugate.
  apply Mul_computes; trivial.
  - apply (frame_keeps m m1 t); trivial. congruence.
  - apply E1, Hu.
Qed.

(** X18. [Mul] distributes over [Add]: a.(b + c), computed as
    [t.Add(b, c)] then [t.Mul(a, t)], and a.b + a.c, computed as
    [t.Mul(a, b)], [s.Mul(a, c)], [t.Add(t, s)], leave the same value in
    [t]. *)
Theorem Mul_distributes_over_Add m t s a b c ext va vb vc u2 :
  t <> a -> t <> c -> s <> t ->
  Fp2_val m a = Some va ->
  Fp2_val m b = Some vb ->
  Fp2_val m c = Some vc ->
  val (mem_circuit m) (uSquare ext) = Some u2 ->
  evaluates_to ((bc <- Add t b c ;; Mul t a bc ext) m) t
    (Fp2_mul u2 va (Fp2_add vb vc))
  /\ evaluates_to
       ((p <- Mul t a b ext ;; q <- Mul s a c ext ;; Add t p q) m) t
       (Fp2_mul u2 va (Fp2_add vb vc)).
Proof.
  intros Hta Htc Hst Ha Hb Hc Hu. split.
  - pose proof (Add_computes m t b c vb vc Hb Hc) as H1.
    pose proof H1 as (m1 & R1 & V1 & Fr1 & E1).
    rewrite (bind_Some _ _ _ _ _ R1).
    apply computes_evaluates with (m := m1).
    apply Mul_computes; trivial.
    + apply (frame_keeps m m1 t); trivial. congruence.
    + apply E1, Hu.
  - pose proof (Mul_computes m t a b ext va vb u2 Ha Hb Hu) as H1.
    pose proof H1 as (m1 & R1 & V1 & Fr1 & E1).
    rewrite (bind_Some _ _ _ _ _ R1).
    assert (Ha1 : Fp2_val m1 a = Some va).
    { apply (frame_keeps m m1 t); trivial. congruence. }
    assert (Hc1 : Fp2_val m1 c = Some vc).
    { apply (frame_keeps m m1 t); trivial. congruence. }
    pose proof (Mul_computes m1 s a c ext va vc u2 Ha1 Hc1 (E1 _ _ Hu))
      as H2.
    pose proof H2 as (m2 & R2 & V2 & Fr2 & E2).
    rewrite (bind_Some _ _ _ _ _ R2).
    assert (Ht2 : Fp2_val m2 t = Some (Fp2_mul u2 va vb)).
    { apply (frame_keeps m1 m2 s); trivial. congruence. }
    rewrite Fp2_mul_add.
    apply computes_evaluates with (m := m2).
    apply Add_computes; trivial.
Qed.

(** X19. [Sub] undoes [Add]: [t.Add(circuit, a, b)] followed by
    [t.Sub(circuit, t, b)] leaves the value of [a] in [t], for a receiver
    other than [b]. *)
Theorem Sub_undoes_Add m t a b va vb :
  t <> b ->
  Fp2_val m a = Some va ->
  Fp2_val m b = Some vb ->
  computes ((s <- Add t a b ;; Sub t s b) m) m t va.
Proof.
  intros Htb Ha Hb.
  pose proof (Add_computes m t a b va vb Ha Hb) as Hc.
  pose proof Hc as (m1 & R1 & V1 & Fr1 & E1).
  rewrite (bind_Some _ _ _ _ _ R1).
  apply computes_after with (m := m1); trivial.
  assert (Hb1 : Fp2_val m1 b = Some vb).
  { apply (frame_keeps m m1 t); trivial. congruence. }
  pose proof (Sub_computes m1 t t b _ _ V1 Hb1) as H.
  rewrite Fp2_add_sub in H. exact H.
Qed.

(** X20. [NewFp2Elmt] on two arguments that have a value takes the
    allocating branch and returns the element whose two constraints carry
    these values; it writes no element. *)
Theorem NewFp2Elmt_sound m _x _y vx vy :
  val (mem_circuit m) _x = Some vx ->
  val (mem_circuit m) _y = Some vy ->
  exists el m',
    NewFp2Elmt _x _y m = Some (el, m')
    /\ val (mem_circuit m') (iface_Constraint (Fp2Elmt_x el)) = Some vx
    /\ val (mem_circuit m') (iface_Constraint (Fp2Elmt_y el)) = Some vy
    /\ (forall a, mem_elmts m' a = mem_elmts m a)
    /\ extends (mem_circuit m) (mem_circuit m').
Proof.
  intros Hx Hy. destruct m as [c h]. cbn [mem_circuit] in Hx, Hy.
  assert (Hnil : is_nil _x = false).
  { destruct _x; try reflexivity. rewrite (val_nil L) in Hx.
    discriminate. }
  destruct (ALLOCATE_val L c _x vx Hx) as (px & c1 & R1 & Vx & E1).
  destruct (ALLOCATE_val L c1 _y vy (E1 _ _ Hy))
    as (py & c2 & R2 & Vy & E2).
  unfold NewFp2Elmt. rewrite Hnil. cbn [andb].
  run_gadget. step R1. step R2.
  eexists. eexists. split; [reflexivity|].
  cbn [mem_circuit mem_elmts Fp2Elmt_x Fp2Elmt_y].
  split; [apply E2, Vx|]. split; [exact Vy|]. split; [reflexivity|].
  eapply extends_trans; eassumption.
Qed.

End Soundness.

(** *** The evaluating circuit and the sample elements *)

Section Samples.

#[local] Existing Instance evaluator.
#[local] Existing Instance evaluator_semantics.

Local Open Scope nat_scope.

Lemma evaluator_extends (c : list fr.Element) v :
  extends (cs := evaluator) c (c ++ [v]).
Proof.
  intros a w. destruct a as [|[i|]|z|k]; cbn [val evaluator_semantics
    evaluator_val]; trivial.
  intros H. rewrite nth_error_app1; [exact H|].
  apply nth_error_Some. congruence.
Qed.

Lemma evaluator_yields (c : list fr.Element) v :
  yields (cs := evaluator) (Some (Some (List.length c), c ++ [v])) c v.
Proof.
  exists (Some (List.length c)), (c ++ [v]).
  split; [reflexivity|]. split; [|apply evaluator_extends].
  cbn [val evaluator_semantics evaluator_val].
  rewrite nth_error_app2, Nat.sub_diag by lia. reflexivity.
Qed.

Lemma evaluator_op_yields op (c : list fr.Element) a b va vb :
  evaluator_val c a = Some va ->
  evaluator_val c b = Some vb ->
  yields (cs := evaluator) (evaluator_op op a b c) c (op va vb).
Proof.
  intros Ha Hb. unfold evaluator_op. rewrite Ha, Hb.
  apply evaluator_yields.
Qed.

Lemma evaluator_lawful : Lawful evaluator_semantics.
Proof.
  constructor.
  - exact fr_ring_theory.
  - reflexivity.
  - intros c. reflexivity.
  - intros c a va Ha. cbn [ALLOCATE evaluator]. unfold evaluator_ALLOCATE.
    cbn [val evaluator_semantics] in Ha. rewrite Ha.
    apply evaluator_yields.
  - intros c a b va vb Ha Hb. apply evaluator_op_yields; assumption.
  - intros c a b va vb Ha Hb. apply evaluator_op_yields; assumption.
  - intros c a b va vb Ha Hb. apply evaluator_op_yields; assumption.
Qed.

Lemma sample_element_0 :
  Fp2_val sample_memory 0 = Some (fr.of_Z 3, fr.of_Z 4).
Proof. reflexivity. Qed.

Lemma sample_element_1 :
  Fp2_val sample_memory 1 = Some (fr.of_Z 5, fr.of_Z 6).
Proof. reflexivity. Qed.

Lemma sample_element_2 :
  Fp2_val sample_memory 2 = Some (fr.of_Z 7, fr.of_Z 7).
Proof. reflexivity. Qed.

Lemma sample_uSquare :
  val (mem_circuit sample_memory) (uSquare sample_extension)
  = Some (fr.of_Z 5).
Proof. reflexivity. Qed.

Lemma Add_sound_witness :
  Lawful evaluator_semantics
  /\ Fp2_val sample_memory 0 = Some (fr.of_Z 3, fr.of_Z 4)
  /\ Fp2_val sample_memory 1 = Some (fr.of_Z 5, fr.of_Z 6)
  /\ computes (Add 0 0 1 sample_memory) sample_memory 0
       (Fp2_add (fr.of_Z 3, fr.of_Z 4) (fr.of_Z 5, fr.of_Z 6)).
Proof.
  split; [exact evaluator_lawful|]. split; [exact sample_element_0|].
  split; [exact sample_element_1|].
  exact (Add_sound evaluator_lawful sample_memory 0 0 1 _ _
           sample_element_0 sample_element_1).
Defined.

Lemma Sub_sound_witness :
  Lawful evaluator_semantics
  /\ Fp2_val sample_memory 0 = Some (fr.of_Z 3, fr.of_Z 4)
  /\ Fp2_val sample_memory 1 = Some (fr.of_Z 5, fr.of_Z 6)
  /\ computes (Sub 1 0 1 sample_memory) sample_memory 1
       (Fp2_sub (fr.of_Z 3, fr.of_Z 4) (fr.of_Z 5, fr.of_Z 6)).
Proof.
  split; [exact evaluator_lawful|]. split; [exact sample_element_0|].
  split; [exact sample_element_1|].
  exact (Sub_sound evaluator_lawful sample_memory 1 0 1 _ _
           sample_element_0 sample_element_1).
Defined.

Lemma Mul_sound_witness :
  Lawful evaluator_semantics
  /\ Fp2_val sample_memory 0 = Some (fr.of_Z 3, fr.of_Z 4)
  /\ Fp2_val sample_memory 1 = Some (fr.of_Z 5, fr.of_Z 6)
  /\ val (mem_circuit sample_memory) (uSquare sample_extension)
     = Some (fr.of_Z 5)
  /\ computes (Mul 0 0 1 sample_extension sample_memory) sample_memory 0
       (Fp2_mul (fr.of_Z 5) (fr.of_Z 3, fr.of_Z 4)
          (fr.of_Z 5, fr.of_Z 6)).
Proof.
  split; [exact evaluator_lawful|]. split; [exact sample_element_0|].
  split; [exact sample_element_1|]. split; [exact sample_uSquare|].
  exact (Mul_sound evaluator_lawful sample_memory 0 0 1 sample_extension
           _ _ _ sample_element_0 sample_element_1 sample_uSquare).
Defined.

Lemma MulByFp_sound_witness :
  Lawful evaluator_semantics
  /\ Fp2_val sample_memory 0 = Some (fr.of_Z 3, fr.of_Z 4)
  /\ val (mem_circuit sample_memory) (iface_int 2) = Some (fr.of_Z 2)
  /\ computes (MulByFp 0 0 (iface_int 2) sample_memory) sample_memory 0
       (Fp2_scale (fr.of_Z 3, fr.of_Z 4) (fr.of_Z 2)).
Proof.
  split; [exact evaluator_lawful|]. split; [exact sample_element_0|].
  split; [reflexivity|].
  exact (MulByFp_sound evaluator_lawful sample_memory 0 0 (iface_int 2)
           _ _ sample_element_0 eq_refl).
Defined.

Lemma MulByIm_reads_receiver_witness :
  Lawful evaluator_semantics
  /\ val (mem_circuit sample_memory)
       (iface_Constraint (Fp2Elmt_y (mem_elmts sample_memory 1)))
     = Some (fr.of_Z 6)
  /\ val (mem_circuit sample_memory)
       (iface_Constraint (Fp2Elmt_y (mem_elmts sample_memory 0)))
     = Some (fr.of_Z 4)
  /\ val (mem_circuit sample_memory) (uSquare sample_extension)
     = Some (fr.of_Z 5)
  /\ computes (MulByIm 1 0 sample_extension sample_memory) sample_memory 1
       (fr.Mul (fr.of_Z 6) (fr.of_Z 5), fr.of_Z 4).
Proof.
  split; [exact evaluator_lawful|]. split; [reflexivity|].
  split; [reflexivity|]. split; [exact sample_uSquare|].
  exact (MulByIm_reads_receiver evaluator_lawful sample_memory 1 0
           sample_extension _ _ _ eq_refl eq_refl sample_uSquare).
Defined.

Lemma MulByIm_in_place_witness :
  Lawful evaluator_semantics
  /\ Fp2_val sample_memory 0 = Some (fr.of_Z 3, fr.of_Z 4)
  /\ val (mem_circuit sample_memory) (uSquare sample_extension)
     = Some (fr.of_Z 5)
  /\ computes (MulByIm 0 0 sample_extension sample_memory) sample_memory 0
       (fr.Mul (fr.of_Z 4) (fr.of_Z 5), fr.of_Z 4)
  /\ (computes (MulByIm 0 0 sample_extension sample_memory) sample_memory 0
        (Fp2_mul_by_u (fr.of_Z 5) (fr.of_Z 3, fr.of_Z 4))
      <-> fr.of_Z 3 = fr.of_Z 4).
Proof.
  split; [exact evaluator_lawful|]. split; [exact sample_element_0|].
  split; [exact sample_uSquare|].
  exact (MulByIm_in_place evaluator_lawful sample_memory 0 sample_extension
           _ _ sample_element_0 sample_uSquare).
Defined.

Lemma Conjugate_sound_witness :
  Lawful evaluator_semantics
  /\ Fp2_val sample_memory 0 = Some (fr.of_Z 3, fr.of_Z 4)
  /\ computes (Conjugate 3 0 sample_memory) sample_memory 3
       (Fp2_conjugate (fr.of_Z 3, fr.of_Z 4)).
Proof.
  split; [exact evaluator_lawful|]. split; [exact sample_element_0|].
  exact (Conjugate_sound evaluator_lawful sample_memory 3 0 _
           sample_element_0).
Defined.

Lemma Conjugate_twice_witness :
  Lawful evaluator_semantics
  /\ Fp2_val sample_memory 0 = Some (fr.of_Z 3, fr.of_Z 4)
  /\ computes ((e' <- Conjugate 3 0 ;; Conjugate 3 e') sample_memory)
       sample_memory 3 (fr.of_Z 3, fr.of_Z 4).
Proof.
  split; [exact evaluator_lawful|]. split; [exact sample_element_0|].
  exact (Conjugate_twice evaluator_lawful sample_memory 3 0 _
           sample_element_0).
Defined.

Lemma Mul_commutes_witness :
  Lawful evaluator_semantics
  /\ Fp2_val sample_memory 0 = Some (fr.of_Z 3, fr.of_Z 4)
  /\ Fp2_val sample_memory 1 = Some (fr.of_Z 5, fr.of_Z 6)
  /\ val (mem_circuit sample_memory) (uSquare sample_extension)
     = Some (fr.of_Z 5)
  /\ exists v,
       computes (Mul 2 0 1 sample_extension sample_memory) sample_memory 2 v
       /\ computes (Mul 2 1 0 sample_extension sample_memory) sample_memory
            2 v.
Proof.
  split; [exact evaluator_lawful|]. split; [exact sample_element_0|].
  split; [exact sample_element_1|]. split; [exact sample_uSquare|].
  exact (Mul_commutes evaluator_lawful sample_memory 2 0 1 sample_extension
           _ _ _ sample_element_0 sample_element_1 sample_uSquare).
Defined.

Lemma Mul_by_conjugate_is_norm_witness :
  Lawful evaluator_semantics
  /\ 3 <> 0
  /\ Fp2_val sample_memory 0 = Some (fr.of_Z 3, fr.of_Z 4)
  /\ val (mem_circuit sample_memory) (uSquare sample_extension)
     = Some (fr.of_Z 5)
  /\ computes
       ((c <- Conjugate 3 0 ;; Mul 3 0 c sample_extension) sample_memory)
       sample_memory 3
       (fr.Sub (fr.Mul (fr.of_Z 3) (fr.of_Z 3))
          (fr.Mul (fr.Mul (fr.of_Z 4) (fr.of_Z 4)) (fr.of_Z 5)),
        fr.Zero).
Proof.
  split; [exact evaluator_lawful|]. split; [discriminate|].
  split; [exact sample_element_0|]. split; [exact sample_uSquare|].
  refine (Mul_by_conjugate_is_norm evaluator_lawful sample_memory 3 0
            sample_extension _ _ _ sample_element_0 sample_uSquare).
  discriminate.
Defined.

Lemma Mul_distributes_over_Add_witness :
  Lawful evaluator_semantics
  /\ 3 <> 0 /\ 3 <> 2 /\ 4 <> 3
  /\ Fp2_val sample_memory 0 = Some (fr.of_Z 3, fr.of_Z 4)
  /\ Fp2_val sample_memory 1 = Some (fr.of_Z 5, fr.of_Z 6)
  /\ Fp2_val sample_memory 2 = Some (fr.of_Z 7, fr.of_Z 7)
  /\ val (mem_circuit sample_memory) (uSquare sample_extension)
     = Some (fr.of_Z 5)
  /\ evaluates_to
       ((bc <- Add 3 1 2 ;; Mul 3 0 bc sample_extension) sample_memory) 3
       (Fp2_mul (fr.of_Z 5) (fr.of_Z 3, fr.of_Z 4)
          (Fp2_add (fr.of_Z 5, fr.of_Z 6) (fr.of_Z 7, fr.of_Z 7)))
  /\ evaluates_to
       ((p <- Mul 3 0 1 sample_extension ;;
         q <- Mul 4 0 2 sample_extension ;;
         Add 3 p q) sample_memory) 3
       (Fp2_mul (fr.of_Z 5) (fr.of_Z 3, fr.of_Z 4)
          (Fp2_add (fr.of_Z 5, fr.of_Z 6) (fr.of_Z 7, fr.of_Z 7))).
Proof.
  split; [exact evaluator_lawful|].
  split; [discriminate|]. split; [discriminate|]. split; [discriminate|].
  split; [exact sample_element_0|]. split; [exact sample_element_1|].
  split; [exact sample_element_2|]. split; [exact sample_uSquare|].
  refine (Mul_distributes_over_Add evaluator_lawful sample_memory 3 4 0 1 2
            sample_extension _ _ _ _ _ _ _
            sample_element_0 sample_element_1 sample_element_2
            sample_uSquare); discriminate.
Defined.

Lemma Sub_undoes_Add_witness :
  Lawful evaluator_semantics
  /\ 0 <> 1
  /\ Fp2_val sample_memory 0 = Some (fr.of_Z 3, fr.of_Z 4)
  /\ Fp2_val sample_memory 1 = Some (fr.of_Z 5, fr.of_Z 6)
  /\ computes ((s <- Add 0 0 1 ;; Sub 0 s 1) sample_memory) sample_memory 0
       (fr.of_Z 3, fr.of_Z 4).
Proof.
  split; [exact evaluator_lawful|]. split; [discriminate|].
  split; [exact sample_element_0|]. split; [exact sample_element_1|].
  refine (Sub_undoes_Add evaluator_lawful sample_memory 0 0 1 _ _ _
            sample_element_0 sample_element_1).
  discriminate.
Defined.

Lemma NewFp2Elmt_sound_witness :
  Lawful evaluator_semantics
  /\ val (mem_circuit sample_memory) (iface_int 8) = Some (fr.of_Z 8)
  /\ val (mem_circuit sample_memory) (iface_int 9) = Some (fr.of_Z 9)
  /\ exists el m',
       NewFp2Elmt (iface_int 8) (iface_int 9) sample_memory = Some (el, m')
       /\ val (mem_circuit m') (iface_Constraint (Fp2Elmt_x el))
          = Some (fr.of_Z 8)
       /\ val (mem_circuit m') (iface_Constraint (Fp2Elmt_y el))
          = Some (fr.of_Z 9)
       /\ (forall a, mem_elmts m' a = mem_elmts sample_memory a)
       /\ extends (mem_circuit sample_memory) (mem_circuit m').
Proof.
  split; [exact evaluator_lawful|]. split; [reflexivity|].
  split; [reflexivity|].
  exact (NewFp2Elmt_sound evaluator_lawful sample_memory (iface_int 8)
           (iface_int 9) _ _ eq_refl eq_refl).
Defined.

End Samples.

End Fp2Proofs.
